(** * Growth-curve analysis engines: baseline detection and log-phase detection

    A shallow embedding of [find_baseline_points] (blank-selection-test02.py and
    blank-selection-test0.py) and of [_linear_regression] / [detect_log_phase]
    (log_phase_tester_smoothed.py), with the properties of the engines proved
    over it.

    The loaders of the three scripts ([get_dataset_rows],
    [list_samples_and_wells_from_mapping], [get_time_series_for_well];
    [list_samples], [get_sample_entry], [list_history_labels],
    [get_curve_for_sample_history]) are embedded over typed JSON payloads,
    with their own exceptions.

    Numbers.  Python floats are idealised as exact rationals [Q]: the order,
    [abs], [+ - * /] and truncation are the exact ones, so rounding effects are
    outside the model.  Indices are [nat]; the integer options
    ([min_consecutive], [window_size]) are [Z] because the code accepts
    negative values for them.

    Errors.  A Python exception is a [Raise] result; [None] is [option]. *)

From Stdlib Require Import List ZArith QArith Qabs Qround Lia Lqa Bool Arith Sorted.
From Stdlib Require Import Permutation.
From Stdlib Require String Ascii DecimalString.
Import ListNotations.

Close Scope Q_scope.
Open Scope nat_scope.

(** ** Python primitives *)

Module Py.

Inductive exn : Type :=
| IndexError
| ValueError
| ZeroDivisionError
| StatisticsError
| LoopFuelExhausted.

Inductive result (A : Type) : Type :=
| Ok (a : A)
| Raise (e : exn).

Arguments Ok {A} a.
Arguments Raise {A} e.

Definition bind {A B} (m : result A) (k : A -> result B) : result B :=
  match m with
  | Ok a => k a
  | Raise e => Raise e
  end.

Notation "x <- m ;; k" := (bind m (fun x => k))
  (at level 61, m at next level, right associativity).

Fixpoint mapM {A B} (f : A -> result B) (l : list A) : result (list B) :=
  match l with
  | [] => Ok []
  | x :: r => b <- f x ;; bs <- mapM f r ;; Ok (b :: bs)
  end.

Fixpoint filterM {A} (p : A -> result bool) (l : list A) : result (list A) :=
  match l with
  | [] => Ok []
  | x :: r => b <- p x ;; xs <- filterM p r ;; Ok (if b then x :: xs else xs)
  end.

Fixpoint foldM {A S} (step : S -> A -> result S) (l : list A) (s : S) : result S :=
  match l with
  | [] => Ok s
  | x :: r => s' <- step s x ;; foldM step r s'
  end.

(** [l[i]] for a non-negative [i]. *)
Definition getitem {A} (l : list A) (i : nat) : result A :=
  match nth_error l i with
  | Some a => Ok a
  | None => Raise IndexError
  end.

(** [l[i] = v] on a local array whose index is in range; out of range the
    list is unchanged. *)
Fixpoint upd {A} (l : list A) (i : nat) (v : A) : list A :=
  match l, i with
  | [], _ => []
  | _ :: r, O => v :: r
  | x :: r, S i' => x :: upd r i' v
  end.

(** [l[i] = v] where the index may be out of range. *)
Definition setitem {A} (l : list A) (i : nat) (v : A) : result (list A) :=
  if i <? length l then Ok (upd l i v) else Raise IndexError.

(** [[i for i, x in enumerate(l) if p(x)]], counting from [i]. *)
Fixpoint indices_where {A} (p : A -> bool) (l : list A) (i : nat) : list nat :=
  match l with
  | [] => []
  | x :: r => if p x then i :: indices_where p r (S i) else indices_where p r (S i)
  end.

Definition Qlt_bool (a b : Q) : bool := negb (Qle_bool b a).

(** Float division: a zero divisor raises. *)
Definition qdiv (a b : Q) : result Q :=
  if Qeq_bool b 0 then Raise ZeroDivisionError else Ok (a / b)%Q.

(** [int(x)]: truncation toward zero. *)
Definition py_int (x : Q) : Z := Z.quot (Qnum x) (Zpos (Qden x)).

(** [min(l)] and [max(l)] keep the first of several equal extremes. *)
Fixpoint min_from (best : Q) (l : list Q) : Q :=
  match l with
  | [] => best
  | x :: r => if Qlt_bool x best then min_from x r else min_from best r
  end.

Definition py_min (l : list Q) : result Q :=
  match l with
  | [] => Raise ValueError
  | x :: r => Ok (min_from x r)
  end.

Fixpoint max_from (best : Q) (l : list Q) : Q :=
  match l with
  | [] => best
  | x :: r => if Qlt_bool best x then max_from x r else max_from best r
  end.

Definition py_max (l : list Q) : result Q :=
  match l with
  | [] => Raise ValueError
  | x :: r => Ok (max_from x r)
  end.

Fixpoint min_nat_from (best : nat) (l : list nat) : nat :=
  match l with
  | [] => best
  | x :: r => if x <? best then min_nat_from x r else min_nat_from best r
  end.

Definition py_min_nat (l : list nat) : result nat :=
  match l with
  | [] => Raise ValueError
  | x :: r => Ok (min_nat_from x r)
  end.

(** [max(l, key=key)] with a natural-number key. *)
Fixpoint max_by_from {A} (key : A -> nat) (best : A) (l : list A) : A :=
  match l with
  | [] => best
  | x :: r => if key best <? key x then max_by_from key x r else max_by_from key best r
  end.

Definition py_max_by {A} (key : A -> nat) (l : list A) : result A :=
  match l with
  | [] => Raise ValueError
  | x :: r => Ok (max_by_from key x r)
  end.

(** [max(l, key=key)] with a float key. *)
Fixpoint max_byQ_from {A} (key : A -> Q) (best : A) (l : list A) : A :=
  match l with
  | [] => best
  | x :: r => if Qlt_bool (key best) (key x) then max_byQ_from key x r
              else max_byQ_from key best r
  end.

Definition py_max_byQ {A} (key : A -> Q) (l : list A) : result A :=
  match l with
  | [] => Raise ValueError
  | x :: r => Ok (max_byQ_from key x r)
  end.

(** [sorted(l)] on integers, and on floats (stable). *)
Fixpoint insert_nat (x : nat) (l : list nat) : list nat :=
  match l with
  | [] => [x]
  | h :: r => if x <=? h then x :: h :: r else h :: insert_nat x r
  end.

Fixpoint sorted (l : list nat) : list nat :=
  match l with
  | [] => []
  | x :: r => insert_nat x (sorted r)
  end.

Fixpoint insert_Q (x : Q) (l : list Q) : list Q :=
  match l with
  | [] => [x]
  | h :: r => if Qle_bool x h then x :: h :: r else h :: insert_Q x r
  end.

Fixpoint sorted_Q (l : list Q) : list Q :=
  match l with
  | [] => []
  | x :: r => insert_Q x (sorted_Q r)
  end.

(** [not l]: the list is empty. *)
Definition is_nil {A} (l : list A) : bool :=
  match l with [] => true | _ => false end.

(** [statistics.median]. *)
Definition median (data : list Q) : result Q :=
  let data := sorted_Q data in
  let n := length data in
  if n =? 0 then Raise StatisticsError
  else if Nat.odd n then getitem data (n / 2)
  else
    let i := n / 2 in
    a <- getitem data (i - 1) ;;
    b <- getitem data i ;;
    Ok ((a + b) / 2)%Q.

(** A [set] of integers: membership, [add], [set(l)].  The engines only test
    membership and sort the set before returning it. *)
Definition mem (x : nat) (s : list nat) : bool := existsb (Nat.eqb x) s.

Definition set_add (s : list nat) (x : nat) : list nat :=
  if mem x s then s else s ++ [x].

Definition set_of (l : list nat) : list nat := fold_left set_add l [].

Definition qsum (l : list Q) : Q := fold_left Qplus l 0%Q.

(** [l[a:b]] with Python's treatment of negative and oversized bounds. *)
Definition slice_bound (n : nat) (x : Z) : nat :=
  if (x <? 0)%Z then Z.to_nat (Z.max 0 (x + Z.of_nat n))
  else Nat.min (Z.to_nat x) n.

Definition slice {A} (l : list A) (a b : Z) : list A :=
  let lo := slice_bound (length l) a in
  let hi := slice_bound (length l) b in
  firstn (hi - lo) (skipn lo l).

(** [range(a, b)] for integers. *)
Definition range (a b : Z) : list Z :=
  map (fun i => (a + Z.of_nat i)%Z) (seq 0 (Z.to_nat (b - a))).

End Py.

Import Py.

(** ** Baseline engine: [find_baseline_points] *)

Module Baseline.

(** Module constants of blank-selection-test02.py (the defaults of the
    keyword arguments and the two globals read by the monotonic cleanup). *)
Definition T_PRE : Q := 45%Q.
Definition BIN_WIDTH : Q := (1 # 1000)%Q.
Definition TOL : Q := (1 # 1000)%Q.
Definition MIN_CONSECUTIVE : Z := 3%Z.
Definition MONO_EPS_02 : Q := 0%Q.
Definition MONO_T_MAX_02 : Q := 400%Q.
(** blank-selection-test0.py has the same defaults and [MONO_EPS = 0.001]. *)
Definition MONO_EPS_0 : Q := (1 # 1000)%Q.

(** The value a run of the function hands back: [(baseline_indices,
    baseline_level, excluded_indices)]. *)
Definition output : Type := (list nat * option Q * list nat)%type.

(** [bins_dict[bin_index].append(idx)] on a [defaultdict(list)]; the
    association list keeps the keys in insertion order, as a dict does. *)
Fixpoint bins_append (bin_index : Z) (idx : nat) (d : list (Z * list nat))
  : list (Z * list nat) :=
  match d with
  | [] => [(bin_index, [idx])]
  | (k, v) :: r =>
      if (k =? bin_index)%Z then (k, v ++ [idx]) :: r
      else (k, v) :: bins_append bin_index idx r
  end.

Definition bin_step (y : list Q) (y_min bin_width : Q)
  (bins_dict : list (Z * list nat)) (idx : nat) : result (list (Z * list nat)) :=
  val <- getitem y idx ;;
  q <- qdiv (val - y_min)%Q bin_width ;;
  let bin_index := py_int q in
  Ok (bins_append bin_index idx bins_dict).

(** The loop that cuts [candidate_indices] into runs of adjacent indices. *)
Definition run_step (st : list (list nat) * list nat) (idx : nat)
  : list (list nat) * list nat :=
  let '(runs, current_run) := st in
  if idx =? last current_run 0 + 1 then (runs, current_run ++ [idx])
  else (runs ++ [current_run], [idx]).

Definition split_runs (c0 : nat) (rest : list nat) : list (list nat) :=
  let '(runs, current_run) := fold_left run_step rest ([], [c0]) in
  runs ++ [current_run].

(** Either the function has returned, or it goes on with
    [(baseline_indices, baseline_level, excluded_pre_indices)]. *)
Inductive stage : Type :=
| Return (out : output)
| Continue (baseline_indices : list nat) (baseline_level : Q)
           (excluded_pre_indices : list nat).

(** Lines 107-152 of blank-selection-test02.py, which are lines 133-197 of
    blank-selection-test0.py statement for statement. *)
Definition select_baseline (t y : list Q) (t_pre bin_width tol : Q)
  (min_consecutive : Z) : result stage :=
  let pre_indices := indices_where (fun ti => Qle_bool ti t_pre) t 0 in
  if (Z.of_nat (length pre_indices) <? min_consecutive)%Z then Ok (Return ([], None, []))
  else
    y_pre <- mapM (getitem y) pre_indices ;;
    y_min <- py_min y_pre ;;
    bins_dict <- foldM (bin_step y y_min bin_width) pre_indices [] ;;
    if is_nil bins_dict then Ok (Return ([], None, []))
    else
      best <- py_max_by (fun kv : Z * list nat => length (snd kv)) bins_dict ;;
      let best_indices := snd best in
      baseline_values <- mapM (getitem y) best_indices ;;
      baseline_level <- median baseline_values ;;
      near <- filterM (fun i => yi <- getitem y i ;;
                                Ok (Qle_bool (Qabs (yi - baseline_level)) tol))
                      pre_indices ;;
      let candidate_indices := sorted near in
      match candidate_indices with
      | [] => Ok (Return ([], Some baseline_level, []))
      | c0 :: rest =>
          let runs := split_runs c0 rest in
          let valid_runs :=
            filter (fun run => (min_consecutive <=? Z.of_nat (length run))%Z) runs in
          baseline_indices <-
            (if is_nil valid_runs then Ok candidate_indices
             else py_max_by (@length nat) valid_runs) ;;
          excluded_pre_indices <-
            (if is_nil baseline_indices then Ok []
             else
               earliest_baseline_idx <- py_min_nat baseline_indices ;;
               filterM (fun idx =>
                          if idx <? earliest_baseline_idx then
                            yi <- getitem y idx ;;
                            Ok (Qlt_bool tol (Qabs (yi - baseline_level)))
                          else Ok false)
                       pre_indices) ;;
          Ok (Continue baseline_indices baseline_level excluded_pre_indices)
      end.

(** *** The longest non-decreasing subsequence program (test02, lines 169-187) *)

Definition dp_inner (vals : list Q) (eps : Q) (j : nat)
  (st : list nat * list Z) (i : nat) : list nat * list Z :=
  let '(dp_len, prev_idx) := st in
  if Qle_bool (nth i vals 0%Q) (nth j vals 0%Q + eps)%Q
     && (nth j dp_len 0 <? nth i dp_len 0 + 1)
  then (upd dp_len j (nth i dp_len 0 + 1), upd prev_idx j (Z.of_nat i))
  else st.

Definition dp_outer (vals : list Q) (eps : Q)
  (st : list nat * list Z * nat) (j : nat) : list nat * list Z * nat :=
  let '(dp_len, prev_idx, best_end) := st in
  let '(dp_len, prev_idx) := fold_left (dp_inner vals eps j) (seq 0 j) (dp_len, prev_idx) in
  let best_end := if nth best_end dp_len 0 <? nth j dp_len 0 then j else best_end in
  (dp_len, prev_idx, best_end).

Definition lnds_tables (vals : list Q) (eps : Q) : list nat * list Z * nat :=
  let m := length vals in
  fold_left (dp_outer vals eps) (seq 0 m) (repeat 1 m, repeat (-1)%Z m, 0).

(** [while k != -1: keep.add(k); k = prev_idx[k]]; [None] when the fuel runs
    out before the loop ends. *)
Fixpoint backtrack (fuel : nat) (prev_idx : list Z) (k : Z) (keep : list nat)
  : option (list nat) :=
  if (k =? -1)%Z then Some keep
  else
    match fuel with
    | O => None
    | S fuel' =>
        backtrack fuel' prev_idx (nth (Z.to_nat k) prev_idx (-1)%Z)
                  (set_add keep (Z.to_nat k))
    end.

Definition lnds_keep (vals : list Q) (eps : Q) : result (list nat) :=
  let '(_, prev_idx, best_end) := lnds_tables vals eps in
  match backtrack (length vals) prev_idx (Z.of_nat best_end) [] with
  | Some keep_local_positions => Ok keep_local_positions
  | None => Raise LoopFuelExhausted
  end.

(** Lines 160-164: the indices the cleanup looks at. *)
Definition mono_window (MONO_T_MAX : Q) (t y : list Q) (start_idx : nat)
  (excluded_indices : list nat) : result (list nat) :=
  filterM (fun i => ti <- getitem t i ;;
                    Ok (Qle_bool ti MONO_T_MAX && negb (mem i excluded_indices)))
          (seq start_idx (length y - start_idx)).

(** Lines 190-192: one turn of the loop that excludes what is not kept. *)
Definition exclude_step (keep_global_indices excluded_indices : list nat) (idx : nat)
  : list nat :=
  if mem idx keep_global_indices then excluded_indices
  else set_add excluded_indices idx.

(** Lines 159-194: the monotonic cleanup, from [start_idx] and the indices
    excluded so far to the final (unsorted) set of excluded indices. *)
Definition mono_cleanup (MONO_EPS MONO_T_MAX : Q) (t y : list Q) (start_idx : nat)
  (excluded_indices : list nat) : result (list nat) :=
  mono_indices <- mono_window MONO_T_MAX t y start_idx excluded_indices ;;
  if length mono_indices <=? 1 then Ok excluded_indices
  else
    vals <- mapM (getitem y) mono_indices ;;
    keep_local_positions <- lnds_keep vals MONO_EPS ;;
    let keep_global_indices :=
      set_of (map (fun pos => nth pos mono_indices 0) keep_local_positions) in
    Ok (fold_left (exclude_step keep_global_indices) mono_indices excluded_indices).

(** [find_baseline_points] of blank-selection-test02.py. *)
Definition find_baseline_points (MONO_EPS MONO_T_MAX : Q) (t y : list Q)
  (t_pre bin_width tol : Q) (min_consecutive : Z) : result output :=
  sel <- select_baseline t y t_pre bin_width tol min_consecutive ;;
  match sel with
  | Return out => Ok out
  | Continue baseline_indices baseline_level excluded_pre_indices =>
      let excluded_indices := set_of excluded_pre_indices in
      if is_nil baseline_indices
      then Ok (baseline_indices, Some baseline_level, sorted excluded_indices)
      else
        start_idx <- py_min_nat baseline_indices ;;
        excluded_indices <-
          mono_cleanup MONO_EPS MONO_T_MAX t y start_idx excluded_indices ;;
        Ok (baseline_indices, Some baseline_level, sorted excluded_indices)
  end.

(** The cleanup loop of blank-selection-test0.py (lines 199-210): a forward
    clamp against the running maximum. *)
Definition clamp_step (MONO_EPS : Q) (st : list nat * option Q) (iv : nat * Q)
  : list nat * option Q :=
  let '(excluded_indices, prev) := st in
  let '(idx, value) := iv in
  if mem idx excluded_indices then st
  else
    match prev with
    | None => (excluded_indices, Some value)
    | Some p =>
        if Qlt_bool value (p - MONO_EPS)%Q then (set_add excluded_indices idx, prev)
        else (excluded_indices, Some (if Qlt_bool p value then value else p))
    end.

(** [find_baseline_points] of blank-selection-test0.py. *)
Definition find_baseline_points_test0 (MONO_EPS : Q) (t y : list Q)
  (t_pre bin_width tol : Q) (min_consecutive : Z) : result output :=
  sel <- select_baseline t y t_pre bin_width tol min_consecutive ;;
  match sel with
  | Return out => Ok out
  | Continue baseline_indices baseline_level excluded_pre_indices =>
      let excluded_indices := set_of excluded_pre_indices in
      let '(excluded_indices, _) :=
        fold_left (clamp_step MONO_EPS) (combine (seq 0 (length y)) y)
                  (excluded_indices, None) in
      Ok (baseline_indices, Some baseline_level, sorted excluded_indices)
  end.

End Baseline.

(** ** Log-phase engine: [_linear_regression] and [detect_log_phase] *)

Module LogPhase.

Definition DEFAULT_WINDOW_SIZE : Z := 5%Z.
Definition DEFAULT_R2_MIN : Q := (98 # 100)%Q.
Definition DEFAULT_OD_MIN : Q := (1 # 100)%Q.
Definition DEFAULT_FRAC_K_MAX : Q := (4 # 10)%Q.
Definition DEFAULT_MU_REL_MIN : Q := (8 # 10)%Q.
Definition DEFAULT_MU_REL_MAX : Q := (105 # 100)%Q.

Definition sq (x : Q) : Q := (x * x)%Q.

(** The accumulation loop of lines 118-124. *)
Definition cov_step (mean_t mean_u : Q) (acc : Q * Q) (tu : Q * Q) : Q * Q :=
  let '(s_tt, s_tu) := acc in
  let '(ti, ui) := tu in
  let dt := (ti - mean_t)%Q in
  let du := (ui - mean_u)%Q in
  ((s_tt + dt * dt)%Q, (s_tu + dt * du)%Q).

(** [_linear_regression(T, U)]: [(slope, intercept, r2)], each possibly [None]. *)
Definition _linear_regression (T U : list Q)
  : result (option Q * option Q * option Q) :=
  let n := length T in
  if n <? 2 then Ok (None, None, None)
  else
    mean_t <- qdiv (qsum T) (inject_Z (Z.of_nat n)) ;;
    mean_u <- qdiv (qsum U) (inject_Z (Z.of_nat n)) ;;
    let '(s_tt, s_tu) := fold_left (cov_step mean_t mean_u) (combine T U) (0%Q, 0%Q) in
    if Qeq_bool s_tt 0 then Ok (None, None, None)
    else
      slope <- qdiv s_tu s_tt ;;
      let intercept := (mean_u - slope * mean_t)%Q in
      let ss_tot := qsum (map (fun ui => sq (ui - mean_u)) U) in
      let ss_res :=
        qsum (map (fun tu : Q * Q => sq (snd tu - (slope * fst tu + intercept)))
                  (combine T U)) in
      r2 <- (if Qeq_bool ss_tot 0 then Ok 1%Q
             else q <- qdiv ss_res ss_tot ;; Ok (1 - q)%Q) ;;
      Ok (Some slope, Some intercept, Some r2).

(** A good window: [(start_idx, end_idx, mu, r2)]. *)
Definition window : Type := (nat * nat * Q * Q)%type.

Definition w_start (w : window) : nat := fst (fst (fst w)).
Definition w_end (w : window) : nat := snd (fst (fst w)).
Definition w_mu (w : window) : Q := snd (fst w).

(** The value a run of [detect_log_phase] hands back:
    [(log_indices, mu_max, mu_mean, K_est)]. *)
Definition output : Type := (list nat * option Q * option Q * option Q)%type.

(** [l[-1]]. *)
Definition getlast {A} (l : list A) : result A := getitem l (length l - 1).

(** The loop of lines 233-240 over [enumerate(is_log)]. *)
Definition log_run_step (st : list (list nat) * list nat) (iflag : nat * bool)
  : list (list nat) * list nat :=
  let '(runs, current) := st in
  let '(i, flag) := iflag in
  if flag then (runs, current ++ [i])
  else if negb (is_nil current) then (runs ++ [current], [])
  else st.

Definition log_runs (is_log : list bool) : list (list nat) :=
  let '(runs, current) :=
    fold_left log_run_step (combine (seq 0 (length is_log)) is_log) ([], []) in
  if negb (is_nil current) then runs ++ [current] else runs.

(** Lines 225-228: the mask of the points covered by a selected window. *)
Definition mark_window (is_log : list bool) (w : window) : result (list bool) :=
  foldM (fun m i => setitem m i true)
        (seq (w_start w) (w_end w + 1 - w_start w)) is_log.

Definition log_mask (n : nat) (log_windows : list window) : result (list bool) :=
  foldM mark_window log_windows (repeat false n).

Section WithLog.

(** [math.log] on positive arguments. *)
Variable ln : Q -> Q.

(** One turn of the sliding-window loop (lines 185-207). *)
Definition window_step (t y : list Q) (valid_indices : list nat)
  (window_size : Z) (r2_min frac_k_max K_est : Q)
  (good_windows : list window) (k : Z) : result (list window) :=
  let idxs := slice valid_indices k (k + window_size)%Z in
  T <- mapM (getitem t) idxs ;;
  Y <- mapM (getitem y) idxs ;;
  mx <- py_max Y ;;
  ratio <- qdiv mx K_est ;;
  if Qle_bool frac_k_max ratio then Ok good_windows
  else if existsb (fun val => Qle_bool val 0) Y then Ok good_windows
  else
    let U := map ln Y in
    reg <- _linear_regression T U ;;
    match reg with
    | (Some slope, _, Some r2) =>
        if Qle_bool slope 0 then Ok good_windows
        else if Qlt_bool r2 r2_min then Ok good_windows
        else
          first <- getitem idxs 0 ;;
          last <- getlast idxs ;;
          Ok (good_windows ++ [(first, last, slope, r2)])
    | _ => Ok good_windows
    end.

(** Lines 224-256: from the selected windows to the returned tuple. *)
Definition extract_run (n : nat) (log_windows : list window) (mu_max K_est : Q)
  : result output :=
  is_log <- log_mask n log_windows ;;
  let runs := log_runs is_log in
  if is_nil runs then Ok ([], Some mu_max, None, Some K_est)
  else
    log_indices <- py_max_by (@length nat) runs ;;
    mus_in_run <-
      filterM (fun w : window =>
                 lo <- getitem log_indices 0 ;;
                 if w_end w <? lo then Ok false
                 else hi <- getlast log_indices ;; Ok (negb (hi <? w_start w)))
              log_windows ;;
    let mus_in_run := map w_mu mus_in_run in
    mu_mean <-
      (if is_nil mus_in_run then Ok mu_max
       else qdiv (qsum mus_in_run) (inject_Z (Z.of_nat (length mus_in_run)))) ;;
    Ok (log_indices, Some mu_max, Some mu_mean, Some K_est).

(** Lines 212-222: [mu_max] and the windows whose slope is close to it. *)
Definition select_windows (good_windows : list window) (mu_rel_min mu_rel_max : Q)
  : result (Q * list window) :=
  mu_max <- py_max (map w_mu good_windows) ;;
  let log_windows :=
    filter (fun win => Qle_bool (mu_rel_min * mu_max) (w_mu win)
                       && Qle_bool (w_mu win) (mu_rel_max * mu_max))
           good_windows in
  if is_nil log_windows then
    w <- py_max_byQ w_mu good_windows ;;
    Ok (mu_max, [w])
  else Ok (mu_max, log_windows).

(** Lines 171-180: the valid indices and the plateau estimate. *)
Definition valid_indices_of (y : list Q) (od_min : Q) : list nat :=
  indices_where (fun val => Qle_bool od_min val) y 0.

Definition plateau (y : list Q) (valid_indices : list nat) : result (option Q) :=
  let tail :=
    if 5 <=? length valid_indices
    then skipn (length valid_indices - 5) valid_indices
    else valid_indices in
  tail_vals <- mapM (getitem y) tail ;;
  if is_nil tail_vals then Ok None
  else K <- median tail_vals ;; Ok (Some K).

(** Lines 183-207: the good windows. *)
Definition scan_windows (t y : list Q) (valid_indices : list nat)
  (window_size : Z) (r2_min frac_k_max K_est : Q) : result (list window) :=
  foldM (window_step t y valid_indices window_size r2_min frac_k_max K_est)
        (range 0 (Z.of_nat (length valid_indices) - window_size + 1)%Z) [].

(** [detect_log_phase]. *)
Definition detect_log_phase (t y : list Q) (window_size : Z)
  (r2_min od_min frac_k_max mu_rel_min mu_rel_max : Q) : result output :=
  let n := length t in
  if n =? 0 then Ok ([], None, None, None)
  else
    let valid_indices := valid_indices_of y od_min in
    if (Z.of_nat (length valid_indices) <? window_size + 1)%Z
    then Ok ([], None, None, None)
    else
      K <- plateau y valid_indices ;;
      match K with
      | None => Ok ([], None, None, None)
      | Some K_est =>
          if Qle_bool K_est 0 then Ok ([], None, None, None)
          else
            good_windows <-
              scan_windows t y valid_indices window_size r2_min frac_k_max K_est ;;
            if is_nil good_windows then Ok ([], None, None, Some K_est)
            else
              sel <- select_windows good_windows mu_rel_min mu_rel_max ;;
              let '(mu_max, log_windows) := sel in
              extract_run n log_windows mu_max K_est
      end.

End WithLog.

(** A rational stand-in for [math.log], used to run the engine on concrete
    series: the first three terms of [2 * atanh((x - 1) / (x + 1))].  It is
    zero at 1 and strictly increasing on the positive numbers. *)
Definition ln_series (x : Q) : Q :=
  let z := ((x - 1) / (x + 1))%Q in
  (2 * (z + z * z * z / 3 + z * z * z * z * z / 5))%Q.

End LogPhase.

(** * Vocabulary of the specification *)

Module Spec.

(** A single block of consecutive integers: [[a; a+1; ...; a+n-1]]. *)
Definition consecutive_block (l : list nat) : Prop :=
  exists a n, l = seq a n.

(** Strictly increasing lists. *)
Definition increasing (l : list nat) : Prop := StronglySorted lt l.

(** [c] is a subsequence of [l]. *)
Inductive subseq {A} : list A -> list A -> Prop :=
| subseq_nil : subseq [] []
| subseq_skip c x l : subseq c l -> subseq c (x :: l)
| subseq_take c x l : subseq c l -> subseq (x :: c) (x :: l).

(** The pre-window: the indices whose time is at most [t_pre]. *)
Definition pre_indices (t : list Q) (t_pre : Q) : list nat :=
  indices_where (fun ti => Qle_bool ti t_pre) t 0.

(** The number of points whose time is at most [t_pre]. *)
Definition count_pre (t : list Q) (t_pre : Q) : nat :=
  length (filter (fun ti => Qle_bool ti t_pre) t).

(** The candidates: pre-window indices whose value is within [tol] of the
    level. *)
Definition candidates (t y : list Q) (t_pre level tol : Q) : list nat :=
  filter (fun i => Qle_bool (Qabs (nth i y 0%Q - level)) tol) (pre_indices t t_pre).

(** The maximal runs of adjacent candidates. *)
Definition candidate_runs (cands : list nat) : list (list nat) :=
  match cands with
  | [] => []
  | c0 :: rest => Baseline.split_runs c0 rest
  end.

(** Pre-window points before [start] that are further than [tol] from the
    level. *)
Definition pre_excluded (t y : list Q) (t_pre level tol : Q) (start : nat) : list nat :=
  filter (fun i => (i <? start) && Qlt_bool tol (Qabs (nth i y 0%Q - level)))
         (pre_indices t t_pre).

(** The cleanup window: the indices from [start] on whose time is at most
    [t_max] and that are not excluded yet. *)
Definition cleanup_window (t_max : Q) (t y : list Q) (start : nat) (excl : list nat)
  : list nat :=
  filter (fun i => Qle_bool (nth i t 0%Q) t_max && negb (mem i excl))
         (seq start (length y - start)).

(** [l] is non-decreasing up to [eps]: from each member to the next the value
    drops by at most [eps]. *)
Fixpoint chain (y : list Q) (eps : Q) (l : list nat) : Prop :=
  match l with
  | [] => True
  | a :: r =>
      match r with
      | [] => True
      | b :: _ => (nth a y 0 <= nth b y 0 + eps)%Q /\ chain y eps r
      end
  end.

(** The bin index the code computes for index [i], and the histogram the
    grouping loop builds when no lookup or division fails. *)
Definition code_bin (y : list Q) (y_min bin_width : Q) (i : nat) : Z :=
  py_int ((nth i y 0 - y_min) / bin_width)%Q.

Definition group_bins (bin : nat -> Z) (l : list nat) (d : list (Z * list nat))
  : list (Z * list nat) :=
  fold_left (fun d idx => Baseline.bins_append (bin idx) idx d) l d.


Definition bin_members (bin : nat -> Z) (pre : list nat) (b : Z) : list nat :=
  filter (fun i => (bin i =? b)%Z) pre.


(** Bin [b] wins: no bin has more members, and every other bin with as
    many members was met later in the pass over the pre-window (its first
    member comes after the first member of [b]). *)
Definition winning_bin (bin : nat -> Z) (pre : list nat) (b : Z) : Prop :=
  bin_members bin pre b <> [] /\
  (forall b', length (bin_members bin pre b') <= length (bin_members bin pre b)) /\
  (forall b', b' <> b ->
     length (bin_members bin pre b') = length (bin_members bin pre b) ->
     hd 0 (bin_members bin pre b) < hd 0 (bin_members bin pre b')).

(** The level the histogram step computes: the median of the values whose
    indices sit in the entry that [max] picks from the histogram. *)
Definition histogram_level (y : list Q) (pre : list nat) (bin_width level : Q) : Prop :=
  exists y_min k members,
    py_min (map (fun i => nth i y 0%Q) pre) = Ok y_min /\
    py_max_by (fun kv : Z * list nat => length (snd kv))
              (group_bins (code_bin y y_min bin_width) pre []) = Ok (k, members) /\
    median (map (fun i => nth i y 0%Q) members) = Ok level.

(** How the baseline is chosen: the first longest run among those with at
    least [mc] members, or, when no run is that long, all candidates. *)
Definition chosen_baseline (mc : Z) (cands b : list nat) : Prop :=
  (In b (candidate_runs cands) /\
   (mc <= Z.of_nat (length b))%Z /\
   (forall r, In r (candidate_runs cands) -> length r <= length b))
  \/
  (Forall (fun r => (Z.of_nat (length r) < mc)%Z) (candidate_runs cands) /\
   b = cands).

(** The relation the subsequence program tests between positions [i < j] of
    [vals], and the chains of positions it grows: strictly increasing, each
    member related to the next. *)
Definition rel (vals : list Q) (eps : Q) (i j : nat) : bool :=
  Qle_bool (nth i vals 0%Q) (nth j vals 0%Q + eps)%Q.

Fixpoint pos_chain (r : nat -> nat -> bool) (l : list nat) : Prop :=
  match l with
  | [] => True
  | a :: t =>
      match t with
      | [] => True
      | b :: _ => a < b /\ r a b = true /\ pos_chain r t
      end
  end.

(** The state of the inner loop of the subsequence program for position [j],
    before it looks at position [i]; [dp0] and [prev0] are the tables at the
    start of the loop. *)
Record inner_inv (r : nat -> nat -> bool) (m j i : nat) (dp0 : list nat) (prev0 : list Z)
  (dp : list nat) (prev : list Z) : Prop := {
  ii_len_dp : length dp = m;
  ii_len_prev : length prev = m;
  ii_same : forall x, x <> j ->
            nth x dp 0 = nth x dp0 0 /\ nth x prev (-1)%Z = nth x prev0 (-1)%Z;
  ii_link : (nth j prev (-1)%Z = (-1)%Z /\ nth j dp 0 = 1) \/
            (exists p, nth j prev (-1)%Z = Z.of_nat p /\ p < i /\ r p j = true /\
                       nth j dp 0 = nth p dp 0 + 1);
  ii_upper : forall i', i' < i -> r i' j = true -> nth i' dp 0 + 1 <= nth j dp 0
}.

(** The state of the outer loop before it looks at position [j]. *)
Record dp_inv (r : nat -> nat -> bool) (m j : nat)
  (dp : list nat) (prev : list Z) (best : nat) : Prop := {
  di_len_dp : length dp = m;
  di_len_prev : length prev = m;
  di_untouched : forall x, j <= x -> x < m ->
                 nth x dp 0 = 1 /\ nth x prev (-1)%Z = (-1)%Z;
  di_pos : forall x, x < m -> 1 <= nth x dp 0;
  di_link : forall x, x < j ->
            (nth x prev (-1)%Z = (-1)%Z /\ nth x dp 0 = 1) \/
            (exists p, nth x prev (-1)%Z = Z.of_nat p /\ p < x /\ r p x = true /\
                       nth x dp 0 = nth p dp 0 + 1);
  di_upper : forall x i, x < j -> i < x -> r i x = true -> nth i dp 0 + 1 <= nth x dp 0;
  di_best_range : best = 0 \/ best < j;
  di_best : forall x, x < j -> nth x dp 0 <= nth best dp 0
}.



(** What [_linear_regression] computes when no division fails. *)
Definition mean_of (l : list Q) (n : nat) : Q := (qsum l / inject_Z (Z.of_nat n))%Q.

Definition spread (T U : list Q) : Q * Q :=
  fold_left (LogPhase.cov_step (mean_of T (length T)) (mean_of U (length T)))
            (combine T U) (0%Q, 0%Q).

Definition regression_value (T U : list Q) : option Q * option Q * option Q :=
  if length T <? 2 then (None, None, None)
  else
    let mean_t := mean_of T (length T) in
    let mean_u := mean_of U (length T) in
    if Qeq_bool (fst (spread T U)) 0 then (None, None, None)
    else
      let slope := (snd (spread T U) / fst (spread T U))%Q in
      let intercept := (mean_u - slope * mean_t)%Q in
      let ss_tot := qsum (map (fun ui => LogPhase.sq (ui - mean_u)) U) in
      let ss_res :=
        qsum (map (fun tu : Q * Q => LogPhase.sq (snd tu - (slope * fst tu + intercept)))
                  (combine T U)) in
      (Some slope, Some intercept,
       Some (if Qeq_bool ss_tot 0 then 1%Q else (1 - ss_res / ss_tot)%Q)).

(** A run of the mask: a non-empty block of consecutive indices that are all
    marked and that stops at the end of the mask or before an unmarked index. *)
Definition run_ok (mask : list bool) (r : list nat) : Prop :=
  exists a n,
    r = seq a n /\ 1 <= n /\
    (forall j, a <= j < a + n -> nth j mask false = true) /\
    a + n <= length mask /\
    (a + n < length mask -> nth (a + n) mask false = false).

(** The state of the run-collecting loop before it looks at index [i]. *)
Definition runs_inv (mask : list bool) (i : nat) (st : list (list nat) * list nat) : Prop :=
  Forall (run_ok mask) (fst st) /\
  exists a, snd st = seq a (i - a) /\ a <= i /\
            (forall j, a <= j < i -> nth j mask false = true).

(** The number of valid points: those with a value of at least [od_min]. *)
Definition count_valid (y : list Q) (od_min : Q) : nat :=
  length (filter (fun val => Qle_bool od_min val) y).

(** The plateau estimate: the median of the last five valid values, or of
    all of them when there are fewer than five. *)
Definition plateau_estimate (y : list Q) (od_min : Q) : result Q :=
  let valid := LogPhase.valid_indices_of y od_min in
  median (map (fun i => nth i y 0%Q) (skipn (length valid - 5) valid)).

Definition opt_list {A} (o : option A) : list A :=
  match o with
  | Some a => [a]
  | None => []
  end.

(** A window of valid indices qualifies when its largest value is below
    [frac_k_max * K_est], all its values are positive, and the regression of
    the logarithms against the times has a positive slope and an [r2] of at
    least [r2_min]; the qualifying window is recorded with its first and last
    index, its slope and its [r2]. *)
Definition qualifies (ln : Q -> Q) (t y : list Q) (r2_min frac_k_max K_est : Q)
  (idxs : list nat) : option LogPhase.window :=
  let T := map (fun i => nth i t 0%Q) idxs in
  let Y := map (fun i => nth i y 0%Q) idxs in
  match regression_value T (map ln Y) with
  | (Some slope, _, Some r2) =>
      if Qlt_bool (max_from (hd 0%Q Y) (tl Y)) (frac_k_max * K_est)
         && forallb (fun val => Qlt_bool 0 val) Y
         && Qlt_bool 0 slope
         && Qle_bool r2_min r2
      then Some (hd 0 idxs, last idxs 0, slope, r2)
      else None
  | _ => None
  end.

(** The qualifying windows among all windows of [window_size] consecutive
    valid indices, in the order of their first index. *)
Definition qualifying_windows (ln : Q -> Q) (t y : list Q) (window_size : nat)
  (r2_min od_min frac_k_max K_est : Q) : list LogPhase.window :=
  let valid := LogPhase.valid_indices_of y od_min in
  flat_map (fun k => opt_list (qualifies ln t y r2_min frac_k_max K_est
                                         (firstn window_size (skipn k valid))))
           (seq 0 (length valid + 1 - window_size)).

(** A run of adjacent candidates: not empty, one block. *)
Definition good_run (r : list nat) : Prop := r <> [] /\ consecutive_block r.

(** What the histogram looks like after a pass over [l]. *)
Record bins_ok (bin : nat -> Z) (l : list nat) (g : list (Z * list nat)) : Prop := {
  bins_keys_nodup : NoDup (map fst g);
  bins_members : forall k ms, In (k, ms) g -> ms = bin_members bin l k /\ ms <> [];
  bins_cover : forall i, In i l -> In (bin i) (map fst g);
  bins_order : forall g1 g2 k ms, g = g1 ++ (k, ms) :: g2 ->
               forall k' ms', In (k', ms') g1 -> hd 0 ms' < hd 0 ms
}.

End Spec.

Import Spec.

(** * Sample series *)

Module Samples.

Definition millis (l : list Z) : list Q := map (fun z => (z # 1000)%Q) l.
Definition hundredths (l : list Z) : list Q := map (fun z => (z # 100)%Q) l.
Definition minutes (l : list Z) : list Q := map inject_Z l.

(** A flat start, growth, and one downward spike at index 5. *)
Definition t_spike : list Q := minutes [0; 1; 2; 3; 4; 5; 6]%Z.
Definition y_spike : list Q := millis [50; 50; 50; 400; 800; 300; 1500]%Z.

(** Two readings at the level, separated by one that is far from it. *)
Definition t_split : list Q := minutes [0; 1; 2]%Z.
Definition y_split : list Q := minutes [0; 1; 0]%Z.

(** A series that stays at [od_min = 0.01]. *)
Definition t_floor : list Q := minutes [0; 1; 2; 3; 4; 5]%Z.
Definition y_floor : list Q := hundredths [1; 1; 1; 1; 1; 1]%Z.

(** Growth with one reading (index 1) below [od_min = 1]. *)
Definition t_gap : list Q := minutes [0; 1; 2; 3; 4]%Z.
Definition y_gap : list Q := hundredths [200; 50; 300; 400; 500]%Z.



End Samples.

(** * Loop invariants of the cleanups and of the run extraction *)

Module Invariants.


(** A run of the mask starts at index 0 or right after an unmarked index. *)
Definition run_left (mask : list bool) (r : list nat) : Prop :=
  hd 0 r = 0 \/ nth (hd 0 r - 1) mask false = false.

(** The state of the run-collecting loop before it looks at index [i], seen
    from the left end of the runs. *)
Definition runs_left_inv (mask : list bool) (i : nat) (st : list (list nat) * list nat)
  : Prop :=
  Forall (run_left mask) (fst st) /\
  run_left mask (snd st) /\
  (snd st = [] -> i = 0 \/ nth (i - 1) mask false = false).

End Invariants.

Import Invariants.

(** * The JSON payloads

    The scripts read their input from JSON files.  A JSON object is modelled
    by a record with one field for each key the code reads; a field is
    [None] when the key is absent and otherwise holds a value of the type the
    code expects there (a number, a string, a list, an object). *)

Module Payload.

Import String.StringSyntax.
Local Open Scope string_scope.

(** The exceptions of the loaders, with their argument. *)
Inductive exn : Type :=
| KeyError (key : String.string)
| ValueError (msg : String.string).

Inductive outcome (A : Type) : Type :=
| Returns (a : A)
| Raises (e : exn).

Arguments Returns {A} a.
Arguments Raises {A} e.

Definition bind {A B} (m : outcome A) (k : A -> outcome B) : outcome B :=
  match m with
  | Returns a => k a
  | Raises e => Raises e
  end.

Notation "x <~ m ;; k" := (bind m (fun x => k))
  (at level 61, m at next level, right associativity).

Fixpoint mapM {A B} (f : A -> outcome B) (l : list A) : outcome (list B) :=
  match l with
  | [] => Returns []
  | x :: r => b <~ f x ;; bs <~ mapM f r ;; Returns (b :: bs)
  end.

Fixpoint foldM {A S} (step : S -> A -> outcome S) (l : list A) (s : S) : outcome S :=
  match l with
  | [] => Returns s
  | x :: r => s' <~ step s x ;; foldM step r s'
  end.

(** [d[key]] *)
Definition require {A} (key : String.string) (field : option A) : outcome A :=
  match field with
  | Some a => Returns a
  | None => Raises (KeyError key)
  end.

(** [d.get(key, [])] *)
Definition items {A} (field : option (list A)) : list A :=
  match field with
  | Some l => l
  | None => []
  end.

(** [if name:] on the result of [d.get(key)] for a string field. *)
Definition truthy (field : option String.string) : bool :=
  match field with
  | Some s => negb (String.eqb s "")
  | None => false
  end.

(** [d.get(key) == s] for a string [s]. *)
Definition field_is (field : option String.string) (s : String.string) : bool :=
  match field with
  | Some v => String.eqb v s
  | None => false
  end.

(** [if name: names.append(name)]: the loop of [list_samples] and of
    [list_history_labels] collects the truthy values of a field, in order. *)
Definition append_truthy (names : list String.string) (name : option String.string)
  : list String.string :=
  match name with
  | Some n => if truthy name then names ++ [n] else names
  | None => names
  end.

(** A [set] of strings, and [sorted] on strings. *)
Definition mem_str (x : String.string) (s : list String.string) : bool :=
  existsb (String.eqb x) s.

Definition set_add_str (s : list String.string) (x : String.string) : list String.string :=
  if mem_str x s then s else s ++ [x].

Definition set_of_str (l : list String.string) : list String.string :=
  fold_left set_add_str l [].

Fixpoint insert_str (x : String.string) (l : list String.string) : list String.string :=
  match l with
  | [] => [x]
  | h :: r => if String.leb x h then x :: h :: r else h :: insert_str x r
  end.

Fixpoint sorted_str (l : list String.string) : list String.string :=
  match l with
  | [] => []
  | x :: r => insert_str x (sorted_str r)
  end.

End Payload.

(** ** The assignment file of the baseline scripts *)

Module Loading.

Import String.StringSyntax.
Import Payload.
Local Open Scope string_scope.

(** One row of [dataset.rows]. *)
Record row : Type := {
  row_well : option String.string;
  row_sample : option String.string;
  row_replicate : option Z;
  row_time_min : option Q;
  row_val_od600 : option Q
}.

(** A [dataset] object: its [rows], and whether it has any other key (an
    object without keys is falsy). *)
Record dataset_object : Type := {
  dataset_rows : option (list row);
  dataset_other_keys : bool
}.

Record mapping_sample : Type := {
  sample_name : option String.string;
  sample_wells : option (list String.string)
}.

Record mapping_object : Type := {
  mapping_samples : option (list mapping_sample)
}.

Record assignment_object : Type := {
  assignment_dataset : option dataset_object;
  assignment_mapping : option mapping_object
}.

Record assignment_file : Type := {
  data_dataset : option dataset_object;
  data_assignments : option (list assignment_object)
}.

(** [if dataset:] *)
Definition dataset_truthy (d : option dataset_object) : bool :=
  match d with
  | Some d =>
      match dataset_rows d with
      | Some _ => true
      | None => dataset_other_keys d
      end
  | None => false
  end.

(** The loop of [get_dataset_rows] over the assignments: [dataset] is
    overwritten at each turn, and the loop stops at the first truthy one. *)
Fixpoint scan_assignments (assignments : list assignment_object) (dataset : option dataset_object)
  : option dataset_object :=
  match assignments with
  | [] => dataset
  | a :: r =>
      let dataset := assignment_dataset a in
      if dataset_truthy dataset then dataset else scan_assignments r dataset
  end.

Definition NO_ROWS : String.string := "Brak danych 'dataset.rows' w pliku assignment".

Definition get_dataset_rows (data : assignment_file) : outcome (list row) :=
  let dataset := data_dataset data in
  let dataset :=
    if negb (dataset_truthy dataset)
    then scan_assignments (items (data_assignments data)) dataset
    else dataset in
  match dataset with
  | Some d =>
      if negb (dataset_truthy dataset) then Raises (KeyError NO_ROWS)
      else
        match dataset_rows d with
        | Some rows => Returns rows
        | None => Raises (KeyError NO_ROWS)
        end
  | None => Raises (KeyError NO_ROWS)
  end.

(** A [set] of replicate values ([None] when a row has no replicate). *)
Definition replicate_eqb (a b : option Z) : bool :=
  match a, b with
  | Some x, Some y => Z.eqb x y
  | None, None => true
  | _, _ => false
  end.

Definition add_replicate (s : list (option Z)) (x : option Z) : list (option Z) :=
  if existsb (replicate_eqb x) s then s else s ++ [x].

(** [sorted(zip(t, y), key=lambda xy: xy[0])]: a stable sort on the time. *)
Fixpoint insert_by_time (x : Q * Q) (l : list (Q * Q)) : list (Q * Q) :=
  match l with
  | [] => [x]
  | h :: r => if Qle_bool (fst x) (fst h) then x :: h :: r else h :: insert_by_time x r
  end.

Fixpoint sorted_by_time (l : list (Q * Q)) : list (Q * Q) :=
  match l with
  | [] => []
  | x :: r => insert_by_time x (sorted_by_time r)
  end.

(** The state of the loop of [get_time_series_for_well]:
    [(t, y, sample_name, replicates)]. *)
Definition series : Type :=
  (list Q * list Q * option String.string * list (option Z))%type.

Definition series_step (well : String.string) (st : series) (r : row) : outcome series :=
  let '(t, y, sample_name, replicates) := st in
  if negb (field_is (row_well r) well) then Returns st
  else
    ti <~ require "time_min" (row_time_min r) ;;
    yi <~ require "val_od600" (row_val_od600 r) ;;
    let replicates := add_replicate replicates (row_replicate r) in
    let sample_name :=
      match sample_name with
      | None => row_sample r
      | Some _ => sample_name
      end in
    Returns (t ++ [ti], y ++ [yi], sample_name, replicates).

Definition get_time_series_for_well (data : assignment_file) (well : String.string)
  : outcome series :=
  rows <~ get_dataset_rows data ;;
  st <~ foldM (series_step well) rows ([], [], None, []) ;;
  let '(t, y, sample_name, replicates) := st in
  if is_nil t then Raises (ValueError (String.append "Brak danych dla wella " well))
  else
    let combined := sorted_by_time (combine t y) in
    Returns (map fst combined, map snd combined, sample_name, replicates).

(** [sample_to_wells[name].add(well)] on a [defaultdict(set)]; the
    association list keeps the keys in insertion order, as a dict does. *)
Fixpoint add_well (name well : String.string) (d : list (String.string * list String.string))
  : list (String.string * list String.string) :=
  match d with
  | [] => [(name, [well])]
  | (k, wells) :: r =>
      if String.eqb k name then (k, set_add_str wells well) :: r
      else (k, wells) :: add_well name well r
  end.

(** One turn of the loop over [mapping.samples]. *)
Definition add_mapping_sample (d : list (String.string * list String.string))
  (sample : mapping_sample) : list (String.string * list String.string) :=
  let name := sample_name sample in
  let wells := items (sample_wells sample) in
  match name with
  | Some n => if truthy name then fold_left (fun d well => add_well n well d) wells d else d
  | None => d
  end.

(** One turn of the fallback loop over [dataset.rows]. *)
Definition add_row (d : list (String.string * list String.string)) (r : row)
  : list (String.string * list String.string) :=
  match row_sample r, row_well r with
  | Some sample, Some well =>
      if truthy (row_sample r) && truthy (row_well r) then add_well sample well d else d
  | _, _ => d
  end.

(** [mapping_samples] as the first lines of the function leave it: the
    [samples] of the [mapping] of the first assignment, if there is one. *)
Definition first_mapping_samples (data : assignment_file) : option (list mapping_sample) :=
  match items (data_assignments data) with
  | a :: _ =>
      match assignment_mapping a with
      | Some mapping => mapping_samples mapping
      | None => None
      end
  | [] => None
  end.

Definition list_samples_and_wells_from_mapping (data : assignment_file)
  : outcome (list (String.string * list String.string)) :=
  let mapping_samples := first_mapping_samples data in
  sample_to_wells <~
    (if negb (is_nil (items mapping_samples))
     then Returns (fold_left add_mapping_sample (items mapping_samples) [])
     else
       rows <~ get_dataset_rows data ;;
       Returns (fold_left add_row rows [])) ;;
  Returns (map (fun kv : String.string * list String.string => (fst kv, sorted_str (snd kv)))
               sample_to_wells).

(** What a listing under construction looks like: the keys are distinct,
    every set of wells is duplicate-free and not empty, and [P] tells which
    wells are listed under which name. *)
Definition listing_ok (P : String.string -> String.string -> Prop)
  (d : list (String.string * list String.string)) : Prop :=
  NoDup (map fst d) /\
  (forall k ws, In (k, ws) d -> NoDup ws /\ ws <> []) /\
  (forall k x, (exists ws, In (k, ws) d /\ In x ws) <-> P k x).

(** The rows of one well. *)
Definition well_rows (rows : list row) (well : String.string) : list row :=
  filter (fun r => field_is (row_well r) well) rows.

(** A row that has both readings. *)
Definition complete (r : row) : bool :=
  match row_time_min r, row_val_od600 r with
  | Some _, Some _ => true
  | _, _ => false
  end.

(** The readings of a row, as the fields hold them. *)
Definition reading (r : row) : option Q * option Q := (row_time_min r, row_val_od600 r).

End Loading.

(** ** The smoothed-curves file of the log-phase script *)

Module Smoothed.

Import String.StringSyntax.
Import Payload.
Local Open Scope string_scope.

(** One point of a curve. *)
Record point : Type := {
  p_x : option Q;
  p_y : option Q
}.

(** One entry of [history]. *)
Record history_object : Type := {
  h_label : option String.string;
  h_points : option (list point)
}.

(** One entry of [wells]. *)
Record well_object : Type := {
  w_well : option String.string;
  w_replicate : option Z
}.

(** One entry of [samples]. *)
Record sample_object : Type := {
  s_sample : option String.string;
  s_history : option (list history_object);
  s_wells : option (list well_object)
}.

Record payload_object : Type := {
  payload_samples : option (list sample_object)
}.

Definition list_samples (smoothed_payload : payload_object) : list String.string :=
  let samples := items (payload_samples smoothed_payload) in
  let names := fold_left (fun names s => append_truthy names (s_sample s)) samples [] in
  sorted_str (set_of_str names).

Definition get_sample_entry (smoothed_payload : payload_object) (sample_name : String.string)
  : outcome sample_object :=
  match find (fun s => field_is (s_sample s) sample_name)
             (items (payload_samples smoothed_payload)) with
  | Some s => Returns s
  | None =>
      Raises (ValueError (String.append "Brak sample='"
                            (String.append sample_name "' w pliku smoothed.")))
  end.

Definition list_history_labels (sample_entry : sample_object) : list String.string :=
  fold_left (fun labels h => append_truthy labels (h_label h))
            (items (s_history sample_entry)) [].

(** [l[-1]] on a list that may be empty. *)
Fixpoint last_item {A} (l : list A) : option A :=
  match l with
  | [] => None
  | [a] => Some a
  | _ :: r => last_item r
  end.

(** [str(x)] for the values that are formatted. *)
Definition str_string (x : option String.string) : String.string :=
  match x with
  | Some s => s
  | None => "None"
  end.

Definition str_int (x : option Z) : String.string :=
  match x with
  | Some z => DecimalString.NilZero.string_of_int (Z.to_int z)
  | None => "None"
  end.

(** [f"{w.get('well')} (rep {w.get('replicate')})"] *)
Definition well_text (w : well_object) : String.string :=
  String.append (str_string (w_well w))
    (String.append " (rep " (String.append (str_int (w_replicate w)) ")")).

(** The curve: [(t, y, selected_label, wells_info)]. *)
Definition curve : Type := (list Q * list Q * String.string * String.string)%type.

(** Lines 91-104: from the selected entry of [history] to the curve. *)
Definition curve_of (sample_entry : sample_object) (selected_history : history_object)
  : outcome curve :=
  let points := items (h_points selected_history) in
  if is_nil points
  then Raises (ValueError "Wybrany wariant history nie zawiera punktów.")
  else
    t <~ Payload.mapM (fun p => require "x" (p_x p)) points ;;
    y <~ Payload.mapM (fun p => require "y" (p_y p)) points ;;
    let wells := items (s_wells sample_entry) in
    let joined := String.concat ", " (map well_text wells) in
    let wells_info := if String.eqb joined "" then "brak" else joined in
    let label := match h_label selected_history with
                 | Some l => l
                 | None => ""
                 end in
    Returns (t, y, label, wells_info).

Definition get_curve_for_sample_history (sample_entry : sample_object)
  (history_label : option String.string) : outcome curve :=
  let history := items (s_history sample_entry) in
  if is_nil history
  then Raises (ValueError "Brak sekcji 'history' dla tej próbki.")
  else
    let selected_history :=
      match history_label with
      | None => last_item history
      | Some label => find (fun h => field_is (h_label h) label) history
      end in
    match selected_history with
    | None =>
        Raises (ValueError (String.append "Brak history.label='"
                              (String.append (str_string history_label)
                                             "' dla tej próbki.")))
    | Some h => curve_of sample_entry h
    end.

End Smoothed.

(** ** Sample payloads *)

Module PayloadSamples.

Import String.StringSyntax.
Import Payload Loading Smoothed.
Local Open Scope string_scope.

Definition reading_row (well sample : String.string) (replicate : Z) (time od : Q) : row :=
  {| row_well := Some well; row_sample := Some sample; row_replicate := Some replicate;
     row_time_min := Some time; row_val_od600 := Some od |}.

(** Two wells of one sample; the rows of well B02 are not in time order, and
    the last row of well B03 has no value. *)
Definition demo_rows : list row :=
  [ reading_row "B02" "SGL800" 1 20 (52 # 1000);
    reading_row "B03" "SGL800" 2 0 (50 # 1000);
    reading_row "B02" "SGL800" 1 0 (50 # 1000);
    reading_row "B02" "SGL800" 1 10 (50 # 1000);
    reading_row "B02" "SGL800" 1 60 (400 # 1000);
    reading_row "B02" "SGL800" 1 30 (50 # 1000);
    {| row_well := Some "B03"; row_sample := Some "SGL800"; row_replicate := Some 2%Z;
       row_time_min := Some 10%Q; row_val_od600 := None |} ].

(** The dataset sits in the first assignment, not at the root. *)
Definition demo_file : assignment_file :=
  {| data_dataset := None;
     data_assignments :=
       Some [ {| assignment_dataset :=
                   Some {| dataset_rows := Some demo_rows; dataset_other_keys := true |};
                 assignment_mapping := None |} ] |}.

(** A listing given by the mapping of the first assignment. *)
Definition demo_mapped_file : assignment_file :=
  {| data_dataset := Some {| dataset_rows := Some demo_rows; dataset_other_keys := false |};
     data_assignments :=
       Some [ {| assignment_dataset := None;
                 assignment_mapping :=
                   Some {| mapping_samples :=
                             Some [ {| sample_name := Some "SGL800";
                                       sample_wells := Some ["B03"; "B02"; "B03"] |} ] |} |} ] |}.

Definition curve_point (x y : Q) : point := {| p_x := Some x; p_y := Some y |}.

(** A sample with two variants of its curve. *)
Definition demo_entry : sample_object :=
  {| s_sample := Some "SGL800";
     s_history :=
       Some [ {| h_label := Some "raw";
                 h_points := Some [curve_point 0 (2 # 1); curve_point 1 (1 # 2)] |};
              {| h_label := Some "smoothed";
                 h_points := Some [curve_point 0 2; curve_point 1 (5 # 2); curve_point 2 3;
                                   curve_point 3 4; curve_point 4 5] |} ];
     s_wells := Some [ {| w_well := Some "B02"; w_replicate := Some 1%Z |};
                       {| w_well := Some "B03"; w_replicate := None |} ] |}.

Definition demo_payload : payload_object :=
  {| payload_samples :=
       Some [ {| s_sample := Some "WT"; s_history := None; s_wells := None |};
              demo_entry;
              {| s_sample := None; s_history := None; s_wells := None |};
              {| s_sample := Some "SGL800"; s_history := None; s_wells := None |} ] |}.

End PayloadSamples.

(** * Facts about the primitives *)

Module PyFacts.

Lemma bind_ok {A B} (m : result A) (k : A -> result B) (b : B) :
  bind m k = Ok b -> exists a, m = Ok a /\ k a = Ok b.
Proof.
  destruct m as [a | e]; simpl; intros H; [eauto | discriminate].
Qed.

Ltac inv_bind H :=
  let x := fresh "x" in
  let Hx := fresh "Hx" in
  apply bind_ok in H; destruct H as (x & Hx & H).

Lemma getitem_lt {A} (l : list A) (i : nat) (d : A) :
  i < length l -> getitem l i = Ok (nth i l d).
Proof.
  intros H. unfold getitem.
  rewrite (nth_error_nth' l d H). reflexivity.
Qed.

Lemma getitem_ok {A} (l : list A) (i : nat) (a d : A) :
  getitem l i = Ok a -> i < length l /\ nth i l d = a.
Proof.
  unfold getitem. destruct (nth_error l i) eqn:E; intros H; inversion H; subst.
  split.
  - apply nth_error_Some. congruence.
  - apply nth_error_nth. exact E.
Qed.

Lemma mapM_getitem {A} (l : list A) (d : A) (idxs : list nat) :
  Forall (fun i => i < length l) idxs ->
  mapM (getitem l) idxs = Ok (map (fun i => nth i l d) idxs).
Proof.
  induction 1 as [| i r Hi _ IH]; simpl; [reflexivity |].
  rewrite (getitem_lt l i d Hi). simpl. rewrite IH. reflexivity.
Qed.

Lemma mapM_getitem_ok {A} (l : list A) (d : A) (idxs : list nat) (vs : list A) :
  mapM (getitem l) idxs = Ok vs ->
  Forall (fun i => i < length l) idxs /\ vs = map (fun i => nth i l d) idxs.
Proof.
  revert vs. induction idxs as [| i r IH]; simpl; intros vs H.
  - inversion H. split; constructor.
  - inv_bind H. inv_bind H. inversion H; subst.
    apply (getitem_ok l i x d) in Hx. destruct Hx as [Hlt Hn].
    destruct (IH _ Hx0) as [Hall Hmap]. subst. split; [constructor; assumption | reflexivity].
Qed.

Lemma mapM_length {A B} (f : A -> result B) (l : list A) (r : list B) :
  mapM f l = Ok r -> length r = length l.
Proof.
  revert r. induction l as [| a l IH]; simpl; intros r H.
  - inversion H. reflexivity.
  - inv_bind H. inv_bind H. inversion H; subst. simpl. f_equal. eauto.
Qed.

(** When every test succeeds with the value of a pure test, [filterM] is
    [filter]. *)
Lemma filterM_pure {A} (p : A -> result bool) (q : A -> bool) (l : list A) :
  Forall (fun x => p x = Ok (q x)) l -> filterM p l = Ok (filter q l).
Proof.
  induction 1 as [| x r Hx _ IH]; simpl; [reflexivity |].
  rewrite Hx. simpl. rewrite IH. simpl. destruct (q x); reflexivity.
Qed.

Lemma filterM_ok {A} (p : A -> result bool) (q : A -> bool) (l r : list A) :
  (forall x b, p x = Ok b -> b = q x) ->
  filterM p l = Ok r ->
  r = filter q l /\ Forall (fun x => p x = Ok (q x)) l.
Proof.
  intros Hpq. revert r. induction l as [| a l IH]; simpl; intros r H.
  - inversion H. split; constructor.
  - inv_bind H. inv_bind H. inversion H; subst.
    destruct (IH _ Hx0) as [-> Hall].
    pose proof (Hpq _ _ Hx) as ->.
    split; [reflexivity | constructor; assumption].
Qed.

Lemma foldM_app {A S} (step : S -> A -> result S) (l1 l2 : list A) (s : S) :
  foldM step (l1 ++ l2) s = (s' <- foldM step l1 s ;; foldM step l2 s').
Proof.
  revert s. induction l1 as [| a l1 IH]; simpl; intros s; [reflexivity |].
  destruct (step s a); simpl; [apply IH | reflexivity].
Qed.

Lemma is_nil_true {A} (l : list A) : is_nil l = true <-> l = [].
Proof. destruct l; simpl; split; congruence. Qed.

Lemma is_nil_false {A} (l : list A) : is_nil l = false <-> l <> [].
Proof. destruct l; simpl; split; congruence. Qed.

(** *** Lists of indices *)

Lemma increasing_seq (a n : nat) : increasing (seq a n).
Proof.
  revert a. induction n as [| n IH]; intros a; simpl; constructor.
  - apply IH.
  - apply Forall_forall. intros x Hx. apply in_seq in Hx. lia.
Qed.

Lemma increasing_NoDup (l : list nat) : increasing l -> NoDup l.
Proof.
  induction 1 as [| a l _ IH Hall]; constructor; [| assumption].
  intros Hin. rewrite Forall_forall in Hall. specialize (Hall _ Hin). lia.
Qed.

Lemma increasing_filter (p : nat -> bool) (l : list nat) :
  increasing l -> increasing (filter p l).
Proof.
  induction 1 as [| a l _ IH Hall]; simpl; [constructor |].
  destruct (p a); [| assumption].
  constructor; [assumption |].
  rewrite Forall_forall in *. intros x Hx. apply filter_In in Hx. apply Hall, Hx.
Qed.

Lemma increasing_app (l1 l2 : list nat) :
  increasing l1 -> increasing l2 ->
  (forall a b, In a l1 -> In b l2 -> a < b) ->
  increasing (l1 ++ l2).
Proof.
  intros H1 H2 Hlt. induction H1 as [| a l _ IH Hall]; simpl; [assumption |].
  constructor.
  - apply IH. intros x b Hx Hb. apply Hlt; [right; assumption | assumption].
  - apply Forall_app. split; [assumption |].
    apply Forall_forall. intros b Hb. apply Hlt; [left; reflexivity | assumption].
Qed.

Lemma increasing_app_inv (l1 l2 : list nat) :
  increasing (l1 ++ l2) ->
  increasing l1 /\ increasing l2 /\ (forall a b, In a l1 -> In b l2 -> a < b).
Proof.
  induction l1 as [| x l1 IH]; simpl; intros H.
  - repeat split; [constructor | assumption | intros a b []].
  - inversion H as [| ? ? Hs Hall]; subst.
    destruct (IH Hs) as (H1 & H2 & H3).
    apply Forall_app in Hall. destruct Hall as [Ha1 Ha2].
    repeat split; [constructor; assumption | assumption |].
    intros a b [<- | Ha] Hb.
    + rewrite Forall_forall in Ha2. auto.
    + auto.
Qed.

Lemma indices_where_bounds {A} (p : A -> bool) (l : list A) (i k : nat) :
  In k (indices_where p l i) -> i <= k < i + length l.
Proof.
  revert i. induction l as [| x l IH]; simpl; intros i H; [contradiction |].
  destruct (p x).
  - destruct H as [<- | H]; [lia | apply IH in H; lia].
  - apply IH in H. lia.
Qed.

Lemma indices_where_increasing {A} (p : A -> bool) (l : list A) (i : nat) :
  increasing (indices_where p l i).
Proof.
  revert i. induction l as [| x l IH]; simpl; intros i; [constructor |].
  destruct (p x); [| apply IH].
  constructor; [apply IH |].
  apply Forall_forall. intros k Hk. apply indices_where_bounds in Hk. lia.
Qed.

Lemma indices_where_In {A} (p : A -> bool) (l : list A) (d : A) (i k : nat) :
  In k (indices_where p l i) <->
  i <= k < i + length l /\ p (nth (k - i) l d) = true.
Proof.
  revert i. induction l as [| x l IH]; simpl; intros i.
  - split; [contradiction | lia].
  - destruct (p x) eqn:E; simpl; rewrite IH; split.
    + intros [<- | [Hb Hp]].
      * rewrite Nat.sub_diag. split; [lia | assumption].
      * split; [lia |]. destruct (k - i) eqn:Ek; [lia |].
        replace n with (k - S i) by lia. assumption.
    + intros [Hb Hp]. destruct (k - i) eqn:Ek.
      * left. lia.
      * right. split; [lia |]. replace (k - S i) with n by lia. assumption.
    + intros [Hb Hp]. split; [lia |]. destruct (k - i) eqn:Ek; [lia |].
      replace n with (k - S i) by lia. assumption.
    + intros [Hb Hp]. destruct (k - i) eqn:Ek.
      * congruence.
      * split; [lia |]. replace (k - S i) with n by lia. assumption.
Qed.

Lemma indices_where_length {A} (p : A -> bool) (l : list A) (i : nat) :
  length (indices_where p l i) <= length l.
Proof.
  revert i. induction l as [| x l IH]; simpl; intros i; [lia |].
  destruct (p x); simpl; specialize (IH (S i)); lia.
Qed.

(** *** [sorted] *)

Lemma insert_nat_In (x : nat) (l : list nat) (k : nat) :
  In k (insert_nat x l) <-> k = x \/ In k l.
Proof.
  induction l as [| h r IH]; simpl.
  - intuition.
  - destruct (x <=? h); simpl; [intuition |]. rewrite IH. intuition.
Qed.

Lemma sorted_In (l : list nat) (k : nat) : In k (sorted l) <-> In k l.
Proof.
  induction l as [| x r IH]; simpl; [reflexivity |].
  rewrite insert_nat_In, IH. intuition.
Qed.

Lemma insert_nat_increasing (x : nat) (l : list nat) :
  increasing l -> ~ In x l -> increasing (insert_nat x l).
Proof.
  induction 1 as [| h r Hs IH Hall]; simpl; intros Hnin.
  - constructor; constructor.
  - destruct (x <=? h) eqn:E.
    + apply Nat.leb_le in E. assert (x <> h) by (intros ->; apply Hnin; left; reflexivity).
      constructor; [constructor; assumption |].
      constructor; [lia |].
      rewrite Forall_forall in *. intros k Hk. specialize (Hall _ Hk). lia.
    + apply Nat.leb_gt in E. constructor.
      * apply IH. tauto.
      * apply Forall_forall. intros k Hk. apply insert_nat_In in Hk.
        destruct Hk as [-> | Hk]; [assumption |].
        rewrite Forall_forall in Hall. auto.
Qed.

Lemma sorted_increasing (l : list nat) : NoDup l -> increasing (sorted l).
Proof.
  induction 1 as [| x r Hnin _ IH]; simpl; [constructor |].
  apply insert_nat_increasing; [assumption |].
  rewrite sorted_In. assumption.
Qed.

Lemma insert_nat_below (x : nat) (l : list nat) :
  Forall (fun k => x < k) l -> insert_nat x l = x :: l.
Proof.
  destruct l as [| h r]; simpl; [reflexivity |].
  intros H. inversion H; subst.
  destruct (x <=? h) eqn:E; [reflexivity |]. apply Nat.leb_gt in E. lia.
Qed.

(** Sorting an increasing list changes nothing. *)
Lemma sorted_id (l : list nat) : increasing l -> sorted l = l.
Proof.
  induction 1 as [| x r _ IH Hall]; simpl; [reflexivity |].
  rewrite IH. apply insert_nat_below. assumption.
Qed.

(** *** Sets as lists *)

Lemma mem_In (x : nat) (s : list nat) : mem x s = true <-> In x s.
Proof.
  unfold mem. rewrite existsb_exists. split.
  - intros (y & Hy & E). apply Nat.eqb_eq in E. subst. assumption.
  - intros H. exists x. split; [assumption | apply Nat.eqb_refl].
Qed.

Lemma mem_false (x : nat) (s : list nat) : mem x s = false <-> ~ In x s.
Proof.
  rewrite <- mem_In. destruct (mem x s); split; congruence.
Qed.

Lemma set_add_In (s : list nat) (x k : nat) :
  In k (set_add s x) <-> In k s \/ k = x.
Proof.
  unfold set_add. destruct (mem x s) eqn:E.
  - apply mem_In in E. split; [tauto | intros [H | ->]; assumption].
  - rewrite in_app_iff. simpl. intuition.
Qed.

Lemma set_add_NoDup (s : list nat) (x : nat) : NoDup s -> NoDup (set_add s x).
Proof.
  intros H. unfold set_add. destruct (mem x s) eqn:E; [assumption |].
  apply mem_false in E.
  apply NoDup_app; [assumption | repeat constructor; simpl; tauto |].
  intros a Ha [<- | []]. contradiction.
Qed.

Lemma fold_set_add_In (l s : list nat) (k : nat) :
  In k (fold_left set_add l s) <-> In k s \/ In k l.
Proof.
  revert s. induction l as [| x l IH]; simpl; intros s; [tauto |].
  rewrite IH, set_add_In. intuition.
Qed.

Lemma fold_set_add_NoDup (l s : list nat) :
  NoDup s -> NoDup (fold_left set_add l s).
Proof.
  revert s. induction l as [| x l IH]; simpl; intros s H; [assumption |].
  apply IH, set_add_NoDup, H.
Qed.

Lemma set_of_In (l : list nat) (k : nat) : In k (set_of l) <-> In k l.
Proof. unfold set_of. rewrite fold_set_add_In. simpl. tauto. Qed.

Lemma set_of_NoDup (l : list nat) : NoDup (set_of l).
Proof. apply fold_set_add_NoDup. constructor. Qed.

(** *** Arrays *)

Lemma upd_length {A} (l : list A) (i : nat) (v : A) : length (upd l i v) = length l.
Proof.
  revert i. induction l as [| x l IH]; intros [| i]; simpl; auto.
Qed.

Lemma nth_upd_eq {A} (l : list A) (i : nat) (v d : A) :
  i < length l -> nth i (upd l i v) d = v.
Proof.
  revert i. induction l as [| x l IH]; intros [| i]; simpl; intros H; try lia.
  - reflexivity.
  - apply IH. lia.
Qed.

Lemma nth_upd_neq {A} (l : list A) (i j : nat) (v d : A) :
  i <> j -> nth j (upd l i v) d = nth j l d.
Proof.
  revert i j. induction l as [| x l IH]; intros [| i] [| j]; simpl; intros H;
    try reflexivity; try lia.
  apply IH. lia.
Qed.

Lemma nth_repeat_lt {A} (a d : A) (n i : nat) : i < n -> nth i (repeat a n) d = a.
Proof.
  revert i. induction n as [| n IH]; intros [| i] H; simpl; try lia; [reflexivity |].
  apply IH. lia.
Qed.

(** Two strictly increasing lists with the same members are the same list. *)
Lemma increasing_ext (l1 l2 : list nat) :
  increasing l1 -> increasing l2 -> (forall x, In x l1 <-> In x l2) -> l1 = l2.
Proof.
  intros H1. revert l2. induction H1 as [| a l1 Hs1 IH Ha]; intros l2 H2 Hiff.
  - destruct l2 as [| b l2]; [reflexivity |].
    exfalso. apply (Hiff b). left. reflexivity.
  - destruct H2 as [| b l2 Hs2 Hb].
    + exfalso. apply (Hiff a). left. reflexivity.
    + rewrite Forall_forall in Ha, Hb.
      assert (a = b).
      { destruct (proj1 (Hiff a) (or_introl eq_refl)) as [E | Hin]; [auto |].
        destruct (proj2 (Hiff b) (or_introl eq_refl)) as [E | Hin']; [auto |].
        specialize (Ha _ Hin'). specialize (Hb _ Hin). lia. }
      subst b. f_equal. apply IH; [assumption |].
      intros x. split; intros Hx.
      * destruct (proj1 (Hiff x) (or_intror Hx)) as [E | Hin]; [| assumption].
        specialize (Ha _ Hx). lia.
      * destruct (proj2 (Hiff x) (or_intror Hx)) as [E | Hin]; [| assumption].
        specialize (Hb _ Hx). lia.
Qed.

Lemma increasing_nth (l : list nat) (i j : nat) :
  increasing l -> i < j -> j < length l -> nth i l 0 < nth j l 0.
Proof.
  intros H. revert i j. induction H as [| a l Hs IH Ha]; intros i j Hij Hj; simpl in Hj; [lia |].
  destruct j as [| j]; [lia |]. destruct i as [| i]; simpl.
  - rewrite Forall_forall in Ha. apply Ha. apply nth_In. lia.
  - apply IH; lia.
Qed.

Lemma increasing_map_nth (l c : list nat) :
  increasing l -> increasing c -> Forall (fun i => i < length l) c ->
  increasing (map (fun i => nth i l 0) c).
Proof.
  intros Hl Hc. induction Hc as [| a c Hs IH Ha]; intros Hlt; simpl; [constructor |].
  inversion Hlt; subst. constructor; [apply IH; assumption |].
  apply Forall_forall. intros x Hx. apply in_map_iff in Hx. destruct Hx as (i & <- & Hi).
  rewrite Forall_forall in *. apply increasing_nth; auto.
Qed.

Lemma subseq_filter {A} (p : A -> bool) (l : list A) : subseq (filter p l) l.
Proof.
  induction l as [| x l IH]; simpl; [constructor |].
  destruct (p x); constructor; assumption.
Qed.

Lemma subseq_length {A} (c l : list A) : subseq c l -> length c <= length l.
Proof. induction 1; simpl; lia. Qed.

Lemma subseq_In {A} (c l : list A) (x : A) : subseq c l -> In x c -> In x l.
Proof.
  induction 1 as [| c y l _ IH | c y l _ IH]; simpl; intros Hin; [contradiction | auto |].
  destruct Hin; auto.
Qed.

Lemma subseq_increasing (c l : list nat) : subseq c l -> increasing l -> increasing c.
Proof.
  induction 1 as [| c y l Hsub IH | c y l Hsub IH]; intros Hl;
    [constructor | |]; inversion Hl; subst; [auto |].
  constructor; [apply IH; assumption |].
  rewrite Forall_forall in *. intros z Hz. eauto using subseq_In.
Qed.

(** *** Extremes and medians of floats *)

Lemma Qlt_bool_true (a b : Q) : Qlt_bool a b = true <-> (a < b)%Q.
Proof.
  unfold Qlt_bool. rewrite negb_true_iff. split.
  - intros H. apply Qnot_le_lt. intros Hle. apply Qle_bool_iff in Hle. congruence.
  - intros H. destruct (Qle_bool b a) eqn:E; [| reflexivity].
    apply Qle_bool_iff in E. exfalso. apply (Qlt_not_le _ _ H E).
Qed.

Lemma Qlt_bool_false (a b : Q) : Qlt_bool a b = false <-> (b <= a)%Q.
Proof.
  unfold Qlt_bool. rewrite negb_false_iff. apply Qle_bool_iff.
Qed.



Lemma insert_Q_length (x : Q) (l : list Q) : length (insert_Q x l) = S (length l).
Proof.
  induction l as [| h r IH]; simpl; [reflexivity |].
  destruct (Qle_bool x h); simpl; [reflexivity | rewrite IH; reflexivity].
Qed.

Lemma sorted_Q_length (l : list Q) : length (sorted_Q l) = length l.
Proof.
  induction l as [| x r IH]; simpl; [reflexivity |].
  rewrite insert_Q_length, IH. reflexivity.
Qed.

Lemma median_total (l : list Q) : l <> [] -> exists v, median l = Ok v.
Proof.
  intros Hne. unfold median.
  pose proof (sorted_Q_length l) as Hlen.
  set (data := sorted_Q l) in *.
  assert (Hpos : 0 < length data) by (rewrite Hlen; destruct l; [congruence | simpl; lia]).
  destruct (length data =? 0) eqn:E; [apply Nat.eqb_eq in E; lia |].
  assert (Hhalf : length data / 2 < length data) by (apply Nat.div_lt; lia).
  destruct (Nat.odd (length data)).
  - rewrite (getitem_lt data _ 0%Q Hhalf). eauto.
  - rewrite (getitem_lt data (length data / 2 - 1) 0%Q) by lia. cbn [bind].
    rewrite (getitem_lt data _ 0%Q Hhalf). cbn [bind]. eauto.
Qed.

Lemma median_nonempty (l : list Q) (v : Q) : median l = Ok v -> l <> [].
Proof. intros H ->. discriminate. Qed.



End PyFacts.

(** * The baseline engine *)

Module BaselineFacts.

Import PyFacts Baseline.

Tactic Notation "inv_bind" hyp(H) "as" ident(x) ident(Hx) :=
  apply bind_ok in H; destruct H as (x & Hx & H).

Lemma indices_where_count {A} (p : A -> bool) (l : list A) (i : nat) :
  length (indices_where p l i) = length (filter p l).
Proof.
  revert i. induction l as [| x l IH]; simpl; intros i; [reflexivity |].
  destruct (p x); simpl; rewrite IH; reflexivity.
Qed.

Lemma pre_indices_count (t : list Q) (t_pre : Q) :
  length (pre_indices t t_pre) = count_pre t t_pre.
Proof. apply indices_where_count. Qed.

Lemma select_baseline_too_few (t y : list Q) (t_pre bin_width tol : Q) (mc : Z) :
  (Z.of_nat (count_pre t t_pre) < mc)%Z ->
  select_baseline t y t_pre bin_width tol mc = Ok (Return ([], None, [])).
Proof.
  intros H. unfold select_baseline.
  fold (pre_indices t t_pre). rewrite pre_indices_count.
  apply Z.ltb_lt in H. rewrite H. reflexivity.
Qed.

(** *** Extremes *)

Lemma max_by_from_first {A} (key : A -> nat) (l : list A) (best : A) :
  exists l1 l2,
    best :: l = l1 ++ max_by_from key best l :: l2 /\
    (forall x, In x l1 -> key x < key (max_by_from key best l)) /\
    (forall x, In x l2 -> key x <= key (max_by_from key best l)).
Proof.
  revert best. induction l as [| x r IH]; intros best; simpl.
  - exists [], []. repeat split; simpl; intros ? [].
  - destruct (key best <? key x) eqn:E.
    + apply Nat.ltb_lt in E.
      destruct (IH x) as (l1 & l2 & Heq & H1 & H2).
      set (m := max_by_from key x r) in *. clearbody m.
      exists (best :: l1), l2. split; [simpl; rewrite <- Heq; reflexivity |].
      split; [| assumption].
      intros z [<- | Hz]; [| auto].
      destruct l1 as [| h l1]; simpl in Heq; injection Heq as Ea Eb.
      * subst. assumption.
      * subst. specialize (H1 h (or_introl eq_refl)). lia.
    + apply Nat.ltb_ge in E.
      destruct (IH best) as (l1 & l2 & Heq & H1 & H2).
      set (m := max_by_from key best r) in *. clearbody m.
      destruct l1 as [| h l1]; simpl in Heq; injection Heq as Ea Eb.
      * subst. exists [], (x :: l2). split; [reflexivity |].
        split; [intros ? [] |].
        intros z [<- | Hz]; [assumption | auto].
      * subst. exists (h :: x :: l1), l2. split; [reflexivity |].
        split; [| assumption].
        intros z [<- | [<- | Hz]].
        -- apply H1. left. reflexivity.
        -- specialize (H1 h (or_introl eq_refl)). lia.
        -- apply H1. right. assumption.
Qed.

Lemma py_max_by_first {A} (key : A -> nat) (l : list A) (m : A) :
  py_max_by key l = Ok m ->
  exists l1 l2,
    l = l1 ++ m :: l2 /\
    (forall x, In x l1 -> key x < key m) /\
    (forall x, In x l2 -> key x <= key m).
Proof.
  destruct l as [| x r]; simpl; intros H; inversion H; subst.
  apply max_by_from_first.
Qed.

Lemma py_max_by_In {A} (key : A -> nat) (l : list A) (m : A) :
  py_max_by key l = Ok m -> In m l.
Proof.
  intros H. destruct (py_max_by_first _ _ _ H) as (l1 & l2 & -> & _).
  apply in_elt.
Qed.

Lemma min_nat_from_increasing (x : nat) (r : list nat) :
  increasing (x :: r) -> min_nat_from x r = x.
Proof.
  intros H. inversion H as [| ? ? Hs Hall]; subst. clear H.
  induction r as [| h r IH]; simpl; [reflexivity |].
  inversion Hall; subst. inversion Hs; subst.
  destruct (h <? x) eqn:E; [apply Nat.ltb_lt in E; lia |].
  apply IH; assumption.
Qed.

Lemma py_min_nat_increasing (l : list nat) :
  increasing l -> l <> [] -> py_min_nat l = Ok (hd 0 l).
Proof.
  destruct l as [| x r]; intros H Hne; [congruence |].
  simpl. rewrite min_nat_from_increasing by assumption. reflexivity.
Qed.

(** *** Runs of adjacent candidates *)

Lemma last_seq (a n d : nat) : last (seq a (S n)) d = a + n.
Proof.
  rewrite seq_S, last_last. reflexivity.
Qed.

Lemma consecutive_block_increasing (l : list nat) :
  consecutive_block l -> increasing l.
Proof. intros (a & n & ->). apply increasing_seq. Qed.

Lemma run_step_invariant (rest : list nat) (runs : list (list nat)) (cur : list nat) :
  Forall good_run runs -> good_run cur ->
  Forall good_run (fst (fold_left run_step rest (runs, cur))) /\
  good_run (snd (fold_left run_step rest (runs, cur))) /\
  concat (fst (fold_left run_step rest (runs, cur)))
    ++ snd (fold_left run_step rest (runs, cur))
  = concat runs ++ cur ++ rest.
Proof.
  revert runs cur. induction rest as [| idx rest IH]; intros runs cur Hruns Hcur; simpl.
  - rewrite app_nil_r. auto.
  - destruct (idx =? last cur 0 + 1) eqn:E.
    + apply Nat.eqb_eq in E.
      assert (Hnew : good_run (cur ++ [idx])).
      { destruct Hcur as [Hne (a & n & ->)]. split; [destruct (seq a n); discriminate |].
        destruct n as [| n]; [simpl in Hne; congruence |].
        rewrite last_seq in E. exists a, (S (S n)).
        rewrite (seq_S (S n) a). f_equal. f_equal. lia. }
      destruct (IH runs (cur ++ [idx]) Hruns Hnew) as (H1 & H2 & H3).
      repeat split; try assumption; try apply H2.
      rewrite H3, <- app_assoc. reflexivity.
    + assert (Hnew : good_run [idx]) by (split; [discriminate | exists idx, 1; reflexivity]).
      assert (Hruns' : Forall good_run (runs ++ [cur])).
      { apply Forall_app. split; [assumption | constructor; [assumption | constructor]]. }
      destruct (IH (runs ++ [cur]) [idx] Hruns' Hnew) as (H1 & H2 & H3).
      repeat split; try assumption; try apply H2.
      rewrite H3, concat_app. simpl. rewrite app_nil_r, <- app_assoc. reflexivity.
Qed.

(** Every run is a non-empty block of consecutive indices, and the runs put
    end to end are the candidates. *)
Lemma split_runs_spec (c0 : nat) (rest : list nat) :
  Forall good_run (split_runs c0 rest) /\ concat (split_runs c0 rest) = c0 :: rest.
Proof.
  unfold split_runs.
  assert (H0 : good_run [c0]) by (split; [discriminate | exists c0, 1; reflexivity]).
  destruct (run_step_invariant rest [] [c0] (Forall_nil _) H0) as (H1 & H2 & H3).
  destruct (fold_left run_step rest ([], [c0])) as [runs cur]. simpl in *.
  split.
  - apply Forall_app. split; [assumption | constructor; [assumption | constructor]].
  - rewrite concat_app. simpl. rewrite app_nil_r. assumption.
Qed.

(** *** The histogram *)

Lemma bins_append_fresh (k : Z) (i : nat) (d : list (Z * list nat)) :
  ~ In k (map fst d) -> bins_append k i d = d ++ [(k, [i])].
Proof.
  induction d as [| [k' v] r IH]; simpl; intros H; [reflexivity |].
  destruct (k' =? k)%Z eqn:E.
  - apply Z.eqb_eq in E. tauto.
  - rewrite IH by tauto. reflexivity.
Qed.

Lemma bins_append_present (k : Z) (i : nat) (d1 d2 : list (Z * list nat)) (ms : list nat) :
  ~ In k (map fst d1) ->
  bins_append k i (d1 ++ (k, ms) :: d2) = d1 ++ (k, ms ++ [i]) :: d2.
Proof.
  induction d1 as [| [k' v] r IH]; simpl; intros H.
  - rewrite Z.eqb_refl. reflexivity.
  - destruct (k' =? k)%Z eqn:E.
    + apply Z.eqb_eq in E. tauto.
    + rewrite IH by tauto. reflexivity.
Qed.

Lemma bin_members_app (bin : nat -> Z) (l : list nat) (x : nat) (k : Z) :
  bin_members bin (l ++ [x]) k =
  bin_members bin l k ++ (if (bin x =? k)%Z then [x] else []).
Proof. unfold bin_members. rewrite filter_app. reflexivity. Qed.

Lemma hd_app_nonempty (l r : list nat) (d : nat) : l <> [] -> hd d (l ++ r) = hd d l.
Proof. destruct l; [congruence | reflexivity]. Qed.

Lemma hd_In (l : list nat) (d : nat) : l <> [] -> In (hd d l) l.
Proof. destruct l; [congruence | left; reflexivity]. Qed.

Lemma bins_ok_step (bin : nat -> Z) (l : list nat) (x : nat) (g : list (Z * list nat)) :
  (forall i, In i l -> i < x) ->
  bins_ok bin l g ->
  bins_ok bin (l ++ [x]) (bins_append (bin x) x g).
Proof.
  intros Hlt [Hnd Hmem Hcov Hord].
  destruct (in_dec Z.eq_dec (bin x) (map fst g)) as [Hin | Hnin].
  - (* the bin exists already *)
    apply in_map_iff in Hin. destruct Hin as ([k ms] & Hk & Hin). simpl in Hk. subst k.
    apply in_split in Hin. destruct Hin as (d1 & d2 & ->).
    assert (Hnin1 : ~ In (bin x) (map fst d1)).
    { rewrite map_app in Hnd. simpl in Hnd. apply NoDup_remove_2 in Hnd.
      rewrite in_app_iff in Hnd. tauto. }
    rewrite bins_append_present by assumption.
    assert (Hother : forall k' ms', In (k', ms') (d1 ++ d2) -> k' <> bin x).
    { intros k' ms' Hin' ->. rewrite map_app in Hnd. simpl in Hnd.
      apply NoDup_remove_2 in Hnd. apply Hnd. rewrite <- map_app.
      apply in_map_iff. exists (bin x, ms'). auto. }
    destruct (Hmem (bin x) ms) as [Hms Hne]; [apply in_elt |].
    assert (Hkeys : map fst (d1 ++ (bin x, ms ++ [x]) :: d2)
                    = map fst (d1 ++ (bin x, ms) :: d2))
      by (rewrite !map_app; reflexivity).
    constructor.
    + rewrite Hkeys. assumption.
    + intros k' ms' Hin'. rewrite bin_members_app.
      apply in_app_iff in Hin'. simpl in Hin'.
      destruct Hin' as [Hin' | [Heq | Hin']].
      * assert (k' <> bin x) by (apply (Hother k' ms'); apply in_app_iff; auto).
        destruct (bin x =? k')%Z eqn:E; [apply Z.eqb_eq in E; congruence |].
        rewrite app_nil_r. apply Hmem. apply in_app_iff. auto.
      * inversion Heq; subst. rewrite Z.eqb_refl.
        split; [reflexivity | destruct (bin_members bin l (bin x)); discriminate].
      * assert (k' <> bin x) by (apply (Hother k' ms'); apply in_app_iff; auto).
        destruct (bin x =? k')%Z eqn:E; [apply Z.eqb_eq in E; congruence |].
        rewrite app_nil_r. apply Hmem. apply in_app_iff. simpl. auto.
    + intros i Hi. rewrite Hkeys.
      apply in_app_iff in Hi. destruct Hi as [Hi | [<- | []]].
      * apply Hcov. assumption.
      * apply in_map_iff. exists (bin x, ms). split; [reflexivity | apply in_elt].
    + intros g1 g2 k ms0 Heq k' ms' Hin'.
      (* heads are unchanged by the append *)
      assert (Hsame : map (fun kv : Z * list nat => (fst kv, hd 0 (snd kv)))
                          (d1 ++ (bin x, ms ++ [x]) :: d2)
                    = map (fun kv : Z * list nat => (fst kv, hd 0 (snd kv)))
                          (d1 ++ (bin x, ms) :: d2)).
      { rewrite !map_app. simpl. rewrite hd_app_nonempty by assumption. reflexivity. }
      rewrite Heq in Hsame. rewrite map_app in Hsame. simpl in Hsame.
      symmetry in Hsame. apply map_eq_app in Hsame.
      destruct Hsame as (h1 & h2 & Hsplit & Hm1 & Hm2).
      destruct h2 as [| [k0 ms00] h2]; [discriminate |].
      simpl in Hm2. injection Hm2 as Hk0 Hhd0 Hm2.
      apply (in_map (fun kv : Z * list nat => (fst kv, hd 0 (snd kv)))) in Hin'.
      rewrite <- Hm1 in Hin'. apply in_map_iff in Hin'.
      destruct Hin' as ([k1 ms1] & Hk1 & Hin1). simpl in Hk1. injection Hk1 as Hk1 Hhd1.
      rewrite <- Hhd0, <- Hhd1.
      apply (Hord h1 h2 k0 ms00 Hsplit k1 ms1 Hin1).
  - (* a new bin *)
    rewrite bins_append_fresh by assumption.
    constructor.
    + rewrite map_app. simpl. apply NoDup_app; [assumption | repeat constructor; simpl; tauto |].
      intros a Ha [<- | []]. contradiction.
    + intros k' ms' Hin'. rewrite bin_members_app.
      apply in_app_iff in Hin'. destruct Hin' as [Hin' | [Heq | []]].
      * assert (k' <> bin x).
        { intros ->. apply Hnin. apply in_map_iff. exists (bin x, ms'). auto. }
        destruct (bin x =? k')%Z eqn:E; [apply Z.eqb_eq in E; congruence |].
        rewrite app_nil_r. apply Hmem. assumption.
      * inversion Heq; subst. rewrite Z.eqb_refl.
        assert (Hnone : bin_members bin l (bin x) = []).
        { unfold bin_members. destruct (filter _ l) as [| i r] eqn:Ef; [reflexivity |].
          exfalso. assert (Hi : In i (filter (fun i => (bin i =? bin x)%Z) l))
            by (rewrite Ef; left; reflexivity).
          apply filter_In in Hi. destruct Hi as [Hi Hb]. apply Z.eqb_eq in Hb.
          apply Hnin. rewrite <- Hb. apply Hcov. assumption. }
        rewrite Hnone. split; [reflexivity | discriminate].
    + intros i Hi. rewrite map_app, in_app_iff. simpl.
      apply in_app_iff in Hi. destruct Hi as [Hi | [<- | []]]; [left; auto | right; auto].
    + intros g1 g2 k ms Heq k' ms' Hin'.
      destruct g2 as [| kv g2].
      * apply app_inj_tail in Heq. destruct Heq as [<- Heq]. inversion Heq; subst.
        simpl. destruct (Hmem _ _ Hin') as [-> Hne].
        apply Hlt. apply (hd_In _ 0) in Hne. unfold bin_members in Hne at 2.
        apply filter_In in Hne. tauto.
      * assert (Hg : g = g1 ++ (k, ms) :: removelast (kv :: g2)).
        { apply (f_equal (@removelast _)) in Heq.
          rewrite removelast_last in Heq. rewrite Heq.
          rewrite removelast_app by discriminate.
          change ((k, ms) :: kv :: g2) with ([(k, ms)] ++ kv :: g2).
          rewrite removelast_app by discriminate. reflexivity. }
        apply (Hord _ _ _ _ Hg k' ms' Hin').
Qed.

Lemma group_bins_snoc (bin : nat -> Z) (l : list nat) (x : nat) (d : list (Z * list nat)) :
  group_bins bin (l ++ [x]) d = bins_append (bin x) x (group_bins bin l d).
Proof. unfold group_bins. rewrite fold_left_app. reflexivity. Qed.

Lemma group_bins_ok (bin : nat -> Z) (l : list nat) :
  increasing l -> bins_ok bin l (group_bins bin l []).
Proof.
  induction l as [| x l IH] using rev_ind; intros Hinc.
  - constructor; simpl.
    + constructor.
    + intros ? ? [].
    + intros ? [].
    + intros g1 g2 ? ? Heq. destruct g1; discriminate.
  - apply increasing_app_inv in Hinc. destruct Hinc as (H1 & _ & H3).
    rewrite group_bins_snoc. apply bins_ok_step.
    + intros i Hi. apply H3; [assumption | left; reflexivity].
    + apply IH. assumption.
Qed.

Lemma group_bins_nonempty (bin : nat -> Z) (l : list nat) :
  l <> [] -> group_bins bin l [] <> [].
Proof.
  destruct l as [| x l] using rev_ind; [congruence |].
  intros _. rewrite group_bins_snoc.
  destruct (group_bins bin l []) as [| [k v] r]; simpl; [discriminate |].
  destruct (k =? bin x)%Z; discriminate.
Qed.

(** *** [select_baseline] read backwards *)

Lemma bin_step_inv (y : list Q) (y_min bw : Q) (d d' : list (Z * list nat)) (i : nat) :
  bin_step y y_min bw d i = Ok d' ->
  i < length y /\ Qeq_bool bw 0 = false /\
  d' = bins_append (code_bin y y_min bw i) i d.
Proof.
  unfold bin_step. intros H.
  inv_bind H as val Hval. inv_bind H as q Hq.
  apply (getitem_ok y i val 0%Q) in Hval. destruct Hval as [Hlt <-].
  unfold qdiv in Hq. destruct (Qeq_bool bw 0); [discriminate |].
  inversion Hq; subst. inversion H; subst. auto.
Qed.

Lemma bin_step_ok (y : list Q) (y_min bw : Q) (d : list (Z * list nat)) (i : nat) :
  i < length y -> Qeq_bool bw 0 = false ->
  bin_step y y_min bw d i = Ok (bins_append (code_bin y y_min bw i) i d).
Proof.
  intros Hlt Hbw. unfold bin_step.
  rewrite (getitem_lt y i 0%Q Hlt). simpl.
  unfold qdiv. rewrite Hbw. reflexivity.
Qed.

Lemma foldM_bin_step_inv (y : list Q) (y_min bw : Q) (l : list nat)
  (d d' : list (Z * list nat)) :
  foldM (bin_step y y_min bw) l d = Ok d' ->
  d' = group_bins (code_bin y y_min bw) l d /\ (l <> [] -> Qeq_bool bw 0 = false).
Proof.
  revert d. induction l as [| i l IH]; simpl; intros d H.
  - inversion H. split; [reflexivity | congruence].
  - inv_bind H as d1 Hd1. apply bin_step_inv in Hd1. destruct Hd1 as (_ & Hbw & ->).
    destruct (IH _ H) as [-> _]. split; [reflexivity | auto].
Qed.

Lemma foldM_bin_step_ok (y : list Q) (y_min bw : Q) (l : list nat) (d : list (Z * list nat)) :
  Forall (fun i => i < length y) l -> Qeq_bool bw 0 = false ->
  foldM (bin_step y y_min bw) l d = Ok (group_bins (code_bin y y_min bw) l d).
Proof.
  intros Hall Hbw. revert d. induction Hall as [| i l Hi _ IH]; simpl; intros d; [reflexivity |].
  rewrite bin_step_ok by assumption. simpl. apply IH.
Qed.

Lemma near_filter (y : list Q) (lvl tol : Q) (pre near : list nat) :
  filterM (fun i => yi <- getitem y i ;; Ok (Qle_bool (Qabs (yi - lvl)) tol)) pre = Ok near ->
  near = filter (fun i => Qle_bool (Qabs (nth i y 0%Q - lvl)) tol) pre.
Proof.
  intros H. eapply filterM_ok in H; [apply H |].
  intros i b Hb. cbv beta in Hb. inv_bind Hb as yi Hyi.
  apply (getitem_ok y i yi 0%Q) in Hyi. destruct Hyi as [_ <-]. congruence.
Qed.

Lemma excluded_filter (y : list Q) (lvl tol : Q) (start : nat) (pre ex : list nat) :
  filterM (fun idx => if idx <? start
                      then yi <- getitem y idx ;; Ok (Qlt_bool tol (Qabs (yi - lvl)))
                      else Ok false) pre = Ok ex ->
  ex = filter (fun i => (i <? start) && Qlt_bool tol (Qabs (nth i y 0%Q - lvl))) pre.
Proof.
  intros H.
  apply (filterM_ok _ (fun i => (i <? start) && Qlt_bool tol (Qabs (nth i y 0%Q - lvl)))) in H;
    [apply H |].
  intros i b Hb. cbv beta in Hb. destruct (i <? start); cbv [andb].
  - inv_bind Hb as yi Hyi.
    apply (getitem_ok y i yi 0%Q) in Hyi. destruct Hyi as [_ <-]. congruence.
  - congruence.
Qed.

Lemma candidates_increasing (t y : list Q) (t_pre lvl tol : Q) :
  increasing (candidates t y t_pre lvl tol).
Proof. apply increasing_filter, indices_where_increasing. Qed.

Lemma candidate_runs_good (cands : list nat) :
  Forall good_run (candidate_runs cands) /\ concat (candidate_runs cands) = cands.
Proof.
  destruct cands as [| c0 rest]; simpl; [split; constructor | apply split_runs_spec].
Qed.

Lemma chosen_baseline_of_runs (mc : Z) (c0 : nat) (rest b : list nat) :
  (if is_nil (filter (fun run => (mc <=? Z.of_nat (length run))%Z) (split_runs c0 rest))
   then Ok (c0 :: rest)
   else py_max_by (@length nat)
          (filter (fun run => (mc <=? Z.of_nat (length run))%Z) (split_runs c0 rest)))
  = Ok b ->
  chosen_baseline mc (c0 :: rest) b.
Proof.
  set (runs := split_runs c0 rest).
  set (valid := filter _ runs).
  destruct (is_nil valid) eqn:E; intros H.
  - right. inversion H; subst. split; [| reflexivity].
    apply is_nil_true in E. apply Forall_forall. intros r Hr.
    destruct (mc <=? Z.of_nat (length r))%Z eqn:El; [| apply Z.leb_gt; assumption].
    exfalso. assert (Hin : In r valid) by (apply filter_In; auto).
    rewrite E in Hin. contradiction.
  - left. destruct (py_max_by_first _ _ _ H) as (l1 & l2 & Heq & H1 & H2).
    assert (Hb : In b valid) by (rewrite Heq; apply in_elt).
    apply filter_In in Hb. destruct Hb as [Hb Hmc]. apply Z.leb_le in Hmc.
    split; [exact Hb | split; [exact Hmc |]].
    intros r Hr. destruct (mc <=? Z.of_nat (length r))%Z eqn:El.
    + assert (Hin : In r valid) by (apply filter_In; auto).
      rewrite Heq in Hin. apply in_app_iff in Hin. destruct Hin as [Hin | [<- | Hin]].
      * specialize (H1 _ Hin). lia.
      * lia.
      * apply H2. assumption.
    + apply Z.leb_gt in El. lia.
Qed.

(** A chosen baseline is not empty and increases strictly; outside the
    fallback it is one block of consecutive indices. *)
Lemma chosen_baseline_shape (mc : Z) (cands b : list nat) :
  increasing cands -> cands <> [] -> chosen_baseline mc cands b ->
  b <> [] /\ increasing b.
Proof.
  intros Hinc Hne [(Hin & _ & _) | (_ & ->)]; [| auto].
  destruct (candidate_runs_good cands) as [Hgood _].
  rewrite Forall_forall in Hgood. destruct (Hgood _ Hin) as [Hb Hblock].
  split; [assumption | apply consecutive_block_increasing; assumption].
Qed.

Lemma select_baseline_inv (t y : list Q) (t_pre bw tol : Q) (mc : Z) (st : stage) :
  select_baseline t y t_pre bw tol mc = Ok st ->
  (st = Return ([], None, []) /\ (Z.of_nat (count_pre t t_pre) < mc)%Z)
  \/
  (exists lvl,
     (mc <= Z.of_nat (count_pre t t_pre))%Z /\
     pre_indices t t_pre <> [] /\
     Forall (fun i => i < length y) (pre_indices t t_pre) /\
     Qeq_bool bw 0 = false /\
     histogram_level y (pre_indices t t_pre) bw lvl /\
     ((candidates t y t_pre lvl tol = [] /\ st = Return ([], Some lvl, []))
      \/
      (exists b,
         candidates t y t_pre lvl tol <> [] /\
         chosen_baseline mc (candidates t y t_pre lvl tol) b /\
         st = Continue b lvl (pre_excluded t y t_pre lvl tol (hd 0 b))))).
Proof.
  unfold select_baseline. fold (pre_indices t t_pre).
  rewrite pre_indices_count.
  set (pre := pre_indices t t_pre).
  destruct (Z.of_nat (count_pre t t_pre) <? mc)%Z eqn:Hcount; intros H.
  { left. inversion H. split; [reflexivity | apply Z.ltb_lt; assumption]. }
  right. apply Z.ltb_ge in Hcount.
  inv_bind H as y_pre Hy_pre.
  apply (mapM_getitem_ok y 0%Q) in Hy_pre. destruct Hy_pre as [Hpre_lt ->].
  inv_bind H as y_min Hy_min.
  assert (Hpre_ne : pre <> []).
  { intros E. rewrite E in Hy_min. discriminate. }
  inv_bind H as bins Hbins.
  apply foldM_bin_step_inv in Hbins. destruct Hbins as [-> Hbw]. specialize (Hbw Hpre_ne).
  destruct (is_nil _) eqn:Hnil in H.
  { apply is_nil_true in Hnil. exfalso. revert Hnil. apply group_bins_nonempty, Hpre_ne. }
  inv_bind H as best Hbest. destruct best as [k members]. cbn [snd] in H.
  inv_bind H as baseline_values Hvalues.
  apply (mapM_getitem_ok y 0%Q) in Hvalues. destruct Hvalues as [_ ->].
  inv_bind H as lvl Hlvl.
  inv_bind H as near Hnear. apply near_filter in Hnear.
  change (near = candidates t y t_pre lvl tol) in Hnear. rewrite Hnear in H. clear Hnear.
  rewrite (sorted_id _ (candidates_increasing t y t_pre lvl tol)) in H.
  exists lvl. repeat (split; [assumption |]).
  split; [exists y_min, k, members; auto |].
  destruct (candidates t y t_pre lvl tol) as [| c0 rest] eqn:Hc.
  { left. inversion H. auto. }
  right.
  inv_bind H as b Hb. apply chosen_baseline_of_runs in Hb.
  assert (Hshape : b <> [] /\ increasing b).
  { apply (chosen_baseline_shape mc (c0 :: rest)); [| discriminate | assumption].
    rewrite <- Hc. apply candidates_increasing. }
  destruct Hshape as [Hb_ne Hb_inc].
  apply is_nil_false in Hb_ne as Hb_nil. rewrite Hb_nil in H.
  inv_bind H as ex Hex. inv_bind Hex as earliest Hearliest.
  rewrite (py_min_nat_increasing b Hb_inc Hb_ne) in Hearliest.
  inversion Hearliest; subst earliest.
  apply excluded_filter in Hex. fold (pre_indices t t_pre) in Hex.
  exists b. split; [discriminate | split; [assumption |]].
  inversion H. unfold pre_excluded. rewrite Hex. reflexivity.
Qed.

(** *** The subsequence program *)

Section Lnds.

Variable vals : list Q.
Variable eps : Q.

Let m := length vals.
Let R := rel vals eps.

Lemma dp_inner_step (j i : nat) (dp0 : list nat) (prev0 : list Z)
  (dp : list nat) (prev : list Z) :
  i < j -> j < m ->
  inner_inv R m j i dp0 prev0 dp prev ->
  inner_inv R m j (S i) dp0 prev0
            (fst (dp_inner vals eps j (dp, prev) i))
            (snd (dp_inner vals eps j (dp, prev) i)).
Proof.
  intros Hij Hjm [Hl1 Hl2 Hsame Hlink Hupper].
  unfold dp_inner. fold (rel vals eps i j). fold R.
  destruct (R i j) eqn:Hr; simpl.
  - destruct (nth j dp 0 <? nth i dp 0 + 1) eqn:Hlt; simpl.
    + apply Nat.ltb_lt in Hlt. constructor.
      * rewrite upd_length. assumption.
      * rewrite upd_length. assumption.
      * intros x Hx. rewrite !nth_upd_neq by congruence. apply Hsame. assumption.
      * right. exists i. rewrite !nth_upd_eq by lia.
        rewrite nth_upd_neq by lia. repeat split; auto.
      * intros i' Hi' Hri'. rewrite nth_upd_eq by lia. rewrite nth_upd_neq by lia.
        destruct (Nat.eq_dec i' i) as [-> | Hne]; [lia |].
        assert (i' < i) by lia. specialize (Hupper i' H Hri'). lia.
    + apply Nat.ltb_ge in Hlt. constructor; auto.
      * destruct Hlink as [Hl | (p & Hp1 & Hp2 & Hp3 & Hp4)]; [left; assumption |].
        right. exists p. repeat split; auto.
      * intros i' Hi' Hri'.
        destruct (Nat.eq_dec i' i) as [-> | Hne]; [lia |].
        apply Hupper; [lia | assumption].
  - constructor; auto.
    + destruct Hlink as [Hl | (p & Hp1 & Hp2 & Hp3 & Hp4)]; [left; assumption |].
      right. exists p. repeat split; auto.
    + intros i' Hi' Hri'.
      destruct (Nat.eq_dec i' i) as [-> | Hne]; [congruence |].
      apply Hupper; [lia | assumption].
Qed.

Lemma dp_inner_loop (j i : nat) (dp0 : list nat) (prev0 : list Z) :
  i <= j -> j < m ->
  length dp0 = m -> length prev0 = m ->
  nth j dp0 0 = 1 -> nth j prev0 (-1)%Z = (-1)%Z ->
  inner_inv R m j i dp0 prev0
            (fst (fold_left (dp_inner vals eps j) (seq 0 i) (dp0, prev0)))
            (snd (fold_left (dp_inner vals eps j) (seq 0 i) (dp0, prev0))).
Proof.
  intros Hij Hjm Hl1 Hl2 Hd Hp. induction i as [| i IH].
  - simpl. constructor; auto. intros i' Hi'. lia.
  - rewrite seq_S, fold_left_app. simpl.
    specialize (IH ltac:(lia)).
    destruct (fold_left (dp_inner vals eps j) (seq 0 i) (dp0, prev0)) as [dp prev].
    simpl in IH. apply dp_inner_step; [lia | assumption | assumption].
Qed.

Lemma dp_outer_step (j : nat) (dp : list nat) (prev : list Z) (best : nat) :
  j < m ->
  dp_inv R m j dp prev best ->
  dp_inv R m (S j)
         (fst (fst (dp_outer vals eps (dp, prev, best) j)))
         (snd (fst (dp_outer vals eps (dp, prev, best) j)))
         (snd (dp_outer vals eps (dp, prev, best) j)).
Proof.
  intros Hjm [Hl1 Hl2 Hunt Hpos Hlink Hupper Hbr Hbest].
  unfold dp_outer.
  destruct (Hunt j (le_n j) Hjm) as [Hd Hp].
  pose proof (dp_inner_loop j j dp prev (le_n j) Hjm Hl1 Hl2 Hd Hp) as Hin.
  destruct (fold_left (dp_inner vals eps j) (seq 0 j) (dp, prev)) as [dp' prev'].
  simpl in Hin. destruct Hin as [Hl1' Hl2' Hsame Hlink' Hupper']. simpl.
  assert (Hdp : forall x, x <> j -> nth x dp' 0 = nth x dp 0) by (intros; apply Hsame; auto).
  assert (Hpr : forall x, x <> j -> nth x prev' (-1)%Z = nth x prev (-1)%Z)
    by (intros; apply Hsame; auto).
  assert (Hpos' : forall x, x < m -> 1 <= nth x dp' 0).
  { intros x Hx. destruct (Nat.eq_dec x j) as [-> | Hne].
    - destruct Hlink' as [[_ ->] | (p & _ & _ & _ & ->)]; lia.
    - rewrite Hdp by assumption. auto. }
  constructor; auto.
  - intros x Hx Hxm. rewrite Hdp, Hpr by lia. apply Hunt; lia.
  - intros x Hx. destruct (Nat.eq_dec x j) as [-> | Hne].
    + destruct Hlink' as [Hl | (p & Hp1 & Hp2 & Hp3 & Hp4)]; [left; assumption |].
      right. exists p. repeat split; auto.
    + rewrite Hdp, Hpr by assumption.
      destruct (Hlink x ltac:(lia)) as [Hl | (p & Hp1 & Hp2 & Hp3 & Hp4)]; [left; assumption |].
      right. exists p. rewrite Hdp by lia. repeat split; auto.
  - intros x i Hx Hi Hr. destruct (Nat.eq_dec x j) as [-> | Hne].
    + apply Hupper'; assumption.
    + rewrite !Hdp by lia. apply Hupper; [lia | assumption | assumption].
  - destruct (nth best dp' 0 <? nth j dp' 0); [right; lia | destruct Hbr; [left; assumption | right; lia]].
  - intros x Hx. destruct (nth best dp' 0 <? nth j dp' 0) eqn:Hlt.
    + apply Nat.ltb_lt in Hlt. destruct (Nat.eq_dec x j) as [-> | Hne]; [lia |].
      destruct (Nat.eq_dec best j) as [-> | Hnb]; [lia |].
      rewrite Hdp in Hlt by assumption. rewrite Hdp by assumption.
      specialize (Hbest x ltac:(lia)). lia.
    + apply Nat.ltb_ge in Hlt. destruct (Nat.eq_dec x j) as [-> | Hne]; [assumption |].
      destruct (Nat.eq_dec best j) as [-> | Hnb].
      * destruct Hbr as [-> | Hbr]; lia.
      * rewrite !Hdp by assumption. apply Hbest. lia.
Qed.

Lemma dp_outer_loop (j : nat) :
  j <= m ->
  dp_inv R m j
         (fst (fst (fold_left (dp_outer vals eps) (seq 0 j) (repeat 1 m, repeat (-1)%Z m, 0))))
         (snd (fst (fold_left (dp_outer vals eps) (seq 0 j) (repeat 1 m, repeat (-1)%Z m, 0))))
         (snd (fold_left (dp_outer vals eps) (seq 0 j) (repeat 1 m, repeat (-1)%Z m, 0))).
Proof.
  induction j as [| j IH]; intros Hj.
  - simpl. constructor; try (intros; lia); try apply repeat_length.
    + intros x _ Hx. rewrite !nth_repeat_lt by assumption. auto.
    + intros x Hx. rewrite nth_repeat_lt by assumption. lia.
  - rewrite seq_S, fold_left_app. simpl.
    specialize (IH ltac:(lia)).
    destruct (fold_left (dp_outer vals eps) (seq 0 j) _) as [[dp prev] best].
    simpl in IH. apply dp_outer_step; [lia | assumption].
Qed.

(** Every chain that starts at [x] is no longer than the table promises for
    its last position. *)
Lemma chain_upper (dp : list nat) (prev : list Z) (best : nat) :
  dp_inv R m m dp prev best ->
  forall c x, pos_chain R (x :: c) -> Forall (fun i => i < m) (x :: c) ->
              nth x dp 0 + length c <= nth (last (x :: c) 0) dp 0.
Proof.
  intros Hinv. induction c as [| b c IH]; intros x Hc Hlt.
  - simpl. lia.
  - destruct Hc as (Hxb & Hr & Hc). inversion Hlt as [| ? ? Hx Hlt']; subst.
    specialize (IH b Hc Hlt').
    assert (Hb : b < m) by (inversion Hlt'; assumption).
    pose proof (di_upper _ _ _ _ _ _ Hinv b x Hb Hxb Hr) as Hup.
    change (last (x :: b :: c) 0) with (last (b :: c) 0).
    simpl length. lia.
Qed.

Lemma chain_bounded (dp : list nat) (prev : list Z) (best : nat) :
  dp_inv R m m dp prev best ->
  forall c, pos_chain R c -> Forall (fun i => i < m) c ->
            length c <= nth best dp 0.
Proof.
  intros Hinv [| x c] Hc Hlt; [simpl; lia |].
  pose proof (chain_upper dp prev best Hinv c x Hc Hlt) as Hup.
  assert (Hx : x < m) by (inversion Hlt; assumption).
  pose proof (di_pos _ _ _ _ _ _ Hinv x Hx) as Hp.
  assert (Hlast : last (x :: c) 0 < m).
  { rewrite Forall_forall in Hlt. apply Hlt.
    destruct (exists_last (l := x :: c) ltac:(discriminate)) as (l' & a & ->).
    rewrite last_last. apply in_elt. }
  pose proof (di_best _ _ _ _ _ _ Hinv _ Hlast). simpl length. lia.
Qed.

Lemma pos_chain_snoc (c : list nat) (p x : nat) :
  pos_chain R (c ++ [p]) -> p < x -> R p x = true -> pos_chain R ((c ++ [p]) ++ [x]).
Proof.
  intros Hc Hpx Hr. induction c as [| a c IH]; simpl.
  - auto.
  - simpl in Hc. destruct (c ++ [p]) as [| b t] eqn:E.
    + destruct c; discriminate.
    + destruct Hc as (Hab & Hrab & Hc).
      change (a < b /\ R a b = true /\ pos_chain R ((b :: t) ++ [x])).
      auto.
Qed.

(** The walk back along [prev_idx] from position [k] ends within [k + 1]
    turns and collects a chain of [dp_len[k]] positions that ends at [k]. *)
Lemma backtrack_chain (dp : list nat) (prev : list Z) (best : nat) :
  dp_inv R m m dp prev best ->
  forall k fuel keep, k < m -> k < fuel ->
  exists c,
    backtrack fuel prev (Z.of_nat k) keep
      = Some (fold_left set_add (rev (c ++ [k])) keep) /\
    pos_chain R (c ++ [k]) /\
    Forall (fun i => i < m) (c ++ [k]) /\
    length (c ++ [k]) = nth k dp 0.
Proof.
  intros Hinv k. induction k as [k IH] using lt_wf_ind. intros fuel keep Hk Hfuel.
  destruct fuel as [| fuel]; [lia |].
  simpl backtrack.
  destruct (Z.of_nat k =? -1)%Z eqn:E; [apply Z.eqb_eq in E; lia |].
  rewrite Nat2Z.id.
  destruct (di_link _ _ _ _ _ _ Hinv k Hk) as [[Hp Hd] | (p & Hp & Hpk & Hr & Hd)].
  - exists []. rewrite Hp. simpl. destruct fuel; simpl; repeat split; auto.
  - rewrite Hp.
    destruct (IH p Hpk fuel (set_add keep k) ltac:(lia) ltac:(lia))
      as (c & Hbt & Hc & Hlt & Hlen).
    exists (c ++ [p]). rewrite Hbt. split.
    + rewrite (rev_app_distr (c ++ [p]) [k]). simpl. reflexivity.
    + split; [apply pos_chain_snoc; assumption |].
      split; [apply Forall_app; split; [assumption | constructor; [assumption | constructor]] |].
      rewrite length_app. simpl. lia.
Qed.

(** The program ends, and what it keeps is a longest chain. *)
Lemma lnds_keep_spec :
  1 <= m ->
  exists c,
    lnds_keep vals eps = Ok (fold_left set_add (rev c) []) /\
    c <> [] /\
    pos_chain R c /\
    Forall (fun i => i < m) c /\
    (forall c', pos_chain R c' -> Forall (fun i => i < m) c' -> length c' <= length c).
Proof.
  intros Hm. unfold lnds_keep, lnds_tables. fold m.
  pose proof (dp_outer_loop m (le_n m)) as Hinv.
  destruct (fold_left (dp_outer vals eps) (seq 0 m) _) as [[dp prev] best].
  simpl in Hinv.
  assert (Hbest : best < m) by (destruct (di_best_range _ _ _ _ _ _ Hinv); lia).
  destruct (backtrack_chain dp prev best Hinv best m [] Hbest Hbest)
    as (c & Hbt & Hc & Hlt & Hlen).
  exists (c ++ [best]). fold m. rewrite Hbt.
  split; [reflexivity |].
  split; [destruct c; discriminate |].
  split; [assumption |]. split; [assumption |].
  intros c' Hc' Hlt'. rewrite Hlen. eapply chain_bounded; eassumption.
Qed.

End Lnds.

Lemma pos_chain_increasing (r : nat -> nat -> bool) (c : list nat) :
  pos_chain r c -> increasing c.
Proof.
  induction c as [| a c IH]; intros H; [constructor |].
  destruct c as [| b t]; [constructor; constructor |].
  destruct H as (Hab & _ & Hc). specialize (IH Hc).
  constructor; [assumption |].
  inversion IH as [| ? ? _ Hall]; subst.
  constructor; [assumption |].
  rewrite Forall_forall in *. intros x Hx. specialize (Hall _ Hx). lia.
Qed.

Lemma fold_set_add_rev_In (c : list nat) (k : nat) :
  In k (fold_left set_add (rev c) []) <-> In k c.
Proof.
  rewrite fold_set_add_In. simpl. rewrite <- in_rev. tauto.
Qed.

(** *** The monotonic cleanup *)

Lemma fold_exclude_In (keep mono excl : list nat) (i : nat) :
  In i (fold_left (exclude_step keep) mono excl) <->
  In i excl \/ (In i mono /\ ~ In i keep).
Proof.
  revert excl. induction mono as [| x mono IH]; simpl; intros excl; [tauto |].
  rewrite IH. unfold exclude_step. destruct (mem x keep) eqn:E.
  - apply mem_In in E. split; [tauto |].
    intros [H | [[<- | H] Hn]]; tauto.
  - apply mem_false in E. rewrite set_add_In. split.
    + intros [[H | ->] | H]; tauto.
    + intros [H | [[<- | H] Hn]]; tauto.
Qed.

Lemma fold_exclude_NoDup (keep mono excl : list nat) :
  NoDup excl -> NoDup (fold_left (exclude_step keep) mono excl).
Proof.
  revert excl. induction mono as [| x mono IH]; simpl; intros excl H; [assumption |].
  apply IH. unfold exclude_step. destruct (mem x keep); [assumption |].
  apply set_add_NoDup. assumption.
Qed.

Lemma fold_exclude_id (keep mono excl : list nat) :
  (forall idx, In idx mono -> In idx keep) ->
  fold_left (exclude_step keep) mono excl = excl.
Proof.
  induction mono as [| x mono IH]; simpl; intros H; [reflexivity |].
  unfold exclude_step at 2. rewrite (proj2 (mem_In x keep)) by auto.
  apply IH. auto.
Qed.

Lemma nth_map_default {A B} (f : A -> B) (l : list A) (a : nat) (d : A) (d' : B) :
  a < length l -> nth a (map f l) d' = f (nth a l d).
Proof.
  intros H. rewrite (nth_indep _ d' (f d)) by (rewrite length_map; assumption).
  apply map_nth.
Qed.

Lemma map_nth_seq {A} (l : list A) (d : A) :
  map (fun i => nth i l d) (seq 0 (length l)) = l.
Proof.
  induction l as [| x l IH]; simpl; [reflexivity |].
  f_equal. rewrite <- seq_shift, map_map. exact IH.
Qed.

Lemma subseq_positions {A} (c l : list A) (d : A) :
  subseq c l ->
  exists ps, increasing ps /\ Forall (fun i => i < length l) ps /\
             c = map (fun i => nth i l d) ps.
Proof.
  induction 1 as [| c x l _ (ps & Hinc & Hlt & ->) | c x l _ (ps & Hinc & Hlt & ->)].
  - exists []. repeat split; constructor.
  - exists (map S ps). split; [| split].
    + clear Hlt. induction Hinc as [| a ps _ IH Ha]; simpl; constructor; [assumption |].
      rewrite Forall_forall in *. intros z Hz. apply in_map_iff in Hz.
      destruct Hz as (w & <- & Hw). specialize (Ha _ Hw). lia.
    + rewrite Forall_forall in *. intros z Hz. apply in_map_iff in Hz.
      destruct Hz as (w & <- & Hw). specialize (Hlt _ Hw). simpl. lia.
    + rewrite map_map. reflexivity.
  - exists (0 :: map S ps). split; [| split].
    + constructor.
      * clear Hlt. induction Hinc as [| a ps _ IH Ha]; simpl; constructor; [assumption |].
        rewrite Forall_forall in *. intros z Hz. apply in_map_iff in Hz.
        destruct Hz as (w & <- & Hw). specialize (Ha _ Hw). lia.
      * apply Forall_forall. intros z Hz. apply in_map_iff in Hz.
        destruct Hz as (w & <- & Hw). lia.
    + constructor; [simpl; lia |].
      rewrite Forall_forall in *. intros z Hz. apply in_map_iff in Hz.
      destruct Hz as (w & <- & Hw). specialize (Hlt _ Hw). simpl. lia.
    + simpl. rewrite map_map. reflexivity.
Qed.

(** Chains of positions in [vals = [y[i] for i in mono]] are the chains of
    indices of [y] taken from [mono]. *)
Lemma pos_chain_chain (y : list Q) (eps : Q) (mono ps : list nat) :
  Forall (fun i => i < length mono) ps ->
  (pos_chain (rel (map (fun i => nth i y 0%Q) mono) eps) ps <->
   increasing ps /\ chain y eps (map (fun i => nth i mono 0) ps)).
Proof.
  intros Hlt. split.
  - intros H. split; [eapply pos_chain_increasing; eassumption |].
    induction ps as [| a ps IH]; [exact I |].
    destruct ps as [| b t]; [exact I |].
    destruct H as (Hab & Hr & Hc). inversion Hlt as [| ? ? Ha Hlt']; subst.
    inversion Hlt' as [| ? ? Hb _]; subst.
    split; [| apply IH; assumption].
    unfold rel in Hr. apply Qle_bool_iff in Hr.
    rewrite !(nth_map_default _ mono _ 0) in Hr by assumption. exact Hr.
  - intros [Hinc Hc].
    induction ps as [| a ps IH]; [exact I |].
    destruct ps as [| b t]; [exact I |].
    destruct Hc as (Hv & Hc). inversion Hlt as [| ? ? Ha Hlt']; subst.
    inversion Hlt' as [| ? ? Hb _]; subst.
    inversion Hinc as [| ? ? Hinc' Hall]; subst.
    split; [inversion Hall; assumption |].
    split; [| apply IH; assumption].
    unfold rel. apply Qle_bool_iff.
    rewrite !(nth_map_default _ mono _ 0) by assumption. exact Hv.
Qed.

Lemma chain_short (y : list Q) (eps : Q) (l : list nat) : length l <= 1 -> chain y eps l.
Proof.
  destruct l as [| a [| b t]]; simpl; intros H; try exact I. lia.
Qed.

(** With [MONO_EPS = 0], the value blank-selection-test02.py has, a chain is
    non-decreasing between any two of its members, not only between
    neighbours. *)
Lemma chain_zero_sorted (y : list Q) (l : list nat) :
  chain y 0 l -> StronglySorted (fun a b => nth a y 0 <= nth b y 0)%Q l.
Proof.
  induction l as [| a l IH]; intros H; [constructor |].
  destruct l as [| b r]; [constructor; constructor |].
  destruct H as [Hab Hc]. specialize (IH Hc).
  constructor; [assumption |].
  inversion IH as [| ? ? _ Hall]; subst.
  assert (Hab' : (nth a y 0 <= nth b y 0)%Q).
  { revert Hab. generalize (nth a y 0%Q) (nth b y 0%Q). intros p q Hpq. lra. }
  constructor; [assumption |].
  rewrite Forall_forall in *. intros x Hx.
  apply Qle_trans with (nth b y 0%Q); [assumption | apply Hall; assumption].
Qed.

Lemma mono_window_inv (tmax : Q) (t y : list Q) (start : nat) (excl mono : list nat) :
  mono_window tmax t y start excl = Ok mono ->
  mono = cleanup_window tmax t y start excl /\
  Forall (fun i => i < length t) (seq start (length y - start)).
Proof.
  unfold mono_window, cleanup_window. intros H.
  apply (filterM_ok _ (fun i => Qle_bool (nth i t 0%Q) tmax && negb (mem i excl))) in H.
  - destruct H as [-> Hall]. split; [reflexivity |].
    rewrite Forall_forall in *. intros i Hi. specialize (Hall i Hi). cbv beta in Hall.
    inv_bind Hall as ti Hti. apply (getitem_ok t i ti 0%Q) in Hti. tauto.
  - intros i b Hb. cbv beta in Hb. inv_bind Hb as ti Hti.
    apply (getitem_ok t i ti 0%Q) in Hti. destruct Hti as [_ <-]. congruence.
Qed.

Lemma mono_window_ok (tmax : Q) (t y : list Q) (start : nat) (excl : list nat) :
  Forall (fun i => i < length t) (seq start (length y - start)) ->
  mono_window tmax t y start excl = Ok (cleanup_window tmax t y start excl).
Proof.
  intros Hall. unfold mono_window, cleanup_window. apply filterM_pure.
  rewrite Forall_forall in *. intros i Hi.
  rewrite (getitem_lt t i 0%Q (Hall i Hi)). reflexivity.
Qed.

Lemma cleanup_window_increasing (tmax : Q) (t y : list Q) (start : nat) (excl : list nat) :
  increasing (cleanup_window tmax t y start excl).
Proof. apply increasing_filter, increasing_seq. Qed.

Lemma cleanup_window_In (tmax : Q) (t y : list Q) (start : nat) (excl : list nat) (i : nat) :
  In i (cleanup_window tmax t y start excl) <->
  (start <= i < length y /\ Qle_bool (nth i t 0%Q) tmax = true /\ ~ In i excl).
Proof.
  unfold cleanup_window. rewrite filter_In, in_seq, andb_true_iff, negb_true_iff, mem_false.
  split; intros H; repeat split; try tauto; lia.
Qed.

Lemma cleanup_window_lt (tmax : Q) (t y : list Q) (start : nat) (excl : list nat) :
  Forall (fun i => i < length y) (cleanup_window tmax t y start excl).
Proof.
  apply Forall_forall. intros i Hi. apply cleanup_window_In in Hi. lia.
Qed.

(** What one pass of the cleanup does: it keeps a longest chain [kept] of the
    window and excludes the rest of the window. *)
Lemma mono_cleanup_inv (eps tmax : Q) (t y : list Q) (start : nat) (excl excl' : list nat) :
  mono_cleanup eps tmax t y start excl = Ok excl' ->
  Forall (fun i => i < length t) (seq start (length y - start)) /\
  exists kept,
    subseq kept (cleanup_window tmax t y start excl) /\
    chain y eps kept /\
    (forall c, subseq c (cleanup_window tmax t y start excl) -> chain y eps c ->
               length c <= length kept) /\
    (forall i, In i excl' <->
               In i excl \/ (In i (cleanup_window tmax t y start excl) /\ ~ In i kept)) /\
    (NoDup excl -> NoDup excl').
Proof.
  unfold mono_cleanup. intros H.
  inv_bind H as mono Hmono. apply mono_window_inv in Hmono. destruct Hmono as [-> Ht].
  split; [assumption |].
  set (mono := cleanup_window tmax t y start excl) in *.
  destruct (length mono <=? 1) eqn:Hshort.
  - apply Nat.leb_le in Hshort. inversion H; subst excl'.
    exists mono. split; [| split; [| split; [| split]]].
    + replace mono with (filter (fun _ => true) mono) at 1 by (apply forallb_filter_id, forallb_forall; auto).
      apply subseq_filter.
    + apply chain_short. assumption.
    + intros c Hc _. apply subseq_length. assumption.
    + intros i. tauto.
    + auto.
  - apply Nat.leb_gt in Hshort.
    inv_bind H as vals Hvals.
    apply (mapM_getitem_ok y 0%Q) in Hvals. destruct Hvals as [_ ->].
    inv_bind H as keep Hkeep.
    destruct (lnds_keep_spec (map (fun i => nth i y 0%Q) mono) eps) as
      (c & Hc_eq & Hc_ne & Hc_chain & Hc_lt & Hc_opt).
    { rewrite length_map. lia. }
    rewrite Hc_eq in Hkeep. inversion Hkeep; subst keep. clear Hkeep.
    rewrite length_map in Hc_lt, Hc_opt.
    inversion H; subst excl'. clear H.
    set (keepG := set_of (map (fun pos => nth pos mono 0) (fold_left set_add (rev c) []))).
    assert (HkeepG : forall i, In i keepG <-> In i (map (fun pos => nth pos mono 0) c)).
    { intros i. unfold keepG. rewrite set_of_In, !in_map_iff.
      split; intros (pos & Hpos & Hin); exists pos; split; auto;
        apply fold_set_add_rev_In; assumption. }
    apply (pos_chain_chain y eps mono c Hc_lt) in Hc_chain as [Hc_inc Hc_chain].
    assert (Hmono_inc : increasing mono) by apply cleanup_window_increasing.
    assert (Hkept : filter (fun idx => mem idx keepG) mono = map (fun pos => nth pos mono 0) c).
    { apply increasing_ext.
      - apply increasing_filter. assumption.
      - apply increasing_map_nth; assumption.
      - intros i. rewrite filter_In, mem_In, HkeepG. split; [tauto |].
        intros Hi. split; [| assumption].
        apply in_map_iff in Hi. destruct Hi as (pos & <- & Hpos).
        apply nth_In. rewrite Forall_forall in Hc_lt. auto. }
    exists (filter (fun idx => mem idx keepG) mono).
    split; [apply subseq_filter |].
    split; [rewrite Hkept; assumption |].
    split; [| split].
    + intros c' Hsub Hchain.
      destruct (subseq_positions c' mono 0 Hsub) as (ps & Hps_inc & Hps_lt & ->).
      rewrite Hkept, !length_map. apply Hc_opt; [| assumption].
      apply pos_chain_chain; auto.
    + intros i. rewrite fold_exclude_In, filter_In, mem_In. tauto.
    + apply fold_exclude_NoDup.
Qed.

Lemma cleanup_window_set_of (tmax : Q) (t y : list Q) (start : nat) (l : list nat) :
  cleanup_window tmax t y start (set_of l) = cleanup_window tmax t y start l.
Proof.
  unfold cleanup_window. apply filter_ext. intros i. f_equal. f_equal.
  destruct (mem i l) eqn:E.
  - apply mem_In. apply set_of_In. apply mem_In. assumption.
  - apply mem_false. rewrite set_of_In. apply mem_false. assumption.
Qed.

(** *** [find_baseline_points] read backwards *)

Lemma find_baseline_points_inv (eps tmax : Q) (t y : list Q) (t_pre bw tol : Q) (mc : Z)
  (b : list nat) (level : option Q) (ex : list nat) :
  find_baseline_points eps tmax t y t_pre bw tol mc = Ok (b, level, ex) ->
  (b = [] /\ ex = [] /\
   ((level = None /\ (Z.of_nat (count_pre t t_pre) < mc)%Z) \/
    (exists lvl, level = Some lvl /\
                 histogram_level y (pre_indices t t_pre) bw lvl /\
                 candidates t y t_pre lvl tol = [])))
  \/
  (exists lvl excl',
     level = Some lvl /\
     histogram_level y (pre_indices t t_pre) bw lvl /\
     candidates t y t_pre lvl tol <> [] /\
     chosen_baseline mc (candidates t y t_pre lvl tol) b /\
     b <> [] /\ increasing b /\
     mono_cleanup eps tmax t y (hd 0 b)
                  (set_of (pre_excluded t y t_pre lvl tol (hd 0 b))) = Ok excl' /\
     ex = sorted excl').
Proof.
  unfold find_baseline_points. intros H.
  inv_bind H as sel Hsel. apply select_baseline_inv in Hsel.
  destruct Hsel as [[-> Hcount] | (lvl & Hcount & Hpre & Hlt & Hbw & Hlvl & Hsel)].
  { inversion H; subst. left. auto. }
  destruct Hsel as [[Hc ->] | (b0 & Hc & Hch & ->)].
  { inversion H; subst. left. repeat split; auto. right. exists lvl. auto. }
  right.
  destruct (chosen_baseline_shape mc _ b0 (candidates_increasing t y t_pre lvl tol) Hc Hch)
    as [Hne Hinc].
  apply is_nil_false in Hne as Hnil. rewrite Hnil in H.
  rewrite (py_min_nat_increasing b0 Hinc Hne) in H. simpl bind in H.
  inv_bind H as excl' Hexcl. inversion H; subst.
  exists lvl, excl'. repeat split; auto.
Qed.

(** *** The histogram level *)

Lemma pre_indices_lt (t : list Q) (t_pre : Q) :
  Forall (fun i => i < length t) (pre_indices t t_pre).
Proof.
  apply Forall_forall. intros i Hi. apply indices_where_bounds in Hi. lia.
Qed.

Lemma pre_indices_increasing (t : list Q) (t_pre : Q) : increasing (pre_indices t t_pre).
Proof. apply indices_where_increasing. Qed.




Lemma bin_members_In (bin : nat -> Z) (pre : list nat) (b : Z) (i : nat) :
  In i (bin_members bin pre b) <-> In i pre /\ bin i = b.
Proof. unfold bin_members. rewrite filter_In, Z.eqb_eq. reflexivity. Qed.

(** The entry [max] picks from the histogram is the winning bin. *)
Lemma max_entry_wins (bin : nat -> Z) (pre : list nat) (k : Z) (members : list nat) :
  increasing pre ->
  py_max_by (fun kv : Z * list nat => length (snd kv)) (group_bins bin pre []) = Ok (k, members) ->
  members = bin_members bin pre k /\ winning_bin bin pre k.
Proof.
  intros Hinc Hmax.
  pose proof (group_bins_ok bin pre Hinc) as [Hnd Hmem Hcov Hord].
  destruct (py_max_by_first _ _ _ Hmax) as (l1 & l2 & Hg & Hl1 & Hl2).
  simpl in Hl1, Hl2.
  destruct (Hmem k members) as [Hms Hne]; [rewrite Hg; apply in_elt |].
  split; [assumption |].
  assert (Hentry : forall b', bin_members bin pre b' <> [] ->
                              In (b', bin_members bin pre b') (group_bins bin pre [])).
  { intros b' Hb'. destruct (bin_members bin pre b') as [| i r] eqn:E; [congruence |].
    assert (Hi : In i (bin_members bin pre b')) by (rewrite E; left; reflexivity).
    apply bin_members_In in Hi. destruct Hi as [Hi Hb].
    specialize (Hcov i Hi). rewrite Hb in Hcov. apply in_map_iff in Hcov.
    destruct Hcov as ([k' ms'] & Hk' & Hin). simpl in Hk'. subst k'.
    destruct (Hmem _ _ Hin) as [-> _]. rewrite E in Hin. assumption. }
  unfold winning_bin. rewrite <- Hms. repeat split.
  - assumption.
  - intros b'. destruct (bin_members bin pre b') as [| i r] eqn:E; [simpl; lia |].
    rewrite <- E. assert (Hin : In (b', bin_members bin pre b') (group_bins bin pre []))
      by (apply Hentry; rewrite E; discriminate).
    rewrite Hg in Hin. apply in_app_iff in Hin. destruct Hin as [Hin | [Heq | Hin]].
    + specialize (Hl1 _ Hin). simpl in Hl1. lia.
    + inversion Heq. lia.
    + specialize (Hl2 _ Hin). simpl in Hl2. lia.
  - intros b' Hb' Hlen.
    assert (Hne' : bin_members bin pre b' <> []).
    { intros E. rewrite E in Hlen. destruct members; [congruence | discriminate]. }
    pose proof (Hentry b' Hne') as Hin.
    rewrite Hg in Hin. apply in_app_iff in Hin. destruct Hin as [Hin | [Heq | Hin]].
    + specialize (Hl1 _ Hin). simpl in Hl1. lia.
    + inversion Heq. congruence.
    + apply in_split in Hin. destruct Hin as (l2a & l2b & ->).
      assert (Hgs : group_bins bin pre []
                    = (l1 ++ (k, members) :: l2a) ++ (b', bin_members bin pre b') :: l2b)
        by (rewrite Hg, <- app_assoc; reflexivity).
      apply (Hord _ _ _ _ Hgs k members). apply in_elt.
Qed.



(** *** The engine returns *)

Lemma select_baseline_total (t y : list Q) (t_pre bw tol : Q) (mc : Z) :
  length t = length y -> Qeq_bool bw 0 = false -> pre_indices t t_pre <> [] ->
  exists st, select_baseline t y t_pre bw tol mc = Ok st.
Proof.
  intros Hlen Hbw Hne. unfold select_baseline. fold (pre_indices t t_pre).
  set (pre := pre_indices t t_pre) in *.
  assert (Hlt : Forall (fun i => i < length y) pre).
  { rewrite <- Hlen. apply pre_indices_lt. }
  destruct (Z.of_nat (length pre) <? mc)%Z; [eauto |].
  rewrite (mapM_getitem y 0%Q pre Hlt). cbn [bind].
  assert (Hmin : exists y_min, py_min (map (fun i => nth i y 0%Q) pre) = Ok y_min)
    by (destruct pre; [congruence | simpl; eauto]).
  destruct Hmin as [y_min Hmin]. rewrite Hmin. cbn [bind].
  rewrite (foldM_bin_step_ok y y_min bw pre [] Hlt Hbw). cbn [bind].
  set (g := group_bins (code_bin y y_min bw) pre []).
  assert (Hg : g <> []) by (apply group_bins_nonempty; assumption).
  rewrite (proj2 (is_nil_false g) Hg).
  destruct (py_max_by (fun kv : Z * list nat => length (snd kv)) g) as [[k members] | e] eqn:Hbest;
    [| destruct g; [congruence | discriminate]].
  cbn [bind snd].
  destruct (max_entry_wins _ _ _ _ (pre_indices_increasing t t_pre) Hbest) as [Hms (Hmne & _)].
  assert (Hmlt : Forall (fun i => i < length y) members).
  { rewrite Forall_forall in *. intros i Hi. rewrite Hms in Hi.
    apply bin_members_In in Hi. apply Hlt. tauto. }
  rewrite (mapM_getitem y 0%Q members Hmlt). cbn [bind].
  destruct (median_total (map (fun i => nth i y 0%Q) members)) as [lvl Hlvl].
  { rewrite Hms. destruct (bin_members (code_bin y y_min bw) (pre_indices t t_pre) k);
      [congruence | discriminate]. }
  rewrite Hlvl. cbn [bind].
  rewrite (filterM_pure _ (fun i => Qle_bool (Qabs (nth i y 0%Q - lvl)) tol) pre).
  2: { rewrite Forall_forall in *. intros i Hi.
       rewrite (getitem_lt y i 0%Q (Hlt i Hi)). reflexivity. }
  cbn [bind]. change (filter _ pre) with (candidates t y t_pre lvl tol).
  rewrite (sorted_id _ (candidates_increasing t y t_pre lvl tol)).
  destruct (candidates t y t_pre lvl tol) as [| c0 rest] eqn:Hc; [eauto |].
  set (valid := filter _ (split_runs c0 rest)).
  assert (Hb : exists b, (if is_nil valid then Ok (c0 :: rest)
                          else py_max_by (@length nat) valid) = Ok b).
  { destruct valid as [| v r]; simpl; eauto. }
  destruct Hb as [b Hb]. rewrite Hb. cbn [bind].
  apply chosen_baseline_of_runs in Hb.
  destruct (chosen_baseline_shape mc (c0 :: rest) b) as [Hbne Hbinc];
    [rewrite <- Hc; apply candidates_increasing | discriminate | assumption |].
  rewrite (proj2 (is_nil_false b) Hbne).
  rewrite (py_min_nat_increasing b Hbinc Hbne). cbn [bind].
  rewrite (filterM_pure _ (fun i => (i <? hd 0 b) && Qlt_bool tol (Qabs (nth i y 0%Q - lvl))) pre).
  2: { rewrite Forall_forall in *. intros i Hi. destruct (i <? hd 0 b); [| reflexivity].
       rewrite (getitem_lt y i 0%Q (Hlt i Hi)). reflexivity. }
  cbn [bind]. eauto.
Qed.

Lemma mono_cleanup_total (eps tmax : Q) (t y : list Q) (start : nat) (excl : list nat) :
  length t = length y ->
  exists excl', mono_cleanup eps tmax t y start excl = Ok excl'.
Proof.
  intros Hlen. unfold mono_cleanup.
  rewrite mono_window_ok.
  2: { apply Forall_forall. intros i Hi. apply in_seq in Hi. lia. }
  cbn [bind]. set (mono := cleanup_window tmax t y start excl).
  destruct (length mono <=? 1) eqn:Hshort; [eauto |]. apply Nat.leb_gt in Hshort.
  rewrite (mapM_getitem y 0%Q mono (cleanup_window_lt tmax t y start excl)). cbn [bind].
  destruct (lnds_keep_spec (map (fun i => nth i y 0%Q) mono) eps) as (c & Hc & _).
  { rewrite length_map. lia. }
  rewrite Hc. cbn [bind]. eauto.
Qed.

Lemma find_baseline_points_total (eps tmax : Q) (t y : list Q) (t_pre bw tol : Q) (mc : Z) :
  length t = length y -> Qeq_bool bw 0 = false -> pre_indices t t_pre <> [] ->
  exists out, find_baseline_points eps tmax t y t_pre bw tol mc = Ok out.
Proof.
  intros Hlen Hbw Hne.
  destruct (select_baseline_total t y t_pre bw tol mc Hlen Hbw Hne) as [st Hst].
  unfold find_baseline_points. rewrite Hst. cbn [bind].
  apply select_baseline_inv in Hst.
  destruct Hst as [[-> _] | (lvl & _ & _ & _ & _ & _ & [[_ ->] | (b & Hc & Hch & ->)])];
    [eauto | eauto |].
  destruct (chosen_baseline_shape mc _ b (candidates_increasing t y t_pre lvl tol) Hc Hch)
    as [Hbne Hbinc].
  rewrite (proj2 (is_nil_false b) Hbne).
  rewrite (py_min_nat_increasing b Hbinc Hbne). cbn [bind].
  destruct (mono_cleanup_total eps tmax t y (hd 0 b)
              (set_of (pre_excluded t y t_pre lvl tol (hd 0 b))) Hlen) as [excl' Hex].
  rewrite Hex. cbn [bind]. eauto.
Qed.

(** C9.  The monotonic cleanup is idempotent: a second pass, started from the
    indices the first pass has excluded, looks at exactly the points the first
    pass kept, which are non-decreasing within [MONO_EPS], and excludes none of
    them.  On a well-formed series the first pass does return. *)
Theorem mono_cleanup_idempotent (eps tmax : Q) (t y : list Q) (start : nat)
  (excl : list nat) :
  (forall excl',
     mono_cleanup eps tmax t y start excl = Ok excl' ->
     cleanup_window tmax t y start excl'
       = filter (fun i => negb (mem i excl')) (cleanup_window tmax t y start excl) /\
     chain y eps (cleanup_window tmax t y start excl') /\
     mono_cleanup eps tmax t y start excl' = Ok excl') /\
  (length t = length y ->
   exists excl', mono_cleanup eps tmax t y start excl = Ok excl').
Proof.
  split; [| apply mono_cleanup_total].
  intros excl' H. apply mono_cleanup_inv in H.
  destruct H as (Ht & kept & Hsub & Hchain & _ & Hex & _).
  set (mono := cleanup_window tmax t y start excl) in *.
  assert (Hmono_inc : increasing mono) by apply cleanup_window_increasing.
  assert (Hkept_inc : increasing kept) by (eapply subseq_increasing; eassumption).
  assert (Hwin : cleanup_window tmax t y start excl' = kept).
  { apply increasing_ext; [apply cleanup_window_increasing | assumption |].
    intros i. rewrite cleanup_window_In, Hex. split.
    - intros (Hr & Ht' & Hn).
      assert (Hi : In i mono) by (apply cleanup_window_In; tauto).
      destruct (in_dec Nat.eq_dec i kept) as [Hk | Hk]; [assumption | tauto].
    - intros Hk. pose proof (subseq_In _ _ _ Hsub Hk) as Hi.
      apply cleanup_window_In in Hi. tauto. }
  split; [| split].
  - rewrite Hwin. apply increasing_ext;
      [assumption | apply increasing_filter; assumption |].
    intros i. rewrite filter_In, negb_true_iff, mem_false, Hex. split.
    + intros Hk. pose proof (subseq_In _ _ _ Hsub Hk) as Hi.
      split; [assumption |]. apply cleanup_window_In in Hi. tauto.
    + intros [Hi Hn]. destruct (in_dec Nat.eq_dec i kept) as [Hk | Hk]; [assumption | tauto].
  - rewrite Hwin. assumption.
  - unfold mono_cleanup. rewrite (mono_window_ok tmax t y start excl' Ht). simpl bind.
    rewrite Hwin.
    destruct (length kept <=? 1) eqn:Hshort; [reflexivity |].
    apply Nat.leb_gt in Hshort.
    assert (Hlt : Forall (fun i => i < length y) kept).
    { rewrite <- Hwin. apply cleanup_window_lt. }
    rewrite (mapM_getitem y 0%Q kept Hlt). simpl bind.
    destruct (lnds_keep_spec (map (fun i => nth i y 0%Q) kept) eps) as
      (c & Hc_eq & Hc_ne & Hc_chain & Hc_lt & Hc_opt).
    { rewrite length_map. lia. }
    rewrite Hc_eq. simpl bind. rewrite length_map in Hc_lt, Hc_opt.
    f_equal. apply (fold_exclude_id _ kept excl').
    intros idx Hidx. apply set_of_In.
    assert (Hfull : length (seq 0 (length kept)) <= length c).
    { apply Hc_opt; [| apply Forall_forall; intros i Hi; apply in_seq in Hi; lia].
      apply pos_chain_chain.
      - apply Forall_forall. intros i Hi. apply in_seq in Hi. lia.
      - split; [apply increasing_seq |]. rewrite map_nth_seq. assumption. }
    assert (Hincl : incl (seq 0 (length kept)) c).
    { apply NoDup_length_incl.
      - apply increasing_NoDup. eapply pos_chain_increasing. eassumption.
      - assumption.
      - intros i Hi. apply in_seq. rewrite Forall_forall in Hc_lt.
        specialize (Hc_lt _ Hi). lia. }
    destruct (In_nth kept idx 0 Hidx) as (pos & Hpos & <-).
    apply in_map_iff. exists pos. split; [reflexivity |].
    apply fold_set_add_rev_In. apply Hincl. apply in_seq. lia.
Qed.

(** C2.  In the cleanup of [find_baseline_points], the window is the
    not-yet-excluded indices from the first baseline index on whose time is at
    most [MONO_T_MAX]; what the cleanup keeps is a longest subsequence of the
    window that is non-decreasing up to [MONO_EPS]; and the returned excluded
    indices are the pre-baseline exclusions together with exactly the points of
    the window that are not kept.  On a well-formed series with a non-zero bin
    width and a non-empty pre-window the function does return. *)
Theorem cleanup_keeps_longest_chain (eps tmax : Q) (t y : list Q) (t_pre bw tol : Q)
  (mc : Z) :
  (forall b lvl ex,
     find_baseline_points eps tmax t y t_pre bw tol mc = Ok (b, Some lvl, ex) ->
     b <> [] ->
     exists kept,
       subseq kept (cleanup_window tmax t y (hd 0 b) (pre_excluded t y t_pre lvl tol (hd 0 b))) /\
       chain y eps kept /\
       (forall c,
          subseq c (cleanup_window tmax t y (hd 0 b) (pre_excluded t y t_pre lvl tol (hd 0 b))) ->
          chain y eps c -> length c <= length kept) /\
       (forall i,
          In i ex <->
          In i (pre_excluded t y t_pre lvl tol (hd 0 b)) \/
          (In i (cleanup_window tmax t y (hd 0 b) (pre_excluded t y t_pre lvl tol (hd 0 b))) /\
           ~ In i kept)) /\
       increasing ex) /\
  (length t = length y -> ~ (bw == 0)%Q -> 0 < count_pre t t_pre ->
   exists out, find_baseline_points eps tmax t y t_pre bw tol mc = Ok out).
Proof.
  split.
  - intros b lvl ex H Hb. apply find_baseline_points_inv in H.
    destruct H as [(-> & _) | (lvl' & excl' & Hl & _ & _ & _ & _ & _ & Hclean & ->)];
      [congruence |].
    inversion Hl; subst lvl'. clear Hl.
    apply mono_cleanup_inv in Hclean.
    destruct Hclean as (_ & kept & Hsub & Hchain & Hopt & Hex & Hnd).
    rewrite cleanup_window_set_of in *.
    exists kept. repeat split; try assumption.
    + rewrite sorted_In, Hex, set_of_In. tauto.
    + rewrite sorted_In, Hex, set_of_In. tauto.
    + apply sorted_increasing. apply Hnd. apply set_of_NoDup.
  - intros Hlen Hbw Hpos. apply find_baseline_points_total; [assumption | |].
    + destruct (Qeq_bool bw 0) eqn:E; [| reflexivity].
      apply Qeq_bool_iff in E. contradiction.
    + intros E. rewrite <- pre_indices_count, E in Hpos. simpl in Hpos. lia.
Qed.



(** C5.  When fewer than [min_consecutive] points have a time of at most
    [t_pre] -- the empty series included -- both versions of
    [find_baseline_points] return the empty result [([], None, [])]: nothing
    is raised and no list is indexed. *)
Theorem baseline_insufficient_data (eps tmax : Q) (t y : list Q) (t_pre bw tol : Q) (mc : Z) :
  (Z.of_nat (count_pre t t_pre) < mc)%Z ->
  find_baseline_points eps tmax t y t_pre bw tol mc = Ok ([], None, []) /\
  find_baseline_points_test0 eps t y t_pre bw tol mc = Ok ([], None, []).
Proof.
  intros H. unfold find_baseline_points, find_baseline_points_test0.
  rewrite (select_baseline_too_few t y t_pre bw tol mc H). split; reflexivity.
Qed.



(** *** The properties on sample series *)

Lemma mono_cleanup_idempotent_witness :
  mono_cleanup MONO_EPS_02 MONO_T_MAX_02 Samples.t_spike Samples.y_spike 0 [] = Ok [5] /\
  cleanup_window MONO_T_MAX_02 Samples.t_spike Samples.y_spike 0 [5] = [0; 1; 2; 3; 4; 6] /\
  mono_cleanup MONO_EPS_02 MONO_T_MAX_02 Samples.t_spike Samples.y_spike 0 [5] = Ok [5].
Proof.
  assert (H : mono_cleanup MONO_EPS_02 MONO_T_MAX_02 Samples.t_spike Samples.y_spike 0 []
              = Ok [5]) by (vm_compute; reflexivity).
  destruct (proj1 (mono_cleanup_idempotent _ _ _ _ _ _) _ H) as (Hwin & _ & Hagain).
  split; [exact H |]. split; [| exact Hagain].
  rewrite Hwin. vm_compute. reflexivity.
Defined.

Lemma cleanup_keeps_longest_chain_witness :
  find_baseline_points MONO_EPS_02 MONO_T_MAX_02 Samples.t_spike Samples.y_spike
                       T_PRE BIN_WIDTH TOL MIN_CONSECUTIVE
    = Ok ([0; 1; 2], Some (50 # 1000)%Q, [5]) /\
  exists kept,
    subseq kept [0; 1; 2; 3; 4; 5; 6] /\
    chain Samples.y_spike MONO_EPS_02 kept /\
    (forall c, subseq c [0; 1; 2; 3; 4; 5; 6] -> chain Samples.y_spike MONO_EPS_02 c ->
               length c <= length kept) /\
    (forall i, In i [5] <-> In i [] \/ (In i [0; 1; 2; 3; 4; 5; 6] /\ ~ In i kept)) /\
    increasing [5].
Proof.
  assert (H : find_baseline_points MONO_EPS_02 MONO_T_MAX_02 Samples.t_spike Samples.y_spike
                                   T_PRE BIN_WIDTH TOL MIN_CONSECUTIVE
              = Ok ([0; 1; 2], Some (50 # 1000)%Q, [5])) by (vm_compute; reflexivity).
  split; [exact H |].
  exact (proj1 (cleanup_keeps_longest_chain _ _ _ _ _ _ _ _) _ _ _ H ltac:(discriminate)).
Defined.

Lemma baseline_insufficient_data_witness :
  (Z.of_nat (count_pre [] T_PRE) < MIN_CONSECUTIVE)%Z /\
  find_baseline_points MONO_EPS_02 MONO_T_MAX_02 [] [] T_PRE BIN_WIDTH TOL MIN_CONSECUTIVE
    = Ok ([], None, []) /\
  find_baseline_points_test0 MONO_EPS_0 [] [] T_PRE BIN_WIDTH TOL MIN_CONSECUTIVE
    = Ok ([], None, []).
Proof.
  assert (H : (Z.of_nat (count_pre [] T_PRE) < MIN_CONSECUTIVE)%Z) by (vm_compute; reflexivity).
  split; [exact H |].
  exact (baseline_insufficient_data MONO_EPS_02 MONO_T_MAX_02 [] [] T_PRE BIN_WIDTH TOL
                                    MIN_CONSECUTIVE H).
Defined.


(** The forward clamp of blank-selection-test0.py is not the subsequence
    program: after one upward spike (index 3) it discards the three later
    points, where the program of blank-selection-test02.py discards the spike
    alone. *)
Remark greedy_clamp_discards_more :
  find_baseline_points_test0 MONO_EPS_0 Samples.t_spike
      (Samples.millis [50; 50; 50; 900; 100; 200; 300]%Z)
      T_PRE BIN_WIDTH TOL MIN_CONSECUTIVE
    = Ok ([0; 1; 2], Some (50 # 1000)%Q, [4; 5; 6]) /\
  find_baseline_points MONO_EPS_02 MONO_T_MAX_02 Samples.t_spike
      (Samples.millis [50; 50; 50; 900; 100; 200; 300]%Z)
      T_PRE BIN_WIDTH TOL MIN_CONSECUTIVE
    = Ok ([0; 1; 2], Some (50 # 1000)%Q, [3]).
Proof. split; vm_compute; reflexivity. Qed.

End BaselineFacts.

(** * The log-phase engine *)

Module LogPhaseFacts.

Import PyFacts LogPhase.

Tactic Notation "inv_bind" hyp(H) "as" ident(x) ident(Hx) :=
  apply bind_ok in H; destruct H as (x & Hx & H).

(** *** The regression *)

Lemma inject_nat_nonzero (n : nat) : 0 < n -> Qeq_bool (inject_Z (Z.of_nat n)) 0 = false.
Proof.
  intros H. destruct (Qeq_bool _ 0) eqn:E; [| reflexivity].
  apply Qeq_bool_iff in E. unfold Qeq in E. simpl in E. lia.
Qed.

Lemma qdiv_ok (a b : Q) : Qeq_bool b 0 = false -> qdiv a b = Ok (a / b)%Q.
Proof. intros H. unfold qdiv. rewrite H. reflexivity. Qed.

(** The regression never raises: each of its divisions is guarded. *)
Lemma regression_total (T U : list Q) :
  _linear_regression T U = Ok (regression_value T U).
Proof.
  unfold _linear_regression, regression_value.
  destruct (length T <? 2) eqn:En; [reflexivity |].
  apply Nat.ltb_ge in En.
  rewrite !qdiv_ok by (apply inject_nat_nonzero; lia). cbn [bind].
  fold (mean_of T (length T)). fold (mean_of U (length T)). fold (spread T U).
  destruct (spread T U) as [s_tt s_tu]. cbn [fst snd].
  destruct (Qeq_bool s_tt 0) eqn:Es; [reflexivity |].
  rewrite (qdiv_ok s_tu s_tt Es). cbn [bind].
  set (ss_tot := qsum (map (fun ui => sq (ui - mean_of U (length T))) U)).
  destruct (Qeq_bool ss_tot 0) eqn:Et; cbn [bind]; [reflexivity |].
  rewrite qdiv_ok by assumption. reflexivity.
Qed.










(** *** The runs of the mask *)

Lemma log_run_loop (mask rest : list bool) (s : nat) (st : list (list nat) * list nat) :
  (forall k, k < length rest -> nth (s + k) mask false = nth k rest false) ->
  s + length rest = length mask ->
  runs_inv mask s st ->
  runs_inv mask (length mask)
           (fold_left log_run_step (combine (seq s (length rest)) rest) st).
Proof.
  revert s st. induction rest as [| x rest IH]; intros s st Hnth Hlen Hinv.
  - simpl in *. replace (length mask) with s by lia. assumption.
  - cbn [length seq combine fold_left]. apply IH.
    + intros k Hk. specialize (Hnth (S k) ltac:(simpl; lia)).
      simpl in Hnth. rewrite <- Hnth. f_equal. lia.
    + simpl in Hlen. lia.
    + specialize (Hnth 0 ltac:(simpl; lia)). rewrite Nat.add_0_r in Hnth. simpl in Hnth.
      simpl in Hlen.
      destruct st as [runs cur]. destruct Hinv as [Hruns (a & Hcur & Ha & Htrue)].
      simpl in Hruns, Hcur. unfold log_run_step.
      destruct x.
      * split; [assumption |]. exists a. cbn [fst snd]. repeat split.
        -- rewrite Hcur. replace (S s - a) with (S (s - a)) by lia.
           rewrite seq_S. f_equal. f_equal. lia.
        -- lia.
        -- intros j Hj. destruct (Nat.eq_dec j s) as [-> | Hne]; [assumption |].
           apply Htrue. lia.
      * destruct (is_nil cur) eqn:Enil; simpl.
        -- apply is_nil_true in Enil. split; [assumption |].
           exists (S s). simpl. rewrite Nat.sub_diag. repeat split; [assumption | lia |].
           intros j Hj. lia.
        -- apply is_nil_false in Enil. split.
           ++ apply Forall_app. split; [assumption |]. constructor; [| constructor].
              exists a, (s - a). repeat split; try assumption.
              ** destruct (s - a) eqn:E; [simpl in Hcur; congruence | lia].
              ** intros j Hj. apply Htrue. lia.
              ** lia.
              ** intros _. replace (a + (s - a)) with s by lia. assumption.
           ++ exists (S s). simpl. rewrite Nat.sub_diag. repeat split; [lia |].
              intros j Hj. lia.
Qed.

(** Every run that [log_runs] returns is a maximal block of marked indices. *)
Lemma log_runs_ok (mask : list bool) : Forall (run_ok mask) (log_runs mask).
Proof.
  unfold log_runs.
  pose proof (log_run_loop mask mask 0 ([], [])) as H.
  specialize (H ltac:(intros; reflexivity) ltac:(reflexivity)).
  assert (H0 : runs_inv mask 0 ([], [])).
  { split; [constructor |]. exists 0. simpl. repeat split; [lia |]. intros j Hj. lia. }
  specialize (H H0).
  destruct (fold_left log_run_step _ _) as [runs cur].
  destruct H as [Hruns (a & Hcur & Ha & Htrue)]. simpl in Hruns, Hcur.
  destruct (is_nil cur) eqn:Enil; simpl; [assumption |].
  apply is_nil_false in Enil.
  apply Forall_app. split; [assumption |]. constructor; [| constructor].
  exists a, (length mask - a). repeat split; try assumption.
  - destruct (length mask - a) eqn:E; [simpl in Hcur; congruence | lia].
  - intros j Hj. apply Htrue. lia.
  - lia.
  - lia.
Qed.

Lemma run_ok_block (mask : list bool) (r : list nat) :
  run_ok mask r -> consecutive_block r /\ r <> [].
Proof.
  intros (a & n & -> & Hn & _). split; [exists a, n; reflexivity |].
  destruct n; [lia | discriminate].
Qed.

(** *** The mask *)

Lemma setitem_loop (l : list nat) (m m' : list bool) :
  foldM (fun m i => setitem m i true) l m = Ok m' ->
  length m' = length m /\
  (forall j, nth j m false = true -> nth j m' false = true) /\
  (forall j, In j l -> nth j m' false = true /\ j < length m).
Proof.
  revert m. induction l as [| i l IH]; simpl; intros m H.
  - inversion H. split; [reflexivity |]. split; [auto |]. intros j [].
  - inv_bind H as m1 Hm1. unfold setitem in Hm1.
    destruct (i <? length m) eqn:Ei; [| discriminate].
    apply Nat.ltb_lt in Ei. inversion Hm1; subst m1. clear Hm1.
    destruct (IH _ H) as (Hlen & Hkeep & Hset). rewrite upd_length in Hlen.
    split; [assumption |]. split.
    + intros j Hj. apply Hkeep. destruct (Nat.eq_dec i j) as [-> | Hne].
      * apply nth_upd_eq. assumption.
      * rewrite nth_upd_neq by assumption. assumption.
    + intros j [<- | Hj].
      * split; [| assumption]. apply Hkeep. apply nth_upd_eq. assumption.
      * destruct (Hset j Hj) as [H1 H2]. rewrite upd_length in H2. auto.
Qed.

Lemma setitem_loop_total (l : list nat) (m : list bool) :
  Forall (fun j => j < length m) l ->
  exists m', foldM (fun m i => setitem m i true) l m = Ok m'.
Proof.
  intros H. revert m H. induction l as [| i l IH]; simpl; intros m H; [eauto |].
  inversion H; subst. unfold setitem at 1.
  rewrite (proj2 (Nat.ltb_lt i (length m))) by assumption. cbn [bind].
  apply IH. rewrite upd_length. assumption.
Qed.

Lemma log_mask_inv (lw : list window) (m m' : list bool) :
  foldM mark_window lw m = Ok m' ->
  length m' = length m /\
  (forall j, nth j m false = true -> nth j m' false = true) /\
  (forall w j, In w lw -> w_start w <= j <= w_end w -> nth j m' false = true).
Proof.
  revert m. induction lw as [| w lw IH]; simpl; intros m H.
  - inversion H. split; [reflexivity |]. split; [auto |]. intros w j [].
  - inv_bind H as m1 Hm1. unfold mark_window in Hm1. apply setitem_loop in Hm1.
    destruct Hm1 as (Hlen1 & Hkeep1 & Hset1).
    destruct (IH _ H) as (Hlen & Hkeep & Hset).
    split; [congruence |]. split; [auto |].
    intros w' j [<- | Hw] Hj.
    + apply Hkeep. apply Hset1. apply in_seq. lia.
    + eapply Hset; eassumption.
Qed.

Lemma log_mask_total (lw : list window) (m : list bool) :
  Forall (fun w => w_end w < length m) lw ->
  exists m', foldM mark_window lw m = Ok m'.
Proof.
  intros H. revert m H. induction lw as [| w lw IH]; simpl; intros m H; [eauto |].
  inversion H; subst.
  destruct (setitem_loop_total (seq (w_start w) (w_end w + 1 - w_start w)) m) as [m1 Hm1].
  { apply Forall_forall. intros j Hj. apply in_seq in Hj. lia. }
  unfold mark_window at 1. rewrite Hm1. cbn [bind].
  apply setitem_loop in Hm1. destruct Hm1 as (Hlen1 & _).
  apply IH. rewrite Hlen1. assumption.
Qed.

(** *** The sliding windows *)

Lemma max_from_spec (l : list Q) (best : Q) :
  In (max_from best l) (best :: l) /\
  forall v, In v (best :: l) -> (v <= max_from best l)%Q.
Proof.
  revert best. induction l as [| x l IH]; intros best; simpl.
  - split; [auto |]. intros v [<- | []]. apply Qle_refl.
  - destruct (Qlt_bool best x) eqn:E.
    + apply Qlt_bool_true in E. destruct (IH x) as [Hin Hle]. split.
      * simpl in Hin. tauto.
      * intros v [<- | Hv]; [| apply Hle; assumption].
        apply Qle_trans with x; [apply Qlt_le_weak; assumption | apply Hle; left; reflexivity].
    + apply Qlt_bool_false in E. destruct (IH best) as [Hin Hle]. split.
      * simpl in Hin. tauto.
      * intros v [<- | [<- | Hv]].
        -- apply Hle. left. reflexivity.
        -- apply Qle_trans with best; [assumption | apply Hle; left; reflexivity].
        -- apply Hle. right. assumption.
Qed.

Lemma py_max_spec (l : list Q) (m : Q) :
  py_max l = Ok m -> In m l /\ forall v, In v l -> (v <= m)%Q.
Proof.
  destruct l as [| x r]; simpl; intros H; inversion H; subst.
  apply max_from_spec.
Qed.

Lemma firstn_incl {A} (n : nat) (l : list A) (x : A) : In x (firstn n l) -> In x l.
Proof.
  intros H. rewrite <- (firstn_skipn n l). apply in_or_app. left. assumption.
Qed.

Lemma skipn_incl {A} (n : nat) (l : list A) (x : A) : In x (skipn n l) -> In x l.
Proof.
  intros H. rewrite <- (firstn_skipn n l). apply in_or_app. right. assumption.
Qed.

Lemma flat_map_ext_In {A B} (f g : A -> list B) (l : list A) :
  (forall a, In a l -> f a = g a) -> flat_map f l = flat_map g l.
Proof.
  induction l as [| a l IH]; simpl; intros H; [reflexivity |].
  rewrite H by (left; reflexivity). rewrite IH by (intros; apply H; right; assumption).
  reflexivity.
Qed.

Lemma slice_incl {A} (l : list A) (a b : Z) (x : A) : In x (slice l a b) -> In x l.
Proof.
  unfold slice. intros H. apply firstn_incl in H.
  eapply skipn_incl. eassumption.
Qed.

Lemma slice_window {A} (l : list A) (k : nat) (ws : Z) :
  (1 <= ws)%Z -> (Z.of_nat k + ws <= Z.of_nat (length l))%Z ->
  slice l (Z.of_nat k) (Z.of_nat k + ws) = firstn (Z.to_nat ws) (skipn k l).
Proof.
  intros Hws Hk. unfold slice, slice_bound.
  destruct (Z.of_nat k <? 0)%Z eqn:E1; [apply Z.ltb_lt in E1; lia |].
  destruct (Z.of_nat k + ws <? 0)%Z eqn:E2; [apply Z.ltb_lt in E2; lia |].
  rewrite Nat2Z.id.
  replace (Nat.min k (length l)) with k by lia.
  replace (Nat.min (Z.to_nat (Z.of_nat k + ws)) (length l)) with (k + Z.to_nat ws) by lia.
  f_equal. lia.
Qed.

Lemma valid_indices_lt (y : list Q) (od_min : Q) :
  Forall (fun i => i < length y) (valid_indices_of y od_min).
Proof.
  apply Forall_forall. intros i Hi. apply indices_where_bounds in Hi. lia.
Qed.

Lemma valid_indices_count (y : list Q) (od_min : Q) :
  length (valid_indices_of y od_min) = count_valid y od_min.
Proof. apply BaselineFacts.indices_where_count. Qed.

Lemma valid_indices_In (y : list Q) (od_min : Q) (i : nat) :
  In i (valid_indices_of y od_min) <->
  i < length y /\ Qle_bool od_min (nth i y 0%Q) = true.
Proof.
  unfold valid_indices_of. rewrite (indices_where_In _ y 0%Q 0 i).
  rewrite Nat.sub_0_r. split; intros [H1 H2]; split; auto; lia.
Qed.

(** Dividing by a positive plateau and comparing with the fraction is
    comparing with the fraction of the plateau. *)
Lemma plateau_test (mx frac K : Q) :
  (0 < K)%Q -> Qle_bool frac (mx / K) = negb (Qlt_bool mx (frac * K)).
Proof.
  intros HK. unfold Qlt_bool. rewrite negb_involutive.
  apply eq_true_iff_eq. rewrite !Qle_bool_iff.
  assert (Hq : (mx / K * K == mx)%Q) by (field; lra).
  revert Hq. generalize (mx / K)%Q. intros q Hq. split; intros H.
  - nra.
  - apply Qnot_lt_le. intros Hlt. assert (q * K < frac * K)%Q by nra. lra.
Qed.

Lemma positive_test (Y : list Q) :
  existsb (fun val => Qle_bool val 0) Y = negb (forallb (fun val => Qlt_bool 0 val) Y).
Proof.
  induction Y as [| v Y IH]; simpl; [reflexivity |].
  rewrite IH. unfold Qlt_bool. destruct (Qle_bool v 0); reflexivity.
Qed.

Lemma getlast_nonempty {A} (l : list A) (d : A) : l <> [] -> getlast l = Ok (last l d).
Proof.
  intros Hne. unfold getlast.
  destruct (exists_last Hne) as (l' & a & ->).
  rewrite last_last. unfold getitem. rewrite length_app. simpl.
  replace (length l' + 1 - 1) with (length l') by lia.
  rewrite nth_error_app2 by lia. rewrite Nat.sub_diag. reflexivity.
Qed.

Lemma getitem_head {A} (l : list A) (d : A) : l <> [] -> getitem l 0 = Ok (hd d l).
Proof. destruct l; [congruence | reflexivity]. Qed.

Section Windows.

Variable ln : Q -> Q.

(** One turn of the window loop adds the window when it qualifies. *)
Lemma window_step_value (t y : list Q) (valid : list nat) (ws : Z)
  (r2_min frac K : Q) (good : list window) (k : Z) :
  (0 < K)%Q ->
  slice valid k (k + ws) <> [] ->
  Forall (fun i => i < length t) (slice valid k (k + ws)) ->
  Forall (fun i => i < length y) (slice valid k (k + ws)) ->
  window_step ln t y valid ws r2_min frac K good k
  = Ok (good ++ opt_list (qualifies ln t y r2_min frac K (slice valid k (k + ws)))).
Proof.
  intros HK Hne Ht Hy. unfold window_step, qualifies.
  set (idxs := slice valid k (k + ws)) in *.
  rewrite (mapM_getitem t 0%Q idxs Ht). cbn [bind].
  rewrite (mapM_getitem y 0%Q idxs Hy). cbn [bind].
  set (T := map (fun i => nth i t 0%Q) idxs).
  set (Y := map (fun i => nth i y 0%Q) idxs).
  assert (HY : py_max Y = Ok (max_from (hd 0%Q Y) (tl Y))).
  { unfold Y. destruct idxs; [congruence | reflexivity]. }
  rewrite HY. cbn [bind].
  rewrite qdiv_ok.
  2: { destruct (Qeq_bool K 0) eqn:E; [| reflexivity].
       apply Qeq_bool_iff in E. lra. }
  cbn [bind]. rewrite (plateau_test _ _ _ HK), positive_test, regression_total.
  cbn [bind].
  destruct (regression_value T (map ln Y)) as [[[slope |] intercept] [r2 |]];
    destruct (Qlt_bool (max_from (hd 0%Q Y) (tl Y)) (frac * K));
    destruct (forallb (fun val => Qlt_bool 0 val) Y);
    cbn [negb andb opt_list]; rewrite ?app_nil_r; try reflexivity.
  unfold Qlt_bool at 2. destruct (Qle_bool slope 0); cbn [negb andb opt_list];
    rewrite ?app_nil_r; [reflexivity |].
  unfold Qlt_bool. destruct (Qle_bool r2_min r2); cbn [negb andb opt_list];
    rewrite ?app_nil_r; [| reflexivity].
  rewrite (getitem_head idxs 0 Hne). cbn [bind].
  rewrite (getlast_nonempty idxs 0 Hne). reflexivity.
Qed.

Lemma foldM_collect {A B} (step : list B -> A -> result (list B)) (f : A -> list B)
  (ks : list A) (acc : list B) :
  (forall k acc', In k ks -> step acc' k = Ok (acc' ++ f k)) ->
  foldM step ks acc = Ok (acc ++ flat_map f ks).
Proof.
  revert acc. induction ks as [| k ks IH]; intros acc H; simpl.
  - rewrite app_nil_r. reflexivity.
  - rewrite H by (left; reflexivity). cbn [bind].
    rewrite IH by (intros; apply H; right; assumption).
    rewrite app_assoc. reflexivity.
Qed.

(** With a positive window size and a positive plateau, the loop collects
    exactly the qualifying windows. *)
Lemma scan_windows_value (t y : list Q) (od_min : Q) (ws : Z) (r2_min frac K : Q) :
  length t = length y -> (1 <= ws)%Z -> (0 < K)%Q ->
  scan_windows ln t y (valid_indices_of y od_min) ws r2_min frac K
  = Ok (qualifying_windows ln t y (Z.to_nat ws) r2_min od_min frac K).
Proof.
  intros Hlen Hws HK. unfold scan_windows, qualifying_windows.
  set (valid := valid_indices_of y od_min).
  unfold range. rewrite Z.sub_0_r.
  replace (Z.to_nat (Z.of_nat (length valid) - ws + 1))
    with (length valid + 1 - Z.to_nat ws) by lia.
  rewrite (foldM_collect _
             (fun k => opt_list (qualifies ln t y r2_min frac K (slice valid k (k + ws))))).
  - simpl app. f_equal. rewrite flat_map_concat_map, map_map, <- flat_map_concat_map.
    apply flat_map_ext_In. intros k Hk. apply in_seq in Hk.
    f_equal. f_equal. simpl. apply slice_window; lia.
  - intros k acc Hk. apply in_map_iff in Hk. destruct Hk as (i & <- & Hi).
    apply in_seq in Hi. simpl.
    assert (Hsl : slice valid (Z.of_nat i) (Z.of_nat i + ws)
                  = firstn (Z.to_nat ws) (skipn i valid)) by (apply slice_window; lia).
    assert (Hin : Forall (fun j => j < length y) (slice valid (Z.of_nat i) (Z.of_nat i + ws))).
    { apply Forall_forall. intros j Hj. apply slice_incl in Hj.
      pose proof (valid_indices_lt y od_min) as Hv. rewrite Forall_forall in Hv. auto. }
    apply window_step_value; try assumption.
    + rewrite Hsl. intros E. apply (f_equal (@length nat)) in E.
      rewrite length_firstn, length_skipn in E. simpl in E. lia.
    + rewrite Hlen. assumption.
Qed.

(** Whatever the options, a window the loop collects starts and ends at
    valid indices. *)
Lemma window_step_inv (t y : list Q) (valid : list nat) (ws : Z)
  (r2_min frac K : Q) (good good' : list window) (k : Z) :
  window_step ln t y valid ws r2_min frac K good k = Ok good' ->
  good' = good \/
  exists w, good' = good ++ [w] /\ In (w_start w) valid /\ In (w_end w) valid.
Proof.
  unfold window_step. set (idxs := slice valid k (k + ws)). intros H.
  inv_bind H as T HT. inv_bind H as Y HY. inv_bind H as mx Hmx. inv_bind H as ratio Hr.
  destruct (Qle_bool frac ratio); [inversion H; auto |].
  destruct (existsb _ Y); [inversion H; auto |].
  inv_bind H as reg Hreg.
  destruct reg as [[[slope |] intercept] [r2 |]]; try (inversion H; auto; fail).
  destruct (Qle_bool slope 0); [inversion H; auto |].
  destruct (Qlt_bool r2 r2_min); [inversion H; auto |].
  inv_bind H as first Hfirst. inv_bind H as lst Hlast. inversion H; subst good'.
  right. exists (first, lst, slope, r2). split; [reflexivity |].
  unfold w_start, w_end. cbn [fst snd].
  apply (getitem_ok idxs 0 first 0) in Hfirst. destruct Hfirst as [Hlen0 Hf].
  unfold getlast in Hlast. apply (getitem_ok idxs _ lst 0) in Hlast.
  destruct Hlast as [Hlen1 Hl].
  assert (Hf_in : In first idxs) by (rewrite <- Hf; apply nth_In; assumption).
  assert (Hl_in : In lst idxs) by (rewrite <- Hl; apply nth_In; assumption).
  split; eapply slice_incl; eassumption.
Qed.

Lemma scan_windows_inv (t y : list Q) (valid : list nat) (ws : Z)
  (r2_min frac K : Q) (good : list window) :
  scan_windows ln t y valid ws r2_min frac K = Ok good ->
  Forall (fun w => In (w_start w) valid /\ In (w_end w) valid) good.
Proof.
  unfold scan_windows.
  generalize (range 0 (Z.of_nat (length valid) - ws + 1)). intros ks.
  assert (Hgen : forall acc,
             Forall (fun w => In (w_start w) valid /\ In (w_end w) valid) acc ->
             foldM (window_step ln t y valid ws r2_min frac K) ks acc = Ok good ->
             Forall (fun w => In (w_start w) valid /\ In (w_end w) valid) good).
  { induction ks as [| k ks IH]; simpl; intros acc Hacc H.
    - inversion H; subst. assumption.
    - inv_bind H as acc' Hstep. apply window_step_inv in Hstep.
      destruct Hstep as [-> | (w & -> & Hs & He)]; [eapply IH; eassumption |].
      eapply IH; [| eassumption]. apply Forall_app. split; [assumption |].
      constructor; [auto | constructor]. }
  apply Hgen. constructor.
Qed.

End Windows.

(** *** Selection and run extraction *)

Lemma select_windows_inv (good : list window) (rmin rmax mu_max : Q) (lw : list window) :
  select_windows good rmin rmax = Ok (mu_max, lw) ->
  py_max (map w_mu good) = Ok mu_max /\ lw <> [] /\ incl lw good.
Proof.
  unfold select_windows. intros H. inv_bind H as m Hm.
  set (sel := filter _ good) in H.
  destruct (is_nil sel) eqn:Enil.
  - inv_bind H as w Hw. inversion H; subst.
    split; [assumption |]. split; [discriminate |].
    intros x [<- | []]. destruct good as [| g good]; [discriminate |].
    simpl in Hw. inversion Hw.
    clear. revert g. induction good as [| x good IH]; intros g; simpl; [auto |].
    destruct (Qlt_bool (w_mu g) (w_mu x)).
    + destruct (IH x) as [E | Hin]; [right; left; assumption | right; right; assumption].
    + destruct (IH g) as [E | Hin]; [left; assumption | right; right; assumption].
  - inversion H; subst. apply is_nil_false in Enil.
    split; [assumption |]. split; [assumption |].
    intros x Hx. apply filter_In in Hx. tauto.
Qed.

Lemma select_windows_total (good : list window) (rmin rmax : Q) :
  good <> [] ->
  exists mu_max lw, select_windows good rmin rmax = Ok (mu_max, lw).
Proof.
  intros Hne. unfold select_windows.
  destruct good as [| g good]; [congruence |].
  simpl py_max. cbn [bind].
  destruct (is_nil _); [simpl py_max_byQ; cbn [bind] |]; eauto.
Qed.

Lemma extract_run_inv (n : nat) (lw : list window) (mu_max K : Q)
  (li : list nat) (a b c : option Q) :
  extract_run n lw mu_max K = Ok (li, a, b, c) ->
  a = Some mu_max /\ c = Some K /\
  exists mask,
    log_mask n lw = Ok mask /\
    ((li = [] /\ b = None) \/ (In li (log_runs mask) /\ exists mm, b = Some mm)).
Proof.
  unfold extract_run. intros H. inv_bind H as mask Hmask.
  destruct (is_nil (log_runs mask)) eqn:Enil.
  - inversion H; subst. repeat split. exists mask. auto.
  - inv_bind H as log_indices Hli. inv_bind H as mus Hmus. inv_bind H as mu_mean Hmean.
    inversion H; subst. repeat split. exists mask. split; [assumption |].
    right. split; [eapply BaselineFacts.py_max_by_In; eassumption | eauto].
Qed.

Lemma extract_run_total (n : nat) (lw : list window) (mu_max K : Q) :
  Forall (fun w => w_end w < n) lw ->
  exists li mm, extract_run n lw mu_max K = Ok (li, Some mu_max, mm, Some K).
Proof.
  intros Hlw. unfold extract_run, log_mask.
  destruct (log_mask_total lw (repeat false n)) as [mask Hmask].
  { rewrite repeat_length. assumption. }
  rewrite Hmask. cbn [bind].
  destruct (is_nil (log_runs mask)) eqn:Enil; [eauto |].
  apply is_nil_false in Enil.
  destruct (py_max_by (@length nat) (log_runs mask)) as [li | e] eqn:Hli;
    [| destruct (log_runs mask); [congruence | discriminate]].
  cbn [bind].
  pose proof (BaselineFacts.py_max_by_In _ _ _ Hli) as Hin.
  pose proof (log_runs_ok mask) as Hok. rewrite Forall_forall in Hok.
  destruct (run_ok_block mask li (Hok _ Hin)) as [_ Hne].
  rewrite (filterM_pure _ (fun w : window =>
             if w_end w <? hd 0 li then false else negb (last li 0 <? w_start w))).
  2: { apply Forall_forall. intros w _. rewrite (getitem_head li 0 Hne). cbn [bind].
       destruct (w_end w <? hd 0 li); [reflexivity |].
       rewrite (getlast_nonempty li 0 Hne). reflexivity. }
  cbn [bind].
  set (mus := map w_mu _).
  destruct (is_nil mus) eqn:Emus; cbn [bind]; [eauto |].
  apply is_nil_false in Emus.
  rewrite qdiv_ok by (apply inject_nat_nonzero; destruct mus; [congruence | simpl; lia]).
  cbn [bind]. eauto.
Qed.

(** *** [detect_log_phase] *)

Lemma plateau_value (y : list Q) (od_min : Q) :
  plateau y (valid_indices_of y od_min)
  = if is_nil (valid_indices_of y od_min) then Ok None
    else K <- plateau_estimate y od_min ;; Ok (Some K).
Proof.
  unfold plateau, plateau_estimate. set (valid := valid_indices_of y od_min).
  assert (Htail : (if 5 <=? length valid then skipn (length valid - 5) valid else valid)
                  = skipn (length valid - 5) valid).
  { destruct (5 <=? length valid) eqn:E; [reflexivity |].
    apply Nat.leb_gt in E. replace (length valid - 5) with 0 by lia. reflexivity. }
  rewrite Htail.
  assert (Hlt : Forall (fun i => i < length y) (skipn (length valid - 5) valid)).
  { apply Forall_forall. intros i Hi. apply skipn_incl in Hi.
    pose proof (valid_indices_lt y od_min) as Hv. rewrite Forall_forall in Hv. auto. }
  rewrite (mapM_getitem y 0%Q _ Hlt). cbn [bind].
  destruct valid as [| v valid'] eqn:Ev; [reflexivity |].
  cbn [is_nil].
  destruct (skipn (length (v :: valid') - 5) (v :: valid')) as [| a r] eqn:Es.
  - exfalso. apply (f_equal (@length nat)) in Es. rewrite length_skipn in Es.
    cbn [length] in Es. lia.
  - reflexivity.
Qed.

Lemma valid_indices_none (y : list Q) (od_min : Q) :
  Forall (fun v => v < od_min)%Q y -> valid_indices_of y od_min = [].
Proof.
  unfold valid_indices_of. generalize 0.
  induction y as [| v y IH]; intros n H; simpl; [reflexivity |].
  inversion H as [| ? ? Hv Hrest]; subst.
  destruct (Qle_bool od_min v) eqn:E.
  - apply Qle_bool_iff in E. exfalso. apply (Qlt_not_le _ _ Hv E).
  - apply IH. assumption.
Qed.

Section Engine.

Variable ln : Q -> Q.


(** C4, as amended.  [detect_log_phase] returns the empty result with
    [mu_max], [mu_mean] and [K_est] unknown, and raises nothing, when fewer
    than [window_size + 1] points have a value of at least [od_min], and when
    the plateau estimate (the median of the last up-to-five valid values) is
    not positive; in particular it does so on a series whose values all stay
    strictly below [od_min]. *)
Theorem log_phase_insufficient_data (t y : list Q) (ws : Z)
  (r2_min od_min frac rmin rmax : Q) :
  ((Z.of_nat (count_valid y od_min) < ws + 1)%Z ->
   detect_log_phase ln t y ws r2_min od_min frac rmin rmax = Ok ([], None, None, None)) /\
  (forall K, plateau_estimate y od_min = Ok K -> (K <= 0)%Q ->
   detect_log_phase ln t y ws r2_min od_min frac rmin rmax = Ok ([], None, None, None)) /\
  (Forall (fun v => v < od_min)%Q y ->
   detect_log_phase ln t y ws r2_min od_min frac rmin rmax = Ok ([], None, None, None)).
Proof.
  unfold detect_log_phase. rewrite valid_indices_count, plateau_value.
  destruct (length t =? 0); [repeat split; reflexivity |].
  destruct (Z.of_nat (count_valid y od_min) <? ws + 1)%Z eqn:Eg;
    [repeat split; reflexivity |].
  apply Z.ltb_ge in Eg.
  split; [intros H; lia |]. split.
  - intros K HK Hle. destruct (is_nil _); [reflexivity |].
    rewrite HK. cbn [bind]. rewrite (proj2 (Qle_bool_iff K 0) Hle). reflexivity.
  - intros Hall. rewrite (valid_indices_none y od_min Hall). reflexivity.
Qed.



End Engine.

(** *** The properties on sample series *)



(** C4 as first stated fails on a series that never exceeds [od_min] but
    reaches it: every point is valid, and the plateau estimate is returned. *)
Lemma floor_series_has_plateau :
  Forall (fun v => v <= DEFAULT_OD_MIN)%Q Samples.y_floor /\
  detect_log_phase ln_series Samples.t_floor Samples.y_floor DEFAULT_WINDOW_SIZE
                   DEFAULT_R2_MIN DEFAULT_OD_MIN DEFAULT_FRAC_K_MAX
                   DEFAULT_MU_REL_MIN DEFAULT_MU_REL_MAX
  = Ok ([], None, None, Some (1 # 100)%Q).
Proof.
  split; [| vm_compute; reflexivity].
  repeat constructor; discriminate.
Qed.

Lemma log_phase_insufficient_data_witness :
  (Z.of_nat (count_valid Samples.y_gap 1) < DEFAULT_WINDOW_SIZE + 1)%Z /\
  detect_log_phase ln_series Samples.t_gap Samples.y_gap DEFAULT_WINDOW_SIZE
                   DEFAULT_R2_MIN 1 DEFAULT_FRAC_K_MAX
                   DEFAULT_MU_REL_MIN DEFAULT_MU_REL_MAX
  = Ok ([], None, None, None).
Proof.
  assert (H : (Z.of_nat (count_valid Samples.y_gap 1) < DEFAULT_WINDOW_SIZE + 1)%Z)
    by (vm_compute; reflexivity).
  split; [exact H |].
  exact (proj1 (log_phase_insufficient_data ln_series Samples.t_gap Samples.y_gap
                  DEFAULT_WINDOW_SIZE DEFAULT_R2_MIN 1 DEFAULT_FRAC_K_MAX
                  DEFAULT_MU_REL_MIN DEFAULT_MU_REL_MAX) H).
Defined.


End LogPhaseFacts.

(** * The regression and the window tests *)

Module RegressionFacts.

Import PyFacts BaselineFacts LogPhaseFacts.
Import Baseline LogPhase.












End RegressionFacts.

(** * Properties of the two engines together *)

Module Engines.

Import PyFacts BaselineFacts LogPhaseFacts RegressionFacts.
Import Baseline LogPhase.




(** *** The properties on sample series *)








(** What the unchecked options do on richer data: a zero bin width reaches the
    division of the histogram step, and a zero window size reaches [max] of an
    empty window. *)
Remark zero_options_fault_inside :
  find_baseline_points MONO_EPS_02 MONO_T_MAX_02 Samples.t_split Samples.y_split
                       T_PRE 0 TOL MIN_CONSECUTIVE
    = Raise ZeroDivisionError /\
  detect_log_phase ln_series Samples.t_gap Samples.y_gap 0
                   DEFAULT_R2_MIN 1 DEFAULT_FRAC_K_MAX
                   DEFAULT_MU_REL_MIN DEFAULT_MU_REL_MAX
    = Raise ValueError.
Proof. split; vm_compute; reflexivity. Qed.

End Engines.

(** * More about the median *)

Module MedianFacts.

Import PyFacts BaselineFacts.

Lemma insert_Q_In (x : Q) (l : list Q) (v : Q) : In v (insert_Q x l) <-> v = x \/ In v l.
Proof.
  induction l as [| h r IH]; cbn [insert_Q].
  - simpl. intuition.
  - destruct (Qle_bool x h); cbn [In]; [intuition |].
    rewrite IH. cbn [In]. intuition.
Qed.

Lemma sorted_Q_In (l : list Q) (v : Q) : In v (sorted_Q l) <-> In v l.
Proof.
  induction l as [| x r IH]; cbn [sorted_Q]; [reflexivity |].
  rewrite insert_Q_In, IH. cbn [In]. intuition.
Qed.

(** The median lies wherever all the data lie: it is a datum or the mean of
    two of them. *)
Lemma median_cases (l : list Q) (m : Q) :
  median l = Ok m ->
  In m l \/ exists a b, In a l /\ In b l /\ m = ((a + b) / 2)%Q.
Proof.
  unfold median. intros H.
  destruct (length (sorted_Q l) =? 0); [discriminate |].
  destruct (Nat.odd (length (sorted_Q l))).
  - left. apply (getitem_ok _ _ _ 0%Q) in H. destruct H as [Hlt <-].
    apply sorted_Q_In. apply nth_In. exact Hlt.
  - right. inv_bind H as a Ha. inv_bind H as b Hb. injection H as <-.
    apply (getitem_ok _ _ _ 0%Q) in Ha. destruct Ha as [Hlta <-].
    apply (getitem_ok _ _ _ 0%Q) in Hb. destruct Hb as [Hltb <-].
    eexists _, _. split; [| split; [| reflexivity]];
      apply sorted_Q_In; apply nth_In; assumption.
Qed.

Lemma median_lower (l : list Q) (lo m : Q) :
  (forall v, In v l -> lo <= v)%Q -> median l = Ok m -> (lo <= m)%Q.
Proof.
  intros Hall H. destruct (median_cases l m H) as [Hin | (a & b & Ha & Hb & ->)].
  - apply Hall. exact Hin.
  - pose proof (Hall a Ha). pose proof (Hall b Hb).
    apply Qle_shift_div_l; [reflexivity | lra].
Qed.


End MedianFacts.

(** * More properties of the baseline engine *)

Module BaselineExtras.

Import PyFacts BaselineFacts MedianFacts.
Import Baseline.





(** What the two versions hand back is what the shared first part chose. *)
Lemma find_baseline_points_stage (eps tmax : Q) (t y : list Q) (t_pre bw tol : Q) (mc : Z)
  (b : list nat) (level : option Q) (ex : list nat) :
  find_baseline_points eps tmax t y t_pre bw tol mc = Ok (b, level, ex) ->
  select_baseline t y t_pre bw tol mc = Ok (Return (b, level, ex)) \/
  exists lvl exp, select_baseline t y t_pre bw tol mc = Ok (Continue b lvl exp) /\
                  level = Some lvl.
Proof.
  unfold find_baseline_points. intros H. inv_bind H as st Hst.
  destruct st as [out | b' lvl exp].
  - injection H as ->. left. exact Hst.
  - right. exists lvl, exp.
    destruct (is_nil b').
    + injection H as -> <- _. split; [exact Hst | reflexivity].
    + inv_bind H as s Hs. inv_bind H as e He. injection H as -> <- _.
      split; [exact Hst | reflexivity].
Qed.

Lemma find_baseline_points_test0_stage (eps : Q) (t y : list Q) (t_pre bw tol : Q) (mc : Z)
  (b : list nat) (level : option Q) (ex : list nat) :
  find_baseline_points_test0 eps t y t_pre bw tol mc = Ok (b, level, ex) ->
  select_baseline t y t_pre bw tol mc = Ok (Return (b, level, ex)) \/
  exists lvl exp,
    select_baseline t y t_pre bw tol mc = Ok (Continue b lvl exp) /\
    level = Some lvl /\
    ex = sorted (fst (fold_left (clamp_step eps) (combine (seq 0 (length y)) y)
                                (set_of exp, None))).
Proof.
  unfold find_baseline_points_test0. intros H. inv_bind H as st Hst.
  destruct st as [out | b' lvl exp].
  - injection H as ->. left. exact Hst.
  - right. exists lvl, exp.
    destruct (fold_left (clamp_step eps) (combine (seq 0 (length y)) y) (set_of exp, None))
      as [e p] eqn:E.
    injection H as -> <- <-. split; [exact Hst |]. split; reflexivity.
Qed.

Lemma select_baseline_members (t y : list Q) (t_pre bw tol : Q) (mc : Z)
  (b : list nat) (lvl : Q) (exp : list nat) :
  select_baseline t y t_pre bw tol mc = Ok (Continue b lvl exp) ->
  incl b (candidates t y t_pre lvl tol) /\
  Forall (fun i => i < length y) (pre_indices t t_pre).
Proof.
  intros H. apply select_baseline_inv in H.
  destruct H as [[H _] | (lvl' & _ & _ & Hy & _ & _ & [[_ H] | (b' & Hne & Hch & H)])];
    try discriminate.
  injection H as Hb Hl _. subst b' lvl'. split; [| exact Hy].
  intros i Hi. destruct (candidate_runs_good (candidates t y t_pre lvl tol)) as [_ Hcat].
  destruct Hch as [(Hin & _) | (_ & ->)]; [| exact Hi].
  rewrite <- Hcat. apply in_concat. exists b. split; assumption.
Qed.

Lemma select_baseline_return_empty (t y : list Q) (t_pre bw tol : Q) (mc : Z)
  (b : list nat) (level : option Q) (ex : list nat) :
  select_baseline t y t_pre bw tol mc = Ok (Return (b, level, ex)) -> b = [] /\ ex = [].
Proof.
  intros H. apply select_baseline_inv in H.
  destruct H as [[H _] | (lvl' & _ & _ & Hy & _ & _ & [[_ H] | (b' & Hne & Hch & H)])];
    try discriminate; injection H as -> _ ->; split; reflexivity.
Qed.

Lemma candidates_In (t y : list Q) (t_pre lvl tol : Q) (i : nat) :
  In i (candidates t y t_pre lvl tol) <->
  i < length t /\ (nth i t 0 <= t_pre)%Q /\ (Qabs (nth i y 0 - lvl) <= tol)%Q.
Proof.
  unfold candidates, pre_indices. rewrite filter_In, (indices_where_In _ t 0%Q 0 i).
  rewrite Nat.sub_0_r, !Qle_bool_iff. intuition lia.
Qed.

(** X2.  Every index handed back as a baseline point, by either version, is a
    point of the pre-window whose value is within [tol] of the level. *)
Theorem baseline_points_are_candidates (eps tmax eps0 : Q) (t y : list Q)
  (t_pre bw tol : Q) (mc : Z) (b : list nat) (level : option Q) (ex : list nat) :
  find_baseline_points eps tmax t y t_pre bw tol mc = Ok (b, level, ex) \/
  find_baseline_points_test0 eps0 t y t_pre bw tol mc = Ok (b, level, ex) ->
  forall i, In i b ->
    i < length t /\ i < length y /\ (nth i t 0 <= t_pre)%Q /\
    exists lvl, level = Some lvl /\ (Qabs (nth i y 0 - lvl) <= tol)%Q.
Proof.
  intros H i Hi.
  assert (Hst : select_baseline t y t_pre bw tol mc = Ok (Return (b, level, ex)) \/
                exists lvl exp, select_baseline t y t_pre bw tol mc = Ok (Continue b lvl exp) /\
                                level = Some lvl).
  { destruct H as [H | H].
    - apply find_baseline_points_stage in H. exact H.
    - apply find_baseline_points_test0_stage in H.
      destruct H as [H | (lvl & exp & H & Hl & _)]; [left; exact H |].
      right. exists lvl, exp. split; assumption. }
  destruct Hst as [Hst | (lvl & exp & Hst & ->)].
  - apply select_baseline_return_empty in Hst. destruct Hst as [-> _]. destruct Hi.
  - apply select_baseline_members in Hst. destruct Hst as [Hincl Hy].
    pose proof (Hincl i Hi) as Hc.
    assert (Hpre : In i (pre_indices t t_pre)).
    { unfold candidates in Hc. apply filter_In in Hc. tauto. }
    apply candidates_In in Hc. destruct Hc as (Hlt & Ht & Hv).
    rewrite Forall_forall in Hy.
    split; [exact Hlt |]. split; [apply Hy; exact Hpre |]. split; [exact Ht |].
    exists lvl. split; [reflexivity | exact Hv].
Qed.

Lemma baseline_points_are_candidates_witness :
  find_baseline_points MONO_EPS_02 MONO_T_MAX_02 Samples.t_spike Samples.y_spike
                       T_PRE BIN_WIDTH TOL MIN_CONSECUTIVE
    = Ok ([0; 1; 2], Some (50 # 1000)%Q, [5]) /\
  forall i, In i [0; 1; 2] ->
    i < length Samples.t_spike /\ i < length Samples.y_spike /\
    (nth i Samples.t_spike 0 <= T_PRE)%Q /\
    exists lvl, Some (50 # 1000)%Q = Some lvl /\
                (Qabs (nth i Samples.y_spike 0 - lvl) <= TOL)%Q.
Proof.
  assert (H : find_baseline_points MONO_EPS_02 MONO_T_MAX_02 Samples.t_spike Samples.y_spike
                                   T_PRE BIN_WIDTH TOL MIN_CONSECUTIVE
              = Ok ([0; 1; 2], Some (50 # 1000)%Q, [5])) by (vm_compute; reflexivity).
  split; [exact H |].
  apply (baseline_points_are_candidates MONO_EPS_02 MONO_T_MAX_02 MONO_EPS_0
           Samples.t_spike Samples.y_spike T_PRE BIN_WIDTH TOL MIN_CONSECUTIVE
           [0; 1; 2] (Some (50 # 1000)%Q) [5]).
  left. exact H.
Defined.











Lemma subseq_nil_l {A} (l : list A) : subseq [] l.
Proof. induction l; constructor; assumption. Qed.

Lemma subseq_single {A} (x : A) (l : list A) : In x l -> subseq [x] l.
Proof.
  induction l as [| a r IH]; intros H; [destruct H |].
  destruct H as [-> | H].
  - apply subseq_take. apply subseq_nil_l.
  - apply subseq_skip. apply IH. exact H.
Qed.

Lemma pre_excluded_In (t y : list Q) (t_pre lvl tol : Q) (start i : nat) :
  In i (pre_excluded t y t_pre lvl tol start) <->
  i < length t /\ (nth i t 0 <= t_pre)%Q /\ i < start /\
  (tol < Qabs (nth i y 0 - lvl))%Q.
Proof.
  unfold pre_excluded, pre_indices.
  rewrite filter_In, (indices_where_In _ t 0%Q 0 i), Nat.sub_0_r, andb_true_iff,
    Nat.ltb_lt, Qle_bool_iff, Qlt_bool_true.
  intuition lia.
Qed.

(** X4.  What the cleanup of blank-selection-test02.py can exclude: an excluded
    index is in range and is either a pre-window point before the baseline
    that is off the level, or a point from the first baseline index on whose
    time is at most [MONO_T_MAX]; and of the latter points at least one is
    kept. *)
Theorem cleanup_exclusions_are_bounded (eps tmax : Q) (t y : list Q) (t_pre bw tol : Q)
  (mc : Z) (b : list nat) (level : option Q) (ex : list nat) :
  find_baseline_points eps tmax t y t_pre bw tol mc = Ok (b, level, ex) ->
  (forall i, In i ex ->
     i < length t /\ i < length y /\
     exists lvl, level = Some lvl /\
       ((i < hd 0 b /\ (nth i t 0 <= t_pre)%Q /\ (tol < Qabs (nth i y 0 - lvl))%Q) \/
        (hd 0 b <= i /\ (nth i t 0 <= tmax)%Q))) /\
  (b <> [] ->
   forall i, hd 0 b <= i < length y -> (nth i t 0 <= tmax)%Q ->
   exists j, hd 0 b <= j < length y /\ (nth j t 0 <= tmax)%Q /\ ~ In j ex).
Proof.
  intros H. pose proof (find_baseline_points_stage _ _ _ _ _ _ _ _ _ _ _ H) as Hst.
  apply find_baseline_points_inv in H.
  destruct H as [(-> & -> & _) | (lvl & excl' & -> & _ & _ & _ & Hb & _ & Hclean & ->)].
  { split; [intros i [] | intros Hb; contradiction]. }
  destruct Hst as [Hst | (lvl' & exp & Hst & Hl)].
  { apply select_baseline_return_empty in Hst. destruct Hst as [-> _]. contradiction. }
  injection Hl as <-. apply select_baseline_members in Hst. destruct Hst as [_ Hy].
  rewrite Forall_forall in Hy.
  apply mono_cleanup_inv in Hclean.
  destruct Hclean as (Ht & kept & Hsub & Hchain & Hbest & Hin & _).
  rewrite cleanup_window_set_of in Hsub, Hbest, Hin.
  rewrite Forall_forall in Ht.
  split.
  - intros i Hi. rewrite sorted_In in Hi. apply Hin in Hi.
    destruct Hi as [Hi | [Hi _]].
    + rewrite set_of_In in Hi.
      assert (Hpre : In i (pre_indices t t_pre)).
      { unfold pre_excluded in Hi. apply filter_In in Hi. tauto. }
      apply pre_excluded_In in Hi. destruct Hi as (Hlt & Htp & Hs & Hv).
      split; [exact Hlt |]. split; [apply Hy; exact Hpre |].
      exists lvl. split; [reflexivity |]. left. tauto.
    + apply cleanup_window_In in Hi. destruct Hi as (Hr & Htm & _).
      apply Qle_bool_iff in Htm.
      split; [apply Ht; apply in_seq; lia |]. split; [lia |].
      exists lvl. split; [reflexivity |]. right. split; [lia | exact Htm].
  - intros _ i Hi Hti.
    assert (Hw : In i (cleanup_window tmax t y (hd 0 b)
                                      (pre_excluded t y t_pre lvl tol (hd 0 b)))).
    { apply cleanup_window_In. split; [exact Hi |]. split; [apply Qle_bool_iff; exact Hti |].
      rewrite pre_excluded_In. lia. }
    pose proof (Hbest [i] (subseq_single i _ Hw) (chain_short y eps [i] (le_n 1))) as Hlen.
    destruct kept as [| j kr]; [simpl in Hlen; lia |].
    assert (Hj : In j (cleanup_window tmax t y (hd 0 b)
                                      (pre_excluded t y t_pre lvl tol (hd 0 b)))).
    { apply (subseq_In _ _ _ Hsub). left; reflexivity. }
    exists j. pose proof Hj as Hj'. apply cleanup_window_In in Hj'.
    destruct Hj' as (Hr & Htm & Hnex). apply Qle_bool_iff in Htm.
    split; [exact Hr |]. split; [exact Htm |].
    rewrite sorted_In, Hin, set_of_In. intros [Hc | [_ Hc]]; [contradiction |].
    apply Hc. left; reflexivity.
Qed.

Lemma cleanup_exclusions_are_bounded_witness :
  (forall i, In i [5] ->
     i < length Samples.t_spike /\ i < length Samples.y_spike /\
     exists lvl, Some (50 # 1000)%Q = Some lvl /\
       ((i < hd 0 [0; 1; 2] /\ (nth i Samples.t_spike 0 <= T_PRE)%Q /\
         (TOL < Qabs (nth i Samples.y_spike 0 - lvl))%Q) \/
        (hd 0 [0; 1; 2] <= i /\ (nth i Samples.t_spike 0 <= MONO_T_MAX_02)%Q))) /\
  ([0; 1; 2] <> [] ->
   forall i, hd 0 [0; 1; 2] <= i < length Samples.y_spike ->
   (nth i Samples.t_spike 0 <= MONO_T_MAX_02)%Q ->
   exists j, hd 0 [0; 1; 2] <= j < length Samples.y_spike /\
             (nth j Samples.t_spike 0 <= MONO_T_MAX_02)%Q /\ ~ In j [5]).
Proof.
  apply (cleanup_exclusions_are_bounded MONO_EPS_02 MONO_T_MAX_02
           Samples.t_spike Samples.y_spike T_PRE BIN_WIDTH TOL MIN_CONSECUTIVE
           [0; 1; 2] (Some (50 # 1000)%Q) [5]).
  vm_compute. reflexivity.
Defined.





End BaselineExtras.

(** * More properties of the log-phase engine *)

Module LogPhaseExtras.

Import PyFacts BaselineFacts LogPhaseFacts RegressionFacts MedianFacts.
Import LogPhase.








Section EngineExtras.

Variable ln : Q -> Q.

Lemma foldM_raise {A S} (step : S -> A -> result S) (e : exn) (ks : list A) :
  (forall acc k, In k ks -> (exists acc', step acc k = Ok acc') \/ step acc k = Raise e) ->
  (exists k, In k ks /\ forall acc, step acc k = Raise e) ->
  forall acc, foldM step ks acc = Raise e.
Proof.
  induction ks as [| k ks IH]; intros Hall (k0 & Hin & Hk0) acc; [destruct Hin |].
  cbn [foldM]. destruct (Hall acc k (or_introl eq_refl)) as [(acc' & E) | E];
    rewrite E; cbn [bind]; [| reflexivity].
  apply IH.
  - intros a x Hx. apply Hall. right. exact Hx.
  - destruct Hin as [-> | Hin]; [rewrite Hk0 in E; discriminate |].
    exists k0. split; assumption.
Qed.

Lemma window_step_empty (t y : list Q) (valid : list nat) (ws : Z)
  (r2_min frac K : Q) (good : list window) (k : Z) :
  slice valid k (k + ws) = [] ->
  window_step ln t y valid ws r2_min frac K good k = Raise ValueError.
Proof. intros E. unfold window_step. rewrite E. reflexivity. Qed.

Lemma scan_windows_bad_size (t y : list Q) (od_min : Q) (ws : Z) (r2_min frac K : Q) :
  length t = length y -> (ws <= 0)%Z -> (0 < K)%Q ->
  scan_windows ln t y (valid_indices_of y od_min) ws r2_min frac K = Raise ValueError.
Proof.
  intros Hlen Hws HK. unfold scan_windows. set (valid := valid_indices_of y od_min).
  apply foldM_raise.
  - intros acc k _.
    destruct (slice valid k (k + ws)) as [| i r] eqn:E.
    + right. apply window_step_empty. exact E.
    + left. eexists. apply window_step_value; [exact HK | rewrite E; discriminate | |].
      * apply Forall_forall. intros j Hj. apply slice_incl in Hj.
        pose proof (valid_indices_lt y od_min) as Hv. rewrite Forall_forall in Hv.
        rewrite Hlen. apply Hv. exact Hj.
      * apply Forall_forall. intros j Hj. apply slice_incl in Hj.
        pose proof (valid_indices_lt y od_min) as Hv. rewrite Forall_forall in Hv.
        apply Hv. exact Hj.
  - exists (- ws)%Z. split.
    + unfold range. apply in_map_iff. exists (Z.to_nat (- ws)). split; [lia |].
      apply in_seq. lia.
    + intros acc. apply window_step_empty.
      unfold slice. replace (- ws + ws)%Z with 0%Z by lia.
      assert (E : slice_bound (length valid) 0 = 0).
      { unfold slice_bound. simpl. reflexivity. }
      rewrite E. reflexivity.
Qed.

Lemma detect_log_phase_returns (t y : list Q) (ws : Z)
  (r2_min od_min frac rmin rmax : Q) :
  length t = length y -> (1 <= ws)%Z ->
  exists out, detect_log_phase ln t y ws r2_min od_min frac rmin rmax = Ok out.
Proof.
  intros Hlen Hws. unfold detect_log_phase. rewrite plateau_value.
  destruct (length t =? 0); [eexists; reflexivity |].
  destruct (_ <? _)%Z; [eexists; reflexivity |].
  destruct (is_nil (valid_indices_of y od_min)) eqn:Enil; cbn [bind];
    [eexists; reflexivity |].
  apply is_nil_false in Enil.
  destruct (median_total (map (fun i => nth i y 0%Q)
              (skipn (length (valid_indices_of y od_min) - 5) (valid_indices_of y od_min))))
    as [K HK].
  { intros E. apply map_eq_nil in E. apply (f_equal (@length nat)) in E.
    rewrite length_skipn in E. change (length (@nil nat)) with 0 in E.
    assert (0 < length (valid_indices_of y od_min))
      by (destruct (valid_indices_of y od_min); [congruence | simpl; lia]).
    lia. }
  unfold plateau_estimate. rewrite HK. cbn [bind].
  destruct (Qle_bool K 0) eqn:EK; [eexists; reflexivity |].
  assert (Hpos : (0 < K)%Q).
  { destruct (Qlt_le_dec 0 K) as [H | H]; [exact H |].
    apply Qle_bool_iff in H. congruence. }
  pose proof (scan_windows_value ln t y od_min ws r2_min frac K Hlen Hws Hpos) as Hscan.
  rewrite Hscan. cbn [bind].
  set (good := qualifying_windows ln t y (Z.to_nat ws) r2_min od_min frac K) in *.
  destruct (is_nil good) eqn:Eg; [eexists; reflexivity |].
  apply is_nil_false in Eg.
  destruct (select_windows_total good rmin rmax Eg) as (mu_max & lw & Hsel).
  rewrite Hsel. cbn [bind].
  destruct (select_windows_inv _ _ _ _ _ Hsel) as (_ & _ & Hincl).
  destruct (extract_run_total (length t) lw mu_max K) as (li & mm & Hrun).
  { apply scan_windows_inv in Hscan. rewrite Forall_forall in *.
    intros w Hw. destruct (Hscan w (Hincl w Hw)) as [_ He].
    apply valid_indices_In in He. lia. }
  rewrite Hrun. eexists; reflexivity.
Qed.

(** X9.  How [detect_log_phase] ends on a well-formed series.  With a window size
    of at least one it always returns.  With a window size of zero or less it
    raises [ValueError] as soon as the series passes the guards: some point is
    valid and the plateau estimate is positive. *)
Theorem detect_log_phase_outcomes (t y : list Q) (ws : Z)
  (r2_min od_min frac rmin rmax : Q) :
  length t = length y ->
  ((1 <= ws)%Z ->
   exists out, detect_log_phase ln t y ws r2_min od_min frac rmin rmax = Ok out) /\
  ((ws <= 0)%Z ->
   forall K, 0 < count_valid y od_min -> plateau_estimate y od_min = Ok K -> (0 < K)%Q ->
   detect_log_phase ln t y ws r2_min od_min frac rmin rmax = Raise ValueError).
Proof.
  intros Hlen. split.
  - intros Hws. apply detect_log_phase_returns; assumption.
  - intros Hws K Hcount HK Hpos. unfold detect_log_phase.
    rewrite valid_indices_count, plateau_value.
    assert (Hvalid : valid_indices_of y od_min <> []).
    { intros E. rewrite <- valid_indices_count, E in Hcount. simpl in Hcount. lia. }
    assert (Hn : length t <> 0).
    { rewrite Hlen. intros E. apply length_zero_iff_nil in E. subst y.
      apply Hvalid. reflexivity. }
    rewrite (proj2 (Nat.eqb_neq _ _) Hn).
    destruct (Z.ltb_spec (Z.of_nat (count_valid y od_min)) (ws + 1)) as [Hlt | _]; [lia |].
    rewrite (proj2 (is_nil_false _) Hvalid), HK. cbn [bind].
    assert (HK0 : Qle_bool K 0 = false).
    { destruct (Qle_bool K 0) eqn:E; [| reflexivity]. apply Qle_bool_iff in E. lra. }
    rewrite HK0, (scan_windows_bad_size t y od_min ws r2_min frac K Hlen Hws Hpos).
    reflexivity.
Qed.

(** Every way [detect_log_phase] can return. *)
Lemma detect_log_phase_cases (t y : list Q) (ws : Z) (r2_min od_min frac rmin rmax : Q)
  (li : list nat) (a b c : option Q) :
  detect_log_phase ln t y ws r2_min od_min frac rmin rmax = Ok (li, a, b, c) ->
  (li = [] /\ a = None /\ b = None /\
   (c = None \/ exists K, c = Some K /\ plateau_estimate y od_min = Ok K))
  \/
  exists K good mu_max lw,
    plateau_estimate y od_min = Ok K /\
    scan_windows ln t y (valid_indices_of y od_min) ws r2_min frac K = Ok good /\
    good <> [] /\
    select_windows good rmin rmax = Ok (mu_max, lw) /\
    extract_run (length t) lw mu_max K = Ok (li, a, b, c).
Proof.
  unfold detect_log_phase. rewrite plateau_value. intros H.
  destruct (length t =? 0); [injection H as <- <- <- <-; left; tauto |].
  destruct (_ <? _)%Z; [injection H as <- <- <- <-; left; tauto |].
  destruct (is_nil (valid_indices_of y od_min)); cbn [bind] in H;
    [injection H as <- <- <- <-; left; tauto |].
  inv_bind H as Kopt HK. inv_bind HK as K HK'. injection HK as <-.
  destruct (Qle_bool K 0); [injection H as <- <- <- <-; left; tauto |].
  inv_bind H as good Hgood.
  destruct (is_nil good) eqn:Eg.
  { injection H as <- <- <- <-. left. repeat split; try reflexivity.
    right. exists K. split; [reflexivity | exact HK']. }
  apply is_nil_false in Eg.
  inv_bind H as sel Hsel. destruct sel as [mu_max lw].
  right. exists K, good, mu_max, lw. tauto.
Qed.

Lemma plateau_estimate_lower (y : list Q) (od_min K : Q) :
  plateau_estimate y od_min = Ok K -> (od_min <= K)%Q.
Proof.
  unfold plateau_estimate. apply median_lower.
  intros v Hv. apply in_map_iff in Hv. destruct Hv as (i & <- & Hi).
  apply skipn_incl in Hi. apply valid_indices_In in Hi. destruct Hi as [_ Hi].
  apply Qle_bool_iff. exact Hi.
Qed.

(** X10.  The plateau estimate is never below [od_min]; so with a positive
    [od_min] the guard against a non-positive plateau cannot fire, and the
    estimate is known whenever enough points are valid. *)
Theorem plateau_is_at_least_od_min (t y : list Q) (ws : Z)
  (r2_min od_min frac rmin rmax : Q) :
  (forall li mu_max mu_mean K,
     detect_log_phase ln t y ws r2_min od_min frac rmin rmax
       = Ok (li, mu_max, mu_mean, Some K) ->
     (od_min <= K)%Q) /\
  (length t = length y -> (1 <= ws)%Z -> (0 < od_min)%Q ->
   (ws + 1 <= Z.of_nat (count_valid y od_min))%Z ->
   exists li mu_max mu_mean K,
     detect_log_phase ln t y ws r2_min od_min frac rmin rmax
       = Ok (li, mu_max, mu_mean, Some K) /\
     (od_min <= K)%Q).
Proof.
  assert (Hfirst : forall li mu_max mu_mean K,
            detect_log_phase ln t y ws r2_min od_min frac rmin rmax
              = Ok (li, mu_max, mu_mean, Some K) ->
            (od_min <= K)%Q).
  { intros li a b K H. apply detect_log_phase_cases in H.
    destruct H as [(_ & _ & _ & [H | (K' & H & HK)]) | (K' & good & m & lw & HK & _ & _ & _ & H)].
    - discriminate.
    - injection H as ->. apply (plateau_estimate_lower y od_min K' HK).
    - apply extract_run_inv in H. destruct H as (_ & H & _). injection H as ->.
      apply (plateau_estimate_lower y od_min K' HK). }
  split; [exact Hfirst |].
  intros Hlen Hws Hod Hcount.
  assert (Hvalid : valid_indices_of y od_min <> []).
  { intros E. rewrite <- valid_indices_count, E in Hcount. simpl in Hcount. lia. }
  destruct (median_total (map (fun i => nth i y 0%Q)
              (skipn (length (valid_indices_of y od_min) - 5) (valid_indices_of y od_min))))
    as [K HK].
  { intros E. apply map_eq_nil in E. apply (f_equal (@length nat)) in E.
    rewrite length_skipn in E. change (length (@nil nat)) with 0 in E.
    assert (0 < length (valid_indices_of y od_min))
      by (destruct (valid_indices_of y od_min); [congruence | simpl; lia]).
    lia. }
  fold (plateau_estimate y od_min) in HK.
  pose proof (plateau_estimate_lower y od_min K HK) as HKlo.
  assert (Hpos : (0 < K)%Q) by lra.
  assert (Hn : length t <> 0).
  { rewrite Hlen. intros E. apply length_zero_iff_nil in E. subst y.
    apply Hvalid. reflexivity. }
  unfold detect_log_phase. rewrite valid_indices_count, plateau_value.
  rewrite (proj2 (Nat.eqb_neq _ _) Hn), (proj2 (Z.ltb_ge _ _) Hcount).
  rewrite (proj2 (is_nil_false _) Hvalid), HK. cbn [bind].
  assert (HK0 : Qle_bool K 0 = false).
  { destruct (Qle_bool K 0) eqn:E; [| reflexivity]. apply Qle_bool_iff in E. lra. }
  rewrite HK0.
  pose proof (scan_windows_value ln t y od_min ws r2_min frac K Hlen Hws Hpos) as Hscan.
  rewrite Hscan. cbn [bind].
  set (good := qualifying_windows ln t y (Z.to_nat ws) r2_min od_min frac K) in *.
  destruct (is_nil good) eqn:Eg.
  { exists [], None, None, K. split; [reflexivity | exact HKlo]. }
  apply is_nil_false in Eg.
  destruct (select_windows_total good rmin rmax Eg) as (mu_max & lw & Hsel).
  rewrite Hsel. cbn [bind].
  destruct (select_windows_inv _ _ _ _ _ Hsel) as (_ & _ & Hincl).
  destruct (extract_run_total (length t) lw mu_max K) as (li & mm & Hrun).
  { apply scan_windows_inv in Hscan. rewrite Forall_forall in *.
    intros w Hw. destruct (Hscan w (Hincl w Hw)) as [_ He].
    apply valid_indices_In in He. lia. }
  rewrite Hrun. exists li, (Some mu_max), mm, K. split; [reflexivity | exact HKlo].
Qed.

(** A window the loop collects has a positive slope. *)
Lemma window_step_slope (t y : list Q) (valid : list nat) (ws : Z)
  (r2_min frac K : Q) (good good' : list window) (k : Z) :
  window_step ln t y valid ws r2_min frac K good k = Ok good' ->
  good' = good \/ exists w, good' = good ++ [w] /\ (0 < w_mu w)%Q.
Proof.
  unfold window_step. set (idxs := slice valid k (k + ws)). intros H.
  inv_bind H as T HT. inv_bind H as Y HY. inv_bind H as mx Hmx. inv_bind H as ratio Hr.
  destruct (Qle_bool frac ratio); [inversion H; auto |].
  destruct (existsb _ Y); [inversion H; auto |].
  inv_bind H as reg Hreg.
  destruct reg as [[[slope |] intercept] [r2 |]]; try (inversion H; auto; fail).
  destruct (Qle_bool slope 0) eqn:Es; [inversion H; auto |].
  destruct (Qlt_bool r2 r2_min); [inversion H; auto |].
  inv_bind H as first Hfirst. inv_bind H as lst Hlast. inversion H; subst good'.
  right. exists (first, lst, slope, r2). split; [reflexivity |].
  unfold w_mu. cbn [fst snd].
  destruct (Qlt_le_dec 0 slope) as [Hs | Hs]; [exact Hs |].
  apply Qle_bool_iff in Hs. congruence.
Qed.

Lemma scan_windows_slopes (t y : list Q) (valid : list nat) (ws : Z)
  (r2_min frac K : Q) (good : list window) :
  scan_windows ln t y valid ws r2_min frac K = Ok good ->
  Forall (fun w => 0 < w_mu w)%Q good.
Proof.
  unfold scan_windows.
  generalize (range 0 (Z.of_nat (length valid) - ws + 1)). intros ks.
  assert (Hgen : forall acc,
             Forall (fun w => 0 < w_mu w)%Q acc ->
             foldM (window_step ln t y valid ws r2_min frac K) ks acc = Ok good ->
             Forall (fun w => 0 < w_mu w)%Q good).
  { induction ks as [| k ks IH]; cbn [foldM]; intros acc Hacc H.
    - inversion H; subst. assumption.
    - inv_bind H as acc' Hstep. apply window_step_slope in Hstep.
      destruct Hstep as [-> | (w & -> & Hs)]; [eapply IH; eassumption |].
      eapply IH; [| eassumption]. apply Forall_app. split; [assumption |].
      constructor; [exact Hs | constructor]. }
  apply Hgen. constructor.
Qed.


Lemma max_byQ_from_In {A} (key : A -> Q) (best : A) (l : list A) :
  In (max_byQ_from key best l) (best :: l).
Proof.
  revert best. induction l as [| x r IH]; intros best; [left; reflexivity |].
  cbn [max_byQ_from]. destruct (Qlt_bool (key best) (key x)).
  - right. apply IH.
  - destruct (IH best) as [E | Hin]; [left; exact E | right; right; exact Hin].
Qed.


(** X11.  With [mu_rel_min <= 1 <= mu_rel_max] the fallback of lines 219-222 is
    never taken: the window with the greatest slope is within the band, so
    the selected windows are exactly those within the band. *)
Theorem slope_band_is_never_empty (t y : list Q) (valid : list nat) (ws : Z)
  (r2_min frac K rmin rmax : Q) (good : list window) :
  scan_windows ln t y valid ws r2_min frac K = Ok good ->
  good <> [] ->
  (rmin <= 1)%Q -> (1 <= rmax)%Q ->
  exists mu_max w,
    select_windows good rmin rmax
      = Ok (mu_max,
            filter (fun win => Qle_bool (rmin * mu_max) (w_mu win)
                               && Qle_bool (w_mu win) (rmax * mu_max)) good) /\
    py_max (map w_mu good) = Ok mu_max /\
    In w (filter (fun win => Qle_bool (rmin * mu_max) (w_mu win)
                             && Qle_bool (w_mu win) (rmax * mu_max)) good) /\
    w_mu w = mu_max.
Proof.
  intros Hscan Hne Hmin Hmax.
  pose proof (scan_windows_slopes _ _ _ _ _ _ _ _ Hscan) as Hpos.
  rewrite Forall_forall in Hpos.
  destruct (py_max (map w_mu good)) as [mu_max | e] eqn:Hm.
  2: { destruct good; [congruence | discriminate]. }
  pose proof (py_max_spec _ _ Hm) as [Hin _].
  apply in_map_iff in Hin. destruct Hin as (w & Hw & Hwin).
  assert (Hmu : (0 < mu_max)%Q) by (rewrite <- Hw; apply Hpos; exact Hwin).
  assert (Hsel : In w (filter (fun win => Qle_bool (rmin * mu_max) (w_mu win)
                                          && Qle_bool (w_mu win) (rmax * mu_max)) good)).
  { apply filter_In. split; [exact Hwin |]. rewrite Hw.
    apply andb_true_iff. split; apply Qle_bool_iff; nra. }
  exists mu_max, w. split; [| split; [reflexivity | split; [exact Hsel | exact Hw]]].
  unfold select_windows. rewrite Hm. cbn [bind].
  destruct (filter _ good) as [| f r] eqn:Ef; [destruct Hsel | reflexivity].
Qed.






Lemma log_run_left_loop (mask rest : list bool) (s : nat) (st : list (list nat) * list nat) :
  (forall k, k < length rest -> nth (s + k) mask false = nth k rest false) ->
  s + length rest = length mask ->
  runs_left_inv mask s st ->
  runs_left_inv mask (length mask)
                (fold_left log_run_step (combine (seq s (length rest)) rest) st).
Proof.
  revert s st. induction rest as [| x rest IH]; intros s st Hnth Hlen Hinv.
  - simpl in *. replace (length mask) with s by lia. assumption.
  - cbn [length seq combine fold_left]. apply IH.
    + intros k Hk. specialize (Hnth (S k) ltac:(simpl; lia)).
      simpl in Hnth. rewrite <- Hnth. f_equal. lia.
    + simpl in Hlen. lia.
    + specialize (Hnth 0 ltac:(simpl; lia)). rewrite Nat.add_0_r in Hnth. simpl in Hnth.
      destruct st as [runs cur]. destruct Hinv as (Hruns & Hcur & Hnil).
      cbn [fst snd] in *. unfold log_run_step.
      destruct x.
      * split; [exact Hruns |]. cbn [fst snd]. split.
        -- unfold run_left in *. destruct cur as [| c cr].
           ++ cbn [app hd]. specialize (Hnil eq_refl). exact Hnil.
           ++ exact Hcur.
        -- intros E. destruct cur; discriminate E.
      * destruct (is_nil cur) eqn:Enil; cbn [negb fst snd].
        -- split; [exact Hruns |]. split; [exact Hcur |].
           intros _. right. replace (S s - 1) with s by lia. exact Hnth.
        -- split; [apply Forall_app; split; [exact Hruns | constructor; [exact Hcur | constructor]] |].
           split; [left; reflexivity |].
           intros _. right. replace (S s - 1) with s by lia. exact Hnth.
Qed.

Lemma log_runs_left (mask : list bool) : Forall (run_left mask) (log_runs mask).
Proof.
  unfold log_runs.
  pose proof (log_run_left_loop mask mask 0 ([], [])) as H.
  specialize (H ltac:(intros; reflexivity) ltac:(reflexivity)).
  assert (H0 : runs_left_inv mask 0 ([], [])).
  { split; [constructor |]. split; [left; reflexivity |]. intros _. left. reflexivity. }
  specialize (H H0).
  destruct (fold_left log_run_step _ _) as [runs cur].
  destruct H as (Hruns & Hcur & _). cbn [fst snd] in *.
  destruct (is_nil cur); cbn [negb]; [exact Hruns |].
  apply Forall_app. split; [exact Hruns | constructor; [exact Hcur | constructor]].
Qed.

(** Only the indices of the list get marked. *)
Lemma setitem_loop_only (l : list nat) (m m' : list bool) (j : nat) :
  foldM (fun m i => setitem m i true) l m = Ok m' ->
  nth j m' false = true -> nth j m false = true \/ In j l.
Proof.
  revert m. induction l as [| i r IH]; cbn [foldM]; intros m H Hj.
  - injection H as <-. left. exact Hj.
  - inv_bind H as m1 H1. unfold setitem in H1.
    destruct (i <? length m); [| discriminate]. injection H1 as <-.
    destruct (IH _ H Hj) as [Hm | Hin]; [| right; right; exact Hin].
    destruct (Nat.eq_dec i j) as [-> | Hne]; [right; left; reflexivity |].
    left. rewrite nth_upd_neq in Hm by exact Hne. exact Hm.
Qed.

Lemma log_mask_only (lw : list window) (m m' : list bool) (j : nat) :
  foldM mark_window lw m = Ok m' ->
  nth j m' false = true ->
  nth j m false = true \/ exists w, In w lw /\ w_start w <= j <= w_end w.
Proof.
  revert m. induction lw as [| w r IH]; cbn [foldM]; intros m H Hj.
  - injection H as <-. left. exact Hj.
  - inv_bind H as m1 H1.
    destruct (IH _ H Hj) as [Hm | (w' & Hw' & Hr)].
    + unfold mark_window in H1.
      destruct (setitem_loop_only _ _ _ j H1 Hm) as [Hm0 | Hin]; [left; exact Hm0 |].
      right. exists w. split; [left; reflexivity |]. apply in_seq in Hin. lia.
    + right. exists w'. split; [right; exact Hw' | exact Hr].
Qed.

Lemma nth_repeat_false (n j : nat) : nth j (repeat false n) false = false.
Proof.
  revert j. induction n as [| n IH]; intros [| j]; cbn [repeat nth]; try reflexivity.
  apply IH.
Qed.

(** X13.  A non-empty [logIndices] begins at the first index of a selected window
    and ends at the last index of a selected window; both ends are valid
    points, every index of the run lies inside a selected window and inside
    the series. *)
Theorem log_run_spans_selected_windows (t y : list Q) (ws : Z)
  (r2_min od_min frac rmin rmax : Q) (li : list nat) (a b c : option Q) :
  detect_log_phase ln t y ws r2_min od_min frac rmin rmax = Ok (li, a, b, c) ->
  li <> [] ->
  exists K good mu_max lw,
    scan_windows ln t y (valid_indices_of y od_min) ws r2_min frac K = Ok good /\
    select_windows good rmin rmax = Ok (mu_max, lw) /\
    (exists w, In w lw /\ w_start w = hd 0 li) /\
    (exists w, In w lw /\ w_end w = last li 0) /\
    (forall i, In i li -> i < length t /\ exists w, In w lw /\ w_start w <= i <= w_end w) /\
    (od_min <= nth (hd 0%nat li) y 0)%Q /\
    (od_min <= nth (last li 0%nat) y 0)%Q.
Proof.
  intros H Hne. apply detect_log_phase_cases in H.
  destruct H as [(-> & _) | (K & good & mu_max & lw & _ & Hscan & _ & Hsel & Hrun)];
    [contradiction |].
  exists K, good, mu_max, lw. split; [exact Hscan |]. split; [exact Hsel |].
  pose proof (scan_windows_inv _ _ _ _ _ _ _ _ _ Hscan) as Hvalid.
  rewrite Forall_forall in Hvalid.
  destruct (select_windows_inv _ _ _ _ _ Hsel) as (_ & _ & Hincl).
  apply extract_run_inv in Hrun.
  destruct Hrun as (_ & _ & mask & Hmask & [[-> _] | [Hin _]]); [contradiction |].
  unfold log_mask in Hmask.
  pose proof (log_mask_inv _ _ _ Hmask) as (Hlen & _ & Hmarked).
  rewrite repeat_length in Hlen.
  assert (Hcov : forall j, nth j mask false = true ->
                           exists w, In w lw /\ w_start w <= j <= w_end w).
  { intros j Hj. destruct (log_mask_only _ _ _ j Hmask Hj) as [Hf | Hw]; [| exact Hw].
    rewrite nth_repeat_false in Hf. discriminate. }
  pose proof (log_runs_ok mask) as Hok. rewrite Forall_forall in Hok.
  pose proof (log_runs_left mask) as Hleft. rewrite Forall_forall in Hleft.
  destruct (Hok li Hin) as (s & n & -> & Hn & Htrue & Hend & Hstop).
  specialize (Hleft _ Hin). unfold run_left in Hleft.
  destruct n as [| n]; [lia |].
  assert (Hhd : hd 0 (seq s (S n)) = s) by reflexivity.
  assert (Hlast : last (seq s (S n)) 0 = s + n) by apply last_seq.
  rewrite Hhd in *. rewrite Hlast.
  (* the left end *)
  assert (Hstart : exists w, In w lw /\ w_start w = s).
  { destruct (Hcov s (Htrue s ltac:(lia))) as (w & Hw & Hr).
    exists w. split; [exact Hw |].
    destruct (Nat.eq_dec (w_start w) s) as [E | Hd]; [exact E |].
    exfalso. destruct Hleft as [E | E]; [lia |].
    rewrite (Hmarked w (s - 1) Hw ltac:(lia)) in E. discriminate. }
  (* the right end *)
  assert (Hstop' : exists w, In w lw /\ w_end w = s + n).
  { destruct (Hcov (s + n) (Htrue (s + n) ltac:(lia))) as (w & Hw & Hr).
    exists w. split; [exact Hw |].
    destruct (Nat.eq_dec (w_end w) (s + n)) as [E | Hd]; [exact E |].
    exfalso. pose proof (Hmarked w (s + S n) Hw ltac:(lia)) as Hm.
    assert (Hlt : s + S n < length mask).
    { destruct (Nat.lt_ge_cases (s + S n) (length mask)) as [Hl | Hg]; [exact Hl |].
      rewrite nth_overflow in Hm by exact Hg. discriminate. }
    rewrite (Hstop Hlt) in Hm. discriminate. }
  split; [exact Hstart |]. split; [exact Hstop' |]. split.
  - intros i Hi. apply in_seq in Hi. split; [lia |]. apply Hcov. apply Htrue. lia.
  - destruct Hstart as (w & Hw & <-). destruct Hstop' as (w' & Hw' & E).
    rewrite <- E.
    destruct (Hvalid w (Hincl w Hw)) as [Hs _].
    destruct (Hvalid w' (Hincl w' Hw')) as [_ He].
    apply valid_indices_In in Hs, He.
    split; apply Qle_bool_iff; tauto.
Qed.

End EngineExtras.

Lemma detect_log_phase_outcomes_witness :
  (exists out,
     detect_log_phase ln_series Samples.t_gap Samples.y_gap 2
                      DEFAULT_R2_MIN 1 DEFAULT_FRAC_K_MAX
                      DEFAULT_MU_REL_MIN DEFAULT_MU_REL_MAX = Ok out) /\
  detect_log_phase ln_series Samples.t_gap Samples.y_gap 0
                   DEFAULT_R2_MIN 1 DEFAULT_FRAC_K_MAX
                   DEFAULT_MU_REL_MIN DEFAULT_MU_REL_MAX = Raise ValueError.
Proof.
  split.
  - apply (detect_log_phase_outcomes ln_series Samples.t_gap Samples.y_gap 2%Z
             DEFAULT_R2_MIN 1%Q DEFAULT_FRAC_K_MAX DEFAULT_MU_REL_MIN DEFAULT_MU_REL_MAX).
    + reflexivity.
    + lia.
  - apply (proj2 (detect_log_phase_outcomes ln_series Samples.t_gap Samples.y_gap 0%Z
                    DEFAULT_R2_MIN 1%Q DEFAULT_FRAC_K_MAX DEFAULT_MU_REL_MIN
                    DEFAULT_MU_REL_MAX eq_refl)
             ltac:(lia) (70000 # 20000)%Q).
    + vm_compute. lia.
    + vm_compute. reflexivity.
    + reflexivity.
Defined.

Lemma plateau_is_at_least_od_min_witness :
  exists li mu_max mu_mean K,
    detect_log_phase ln_series Samples.t_gap Samples.y_gap 2
                     DEFAULT_R2_MIN 1 DEFAULT_FRAC_K_MAX
                     DEFAULT_MU_REL_MIN DEFAULT_MU_REL_MAX
      = Ok (li, mu_max, mu_mean, Some K) /\
    (1 <= K)%Q.
Proof.
  apply (proj2 (plateau_is_at_least_od_min ln_series Samples.t_gap Samples.y_gap 2%Z
                  DEFAULT_R2_MIN 1%Q DEFAULT_FRAC_K_MAX DEFAULT_MU_REL_MIN
                  DEFAULT_MU_REL_MAX)).
  - reflexivity.
  - lia.
  - reflexivity.
  - vm_compute. intros; discriminate.
Defined.

Lemma slope_band_is_never_empty_witness :
  exists good,
    scan_windows ln_series (Samples.minutes [0; 1; 2; 3; 4]%Z)
                 (Samples.minutes [2; 0; 3; 5; 8]%Z)
                 (valid_indices_of (Samples.minutes [2; 0; 3; 5; 8]%Z) 1) 2 0 10 4 = Ok good /\
    exists mu_max w,
      select_windows good DEFAULT_MU_REL_MIN DEFAULT_MU_REL_MAX
        = Ok (mu_max,
              filter (fun win => Qle_bool (DEFAULT_MU_REL_MIN * mu_max) (w_mu win)
                                 && Qle_bool (w_mu win) (DEFAULT_MU_REL_MAX * mu_max)) good) /\
      py_max (map w_mu good) = Ok mu_max /\
      In w (filter (fun win => Qle_bool (DEFAULT_MU_REL_MIN * mu_max) (w_mu win)
                               && Qle_bool (w_mu win) (DEFAULT_MU_REL_MAX * mu_max)) good) /\
      w_mu w = mu_max.
Proof.
  eassert (E : scan_windows ln_series (Samples.minutes [0; 1; 2; 3; 4]%Z)
                 (Samples.minutes [2; 0; 3; 5; 8]%Z)
                 (valid_indices_of (Samples.minutes [2; 0; 3; 5; 8]%Z) 1) 2 0 10 4 = Ok _)
    by (vm_compute; reflexivity).
  eexists. split; [exact E |].
  apply (slope_band_is_never_empty ln_series _ _ _ _ _ _ _
           DEFAULT_MU_REL_MIN DEFAULT_MU_REL_MAX _ E).
  - discriminate.
  - vm_compute. intros; discriminate.
  - vm_compute. intros; discriminate.
Defined.


Lemma log_run_spans_selected_windows_witness :
  exists li a b c,
    detect_log_phase ln_series (Samples.minutes [0; 1; 2; 3; 4]%Z)
                     (Samples.minutes [2; 0; 3; 5; 8]%Z) 2 0 1 10 0 1000
      = Ok (li, a, b, c) /\
    li <> [] /\
    exists K good mu_max lw,
      scan_windows ln_series (Samples.minutes [0; 1; 2; 3; 4]%Z)
                   (Samples.minutes [2; 0; 3; 5; 8]%Z)
                   (valid_indices_of (Samples.minutes [2; 0; 3; 5; 8]%Z) 1) 2 0 10 K = Ok good /\
      select_windows good 0 1000 = Ok (mu_max, lw) /\
      (exists w, In w lw /\ w_start w = hd 0 li) /\
      (exists w, In w lw /\ w_end w = last li 0) /\
      (forall i, In i li ->
         i < length (Samples.minutes [0; 1; 2; 3; 4]%Z) /\
         exists w, In w lw /\ w_start w <= i <= w_end w) /\
      (1 <= nth (hd 0%nat li) (Samples.minutes [2; 0; 3; 5; 8]%Z) 0)%Q /\
      (1 <= nth (last li 0%nat) (Samples.minutes [2; 0; 3; 5; 8]%Z) 0)%Q.
Proof.
  eassert (E : detect_log_phase ln_series (Samples.minutes [0; 1; 2; 3; 4]%Z)
                 (Samples.minutes [2; 0; 3; 5; 8]%Z) 2 0 1 10 0 1000 = Ok (_ :: _, _, _, _))
    by (vm_compute; reflexivity).
  eexists _, _, _, _. split; [exact E |]. split; [discriminate |].
  apply (log_run_spans_selected_windows ln_series _ _ _ _ _ _ _ _ _ _ _ _ E).
  discriminate.
Defined.

End LogPhaseExtras.

(** * Facts about the payload primitives *)

Module PayloadFacts.

Import String.StringSyntax.
Import Payload.
Local Open Scope string_scope.

Lemma bind_returns {A B} (m : outcome A) (k : A -> outcome B) (b : B) :
  Payload.bind m k = Returns b -> exists a, m = Returns a /\ k a = Returns b.
Proof. destruct m as [a | e]; cbn [Payload.bind]; intros H; [eauto | discriminate]. Qed.

Lemma mem_str_In (x : String.string) (s : list String.string) :
  mem_str x s = true <-> In x s.
Proof.
  unfold mem_str. rewrite existsb_exists. split.
  - intros (v & Hv & E). apply String.eqb_eq in E. subst v. exact Hv.
  - intros H. exists x. split; [exact H | apply String.eqb_refl].
Qed.

Lemma set_add_str_In (s : list String.string) (x k : String.string) :
  In k (set_add_str s x) <-> In k s \/ k = x.
Proof.
  unfold set_add_str. destruct (mem_str x s) eqn:E.
  - apply mem_str_In in E. split; [auto |]. intros [H | ->]; assumption.
  - rewrite in_app_iff. simpl. intuition.
Qed.

Lemma set_add_str_NoDup (s : list String.string) (x : String.string) :
  NoDup s -> NoDup (set_add_str s x).
Proof.
  intros H. unfold set_add_str. destruct (mem_str x s) eqn:E; [exact H |].
  apply NoDup_app; [exact H | constructor; [intros [] | constructor] |].
  intros a Ha [<- | []]. apply mem_str_In in Ha. congruence.
Qed.

Lemma set_add_str_nonempty (s : list String.string) (x : String.string) :
  set_add_str s x <> [].
Proof.
  unfold set_add_str. destruct (mem_str x s) eqn:E.
  - apply mem_str_In in E. intros ->. destruct E.
  - destruct s; discriminate.
Qed.

Lemma fold_set_add_str_In (l s : list String.string) (k : String.string) :
  In k (fold_left set_add_str l s) <-> In k s \/ In k l.
Proof.
  revert s. induction l as [| x r IH]; intros s; cbn [fold_left].
  - simpl. tauto.
  - rewrite IH, set_add_str_In. simpl. intuition.
Qed.

Lemma fold_set_add_str_NoDup (l s : list String.string) :
  NoDup s -> NoDup (fold_left set_add_str l s).
Proof.
  revert s. induction l as [| x r IH]; intros s H; cbn [fold_left]; [exact H |].
  apply IH. apply set_add_str_NoDup. exact H.
Qed.

Lemma insert_str_perm (x : String.string) (l : list String.string) :
  Permutation (insert_str x l) (x :: l).
Proof.
  induction l as [| h r IH]; cbn [insert_str]; [apply Permutation_refl |].
  destruct (String.leb x h); [apply Permutation_refl |].
  apply (perm_trans (perm_skip h IH)). apply perm_swap.
Qed.

Lemma sorted_str_perm (l : list String.string) : Permutation (sorted_str l) l.
Proof.
  induction l as [| x r IH]; cbn [sorted_str]; [apply perm_nil |].
  apply (perm_trans (insert_str_perm x _)). apply perm_skip. exact IH.
Qed.

Lemma sorted_str_In (l : list String.string) (k : String.string) :
  In k (sorted_str l) <-> In k l.
Proof.
  split; apply Permutation_in; [| apply Permutation_sym]; apply sorted_str_perm.
Qed.

Lemma sorted_str_NoDup (l : list String.string) : NoDup l -> NoDup (sorted_str l).
Proof. apply Permutation_NoDup. apply Permutation_sym. apply sorted_str_perm. Qed.

Lemma insert_str_sorted (x : String.string) (l : list String.string) :
  Sorted (fun a b => String.leb a b = true) l ->
  Sorted (fun a b => String.leb a b = true) (insert_str x l).
Proof.
  induction l as [| h r IH]; intros Hs; cbn [insert_str].
  - constructor; constructor.
  - destruct (String.leb x h) eqn:E.
    + constructor; [exact Hs | constructor; exact E].
    + assert (Hhx : String.leb h x = true).
      { destruct (String.leb_total x h) as [H | H]; [congruence | exact H]. }
      inversion Hs as [| ? ? Hr Hh]; subst. constructor; [apply IH; exact Hr |].
      destruct r as [| h' r']; cbn [insert_str].
      * constructor. exact Hhx.
      * destruct (String.leb x h'); constructor; [exact Hhx |].
        inversion Hh; assumption.
Qed.

Lemma sorted_str_sorted (l : list String.string) :
  Sorted (fun a b => String.leb a b = true) (sorted_str l).
Proof.
  induction l as [| x r IH]; cbn [sorted_str]; [constructor |].
  apply insert_str_sorted. exact IH.
Qed.

(** The loop that collects the truthy values of a field. *)
Lemma truthy_some (n : String.string) : truthy (Some n) = true <-> n <> "".
Proof.
  unfold truthy. rewrite negb_true_iff. apply String.eqb_neq.
Qed.

Lemma append_truthy_In {A} (f : A -> option String.string) (l : list A)
  (acc : list String.string) (n : String.string) :
  In n (fold_left (fun names s => append_truthy names (f s)) l acc) <->
  In n acc \/ (n <> "" /\ exists s, In s l /\ f s = Some n).
Proof.
  revert acc. induction l as [| x r IH]; intros acc; cbn [fold_left].
  - split; [auto |]. intros [H | (_ & s & [] & _)]. exact H.
  - rewrite IH. unfold append_truthy.
    destruct (f x) as [v |] eqn:Ev.
    + destruct (truthy (Some v)) eqn:Et.
      * apply truthy_some in Et. rewrite in_app_iff. simpl. split.
        -- intros [[H | [<- | []]] | (Hn & s & Hs & E)].
           ++ left; exact H.
           ++ right. split; [exact Et |]. exists x. split; [left; reflexivity | exact Ev].
           ++ right. split; [exact Hn |]. exists s. split; [right; exact Hs | exact E].
        -- intros [H | (Hn & s & [<- | Hs] & E)].
           ++ left; left; exact H.
           ++ left; right; left. congruence.
           ++ right. split; [exact Hn |]. exists s. split; assumption.
      * assert (Hv : v = "").
        { destruct (String.eqb_spec v "") as [E | E]; [exact E |].
          apply truthy_some in E. congruence. }
        split.
        -- intros [H | (Hn & s & Hs & E)]; [left; exact H |].
           right. split; [exact Hn |]. exists s. split; [right; exact Hs | exact E].
        -- intros [H | (Hn & s & [<- | Hs] & E)]; [left; exact H | congruence |].
           right. split; [exact Hn |]. exists s. split; assumption.
    + split.
      * intros [H | (Hn & s & Hs & E)]; [left; exact H |].
        right. split; [exact Hn |]. exists s. split; [right; exact Hs | exact E].
      * intros [H | (Hn & s & [<- | Hs] & E)]; [left; exact H | congruence |].
        right. split; [exact Hn |]. exists s. split; assumption.
Qed.


Lemma mapM_require_total {A B} (key : String.string) (f : A -> option B) (l : list A) :
  (exists r, Payload.mapM (fun p => require key (f p)) l = Returns r) \/
  Payload.mapM (fun p => require key (f p)) l = Raises (KeyError key).
Proof.
  induction l as [| x l IH]; cbn [Payload.mapM]; [left; eexists; reflexivity |].
  unfold require at 1. unfold require at 2.
  destruct (f x); cbn [Payload.bind]; [| right; reflexivity].
  destruct IH as [(r & ->) | ->]; cbn [Payload.bind];
    [left; eexists; reflexivity | right; reflexivity].
Qed.

End PayloadFacts.

(** * The assignment file *)

Module LoadingFacts.

Import String.StringSyntax.
Import PyFacts.
Import Payload Loading PayloadFacts.
Local Open Scope string_scope.

(** *** The stable sort on the time *)

Lemma insert_by_time_perm (x : Q * Q) (l : list (Q * Q)) :
  Permutation (insert_by_time x l) (x :: l).
Proof.
  induction l as [| h r IH]; cbn [insert_by_time]; [apply Permutation_refl |].
  destruct (Qle_bool (fst x) (fst h)); [apply Permutation_refl |].
  apply (perm_trans (perm_skip h IH)). apply perm_swap.
Qed.

Lemma sorted_by_time_perm (l : list (Q * Q)) : Permutation (sorted_by_time l) l.
Proof.
  induction l as [| x r IH]; cbn [sorted_by_time]; [apply perm_nil |].
  apply (perm_trans (insert_by_time_perm x _)). apply perm_skip. exact IH.
Qed.

Lemma insert_by_time_In (x v : Q * Q) (l : list (Q * Q)) :
  In v (insert_by_time x l) -> v = x \/ In v l.
Proof.
  intros H. apply (Permutation_in _ (insert_by_time_perm x l)) in H.
  destruct H as [<- | H]; [left; reflexivity | right; exact H].
Qed.

Lemma insert_by_time_sorted (x : Q * Q) (l : list (Q * Q)) :
  StronglySorted (fun a b => fst a <= fst b)%Q l ->
  StronglySorted (fun a b => fst a <= fst b)%Q (insert_by_time x l).
Proof.
  induction 1 as [| h r Hr IH Hh]; cbn [insert_by_time].
  - constructor; constructor.
  - destruct (Qle_bool (fst x) (fst h)) eqn:E.
    + apply Qle_bool_iff in E. constructor; [constructor; assumption |].
      constructor; [exact E |].
      rewrite Forall_forall in Hh |- *. intros v Hv. specialize (Hh v Hv). lra.
    + assert (Hlt : (fst h < fst x)%Q).
      { destruct (Qlt_le_dec (fst h) (fst x)) as [Hl | Hl]; [exact Hl |].
        apply Qle_bool_iff in Hl. congruence. }
      constructor; [exact IH |].
      apply Forall_forall. intros v Hv. apply insert_by_time_In in Hv.
      destruct Hv as [-> | Hv]; [lra |].
      rewrite Forall_forall in Hh. apply Hh. exact Hv.
Qed.

Lemma sorted_by_time_sorted (l : list (Q * Q)) :
  StronglySorted (fun a b => fst a <= fst b)%Q (sorted_by_time l).
Proof.
  induction l as [| x r IH]; cbn [sorted_by_time]; [constructor |].
  apply insert_by_time_sorted. exact IH.
Qed.

Lemma sorted_map_fst (l : list (Q * Q)) :
  StronglySorted (fun a b => fst a <= fst b)%Q l -> StronglySorted Qle (map fst l).
Proof.
  induction 1 as [| h r Hr IH Hh]; cbn [map]; constructor; [exact IH |].
  apply Forall_forall. intros v Hv. apply in_map_iff in Hv.
  destruct Hv as (p & <- & Hp). rewrite Forall_forall in Hh. apply Hh. exact Hp.
Qed.

Lemma combine_fst_snd {A B} (l : list (A * B)) : combine (map fst l) (map snd l) = l.
Proof.
  induction l as [| [a b] r IH]; cbn [map combine fst snd]; [reflexivity |].
  rewrite IH. reflexivity.
Qed.

(** *** The loop over the rows *)

Lemma combine_snoc {A B} (l1 : list A) (l2 : list B) (a : A) (b : B) :
  length l1 = length l2 -> combine (l1 ++ [a]) (l2 ++ [b]) = combine l1 l2 ++ [(a, b)].
Proof.
  revert l2. induction l1 as [| x r IH]; intros [| y r2] H; try discriminate; [reflexivity |].
  cbn [app combine]. rewrite IH by (simpl in H; lia). reflexivity.
Qed.

Lemma series_loop (well : String.string) (rows : list row) (st st' : series) :
  Payload.foldM (series_step well) rows st = Returns st' ->
  length (fst (fst (fst st))) = length (snd (fst (fst st))) ->
  exists T Y,
    fst (fst (fst st')) = fst (fst (fst st)) ++ T /\
    snd (fst (fst st')) = snd (fst (fst st)) ++ Y /\
    length T = length Y /\
    map reading (well_rows rows well)
    = map (fun ty : Q * Q => (Some (fst ty), Some (snd ty))) (combine T Y).
Proof.
  revert st. induction rows as [| r rows IH]; cbn [Payload.foldM]; intros st H Hlen.
  - injection H as <-. exists [], []. rewrite !app_nil_r. repeat split; reflexivity.
  - apply bind_returns in H. destruct H as (st1 & Hstep & H).
    destruct st as [[[t y] sn] reps]. cbn [fst snd] in *.
    unfold series_step in Hstep. unfold well_rows. cbn [filter].
    destruct (field_is (row_well r) well) eqn:Ew; cbn [negb] in Hstep.
    + apply bind_returns in Hstep. destruct Hstep as (ti & Hti & Hstep).
      apply bind_returns in Hstep. destruct Hstep as (yi & Hyi & Hstep).
      injection Hstep as <-.
      destruct (IH _ H) as (T & Y & HT & HY & HTY & Hmap).
      { cbn [fst snd]. rewrite !length_app. simpl. lia. }
      cbn [fst snd] in HT, HY.
      exists (ti :: T), (yi :: Y).
      rewrite HT, HY, <- !app_assoc. cbn [app].
      split; [reflexivity |]. split; [reflexivity |]. split; [simpl; lia |].
      cbn [map combine fst snd]. f_equal; [| exact Hmap].
      unfold reading. unfold require in Hti, Hyi.
      destruct (row_time_min r); [| discriminate].
      destruct (row_val_od600 r); [| discriminate].
      injection Hti as ->. injection Hyi as ->. reflexivity.
    + injection Hstep as <-. apply (IH _ H). exact Hlen.
Qed.

Lemma series_loop_total (well : String.string) (rows : list row) (st : series) :
  forallb complete (well_rows rows well) = true ->
  exists st', Payload.foldM (series_step well) rows st = Returns st'.
Proof.
  revert st. induction rows as [| r rows IH]; cbn [Payload.foldM]; intros st H.
  - eexists; reflexivity.
  - destruct st as [[[t y] sn] reps]. unfold series_step.
    unfold well_rows in H. cbn [filter] in H.
    destruct (field_is (row_well r) well) eqn:Ew; cbn [negb Payload.bind].
    + cbn [forallb] in H. apply andb_true_iff in H. destruct H as [Hc H].
      unfold complete in Hc.
      destruct (row_time_min r); [| discriminate].
      destruct (row_val_od600 r); [| discriminate].
      cbn [require Payload.bind]. apply IH. exact H.
    + apply IH. exact H.
Qed.

Lemma series_loop_fails (well : String.string) (rows : list row) (st : series) :
  forallb complete (well_rows rows well) = false ->
  Payload.foldM (series_step well) rows st = Raises (KeyError "time_min") \/
  Payload.foldM (series_step well) rows st = Raises (KeyError "val_od600").
Proof.
  revert st. induction rows as [| r rows IH]; cbn [Payload.foldM]; intros st H.
  - discriminate.
  - destruct st as [[[t y] sn] reps]. unfold series_step.
    unfold well_rows in H. cbn [filter] in H.
    destruct (field_is (row_well r) well) eqn:Ew; cbn [negb Payload.bind].
    + cbn [forallb] in H. unfold complete in H.
      destruct (row_time_min r); cbn [require Payload.bind]; [| left; reflexivity].
      destruct (row_val_od600 r); cbn [require Payload.bind]; [| right; reflexivity].
      cbn [andb] in H. apply IH. exact H.
    + apply IH. exact H.
Qed.

(** *** [get_time_series_for_well] *)


(** X15.  A successful call hands back the readings of the rows of the well, each
    once, ordered by time: the times are non-decreasing, there are as many
    values as times, and at least one. *)
Theorem well_series_is_sorted (data : assignment_file) (well : String.string)
  (t y : list Q) (sample_name : option String.string) (replicates : list (option Z)) :
  get_time_series_for_well data well = Returns (t, y, sample_name, replicates) ->
  exists rows,
    get_dataset_rows data = Returns rows /\
    well_rows rows well <> [] /\
    length t = length (well_rows rows well) /\
    length y = length t /\
    StronglySorted Qle t /\
    Permutation (map (fun ty : Q * Q => (Some (fst ty), Some (snd ty))) (combine t y))
                (map reading (well_rows rows well)).
Proof.
  unfold get_time_series_for_well. intros H.
  apply bind_returns in H. destruct H as (rows & Hrows & H).
  apply bind_returns in H. destruct H as (st & Hloop & H).
  destruct st as [[[t0 y0] sn] reps].
  destruct (series_loop _ _ _ _ Hloop eq_refl) as (T & Y & HT & HY & Hlen & Hmap).
  cbn [fst snd app] in HT, HY. subst t0 y0.
  destruct (is_nil T) eqn:Enil; [discriminate |]. injection H as <- <- _ _.
  apply is_nil_false in Enil.
  exists rows. split; [exact Hrows |].
  pose proof (sorted_by_time_perm (combine T Y)) as Hperm.
  assert (Hcount : length (well_rows rows well) = length T).
  { rewrite <- (length_map reading), Hmap, length_map, length_combine. lia. }
  split.
  { intros E. rewrite E in Hcount. destruct T; [congruence | discriminate]. }
  split.
  { rewrite length_map, (Permutation_length Hperm), length_combine. lia. }
  split; [rewrite !length_map; reflexivity |].
  split; [apply sorted_map_fst, sorted_by_time_sorted |].
  rewrite combine_fst_snd, Hmap. apply Permutation_map. exact Hperm.
Qed.

(** X16.  How a call ends: an error of [get_dataset_rows] is passed on; a well
    without rows gives [ValueError]; a row of the well without [time_min] or
    [val_od600] gives [KeyError] with that key; otherwise the call returns. *)
Theorem well_series_outcomes (data : assignment_file) (well : String.string) :
  (forall e, get_dataset_rows data = Raises e ->
             get_time_series_for_well data well = Raises e) /\
  (forall rows, get_dataset_rows data = Returns rows ->
     (well_rows rows well = [] ->
      get_time_series_for_well data well
        = Raises (ValueError (String.append "Brak danych dla wella " well))) /\
     (forallb complete (well_rows rows well) = false ->
      get_time_series_for_well data well = Raises (KeyError "time_min") \/
      get_time_series_for_well data well = Raises (KeyError "val_od600")) /\
     (well_rows rows well <> [] -> forallb complete (well_rows rows well) = true ->
      exists s, get_time_series_for_well data well = Returns s)).
Proof.
  unfold get_time_series_for_well. split.
  - intros e ->. reflexivity.
  - intros rows ->. cbn [Payload.bind]. split; [| split].
    + intros Hnil.
      destruct (series_loop_total well rows ([], [], None, [])) as [st Hst].
      { rewrite Hnil. reflexivity. }
      rewrite Hst. cbn [Payload.bind]. destruct st as [[[t y] sn] reps].
      destruct (series_loop _ _ _ _ Hst eq_refl) as (T & Y & HT & HY & Hlen & Hmap).
      cbn [fst snd app] in HT, HY. subst t y.
      rewrite Hnil in Hmap. cbn [map] in Hmap. symmetry in Hmap.
      apply map_eq_nil in Hmap.
      destruct T as [| a T]; [reflexivity |].
      destruct Y as [| b Y]; [discriminate Hlen | discriminate Hmap].
    + intros Hbad.
      destruct (series_loop_fails well rows ([], [], None, []) Hbad) as [-> | ->];
        [left | right]; reflexivity.
    + intros Hne Hall.
      destruct (series_loop_total well rows ([], [], None, []) Hall) as [st Hst].
      rewrite Hst. cbn [Payload.bind]. destruct st as [[[t y] sn] reps].
      destruct (series_loop _ _ _ _ Hst eq_refl) as (T & Y & HT & HY & Hlen & Hmap).
      cbn [fst snd app] in HT, HY. subst t y.
      destruct T as [| a T]; [| eexists; reflexivity].
      exfalso. cbn [combine map] in Hmap. apply map_eq_nil in Hmap. contradiction.
Qed.

(** *** [get_dataset_rows] *)

Lemma scan_assignments_spec (assignments : list assignment_object)
  (dataset : option dataset_object) :
  dataset_truthy dataset = false ->
  (dataset_truthy (scan_assignments assignments dataset) = false /\
   Forall (fun a => dataset_truthy (assignment_dataset a) = false) assignments)
  \/
  (exists before a after,
     assignments = before ++ a :: after /\
     Forall (fun a' => dataset_truthy (assignment_dataset a') = false) before /\
     dataset_truthy (assignment_dataset a) = true /\
     scan_assignments assignments dataset = assignment_dataset a).
Proof.
  revert dataset. induction assignments as [| x r IH]; intros dataset Hd;
    cbn [scan_assignments].
  - left. split; [exact Hd | constructor].
  - destruct (dataset_truthy (assignment_dataset x)) eqn:Ex.
    + right. exists [], x, r. split; [reflexivity |]. split; [constructor |].
      split; [exact Ex | reflexivity].
    + destruct (IH _ Ex) as [[Hf Hall] | (before & a & after & -> & Hb & Ha & Hs)].
      * left. split; [exact Hf | constructor; assumption].
      * right. exists (x :: before), a, after. split; [reflexivity |].
        split; [constructor; assumption |]. split; [exact Ha | exact Hs].
Qed.

(** X14.  [get_dataset_rows] hands back the rows of the first truthy dataset it
    meets, the root one first and then those of the assignments in order; it
    never looks past that dataset, and every failure is the same
    [KeyError]. *)
Theorem rows_come_from_first_truthy_dataset (data : assignment_file) :
  (forall rows, get_dataset_rows data = Returns rows ->
     (exists d, data_dataset data = Some d /\
                dataset_truthy (data_dataset data) = true /\
                dataset_rows d = Some rows)
     \/
     (dataset_truthy (data_dataset data) = false /\
      exists before a after d,
        items (data_assignments data) = before ++ a :: after /\
        Forall (fun a' => dataset_truthy (assignment_dataset a') = false) before /\
        assignment_dataset a = Some d /\
        dataset_rows d = Some rows)) /\
  (forall e, get_dataset_rows data = Raises e -> e = KeyError NO_ROWS) /\
  (forall d, data_dataset data = Some d ->
     dataset_rows d = None -> dataset_other_keys d = true ->
     get_dataset_rows data = Raises (KeyError NO_ROWS)).
Proof.
  unfold get_dataset_rows. split; [| split].
  - intros rows H.
    destruct (dataset_truthy (data_dataset data)) eqn:Et; cbn [negb] in H.
    + left. destruct (data_dataset data) as [d |]; [| discriminate].
      rewrite Et in H. cbn [negb] in H.
      destruct (dataset_rows d) as [rows' |] eqn:Er; [| discriminate].
      injection H as <-. exists d. split; [reflexivity |]. split; [reflexivity | exact Er].
    + right. split; [reflexivity |].
      destruct (scan_assignments_spec (items (data_assignments data)) _ Et)
        as [[Hf _] | (before & a & after & Hl & Hb & Ha & Hs)].
      * destruct (scan_assignments _ _) as [d |]; [| discriminate].
        rewrite Hf in H. discriminate.
      * rewrite Hs in H. destruct (assignment_dataset a) as [d |] eqn:Ed; [| discriminate].
        rewrite Ha in H. cbn [negb] in H.
        destruct (dataset_rows d) as [rows' |] eqn:Er; [| discriminate].
        injection H as <-. exists before, a, after, d. tauto.
  - intros e H.
    destruct (if negb (dataset_truthy (data_dataset data)) then _ else _) as [d |];
      [| injection H as <-; reflexivity].
    destruct (negb _); [injection H as <-; reflexivity |].
    destruct (dataset_rows d); [discriminate | injection H as <-; reflexivity].
  - intros d Ed Er Eo. rewrite Ed.
    assert (Et : dataset_truthy (Some d) = true).
    { cbn [dataset_truthy]. rewrite Er. exact Eo. }
    rewrite Et. cbn [negb]. rewrite Et. cbn [negb]. rewrite Er. reflexivity.
Qed.

(** *** The listing of samples and wells *)

Lemma add_well_keys (name well : String.string) (d : list (String.string * list String.string)) :
  forall k, In k (map fst (add_well name well d)) <-> In k (map fst d) \/ k = name.
Proof.
  induction d as [| [k0 ws0] r IH]; intros k; cbn [add_well map fst In].
  - intuition.
  - destruct (String.eqb_spec k0 name) as [-> | Hne]; cbn [map fst In].
    + intuition.
    + rewrite IH. intuition.
Qed.

Lemma add_well_NoDup (name well : String.string) (d : list (String.string * list String.string)) :
  NoDup (map fst d) -> NoDup (map fst (add_well name well d)).
Proof.
  induction d as [| [k0 ws0] r IH]; intros H; cbn [add_well map fst].
  - constructor; [intros [] | constructor].
  - inversion H as [| ? ? Hk Hr]; subst.
    destruct (String.eqb_spec k0 name) as [-> | Hne]; cbn [map fst].
    + constructor; assumption.
    + constructor; [| apply IH; exact Hr].
      rewrite add_well_keys. intros [Hin | E]; [contradiction | congruence].
Qed.

Lemma add_well_In (name well : String.string) (d : list (String.string * list String.string))
  (k x : String.string) :
  (exists ws, In (k, ws) (add_well name well d) /\ In x ws) <->
  (exists ws, In (k, ws) d /\ In x ws) \/ (k = name /\ x = well).
Proof.
  induction d as [| [k0 ws0] r IH]; cbn [add_well].
  - split.
    + intros (ws & [E | []] & Hx). injection E as <- <-. destruct Hx as [<- | []].
      right. split; reflexivity.
    + intros [(ws & [] & _) | [-> ->]]. exists [well]. split; left; reflexivity.
  - destruct (String.eqb_spec k0 name) as [-> | Hne].
    + split.
      * intros (ws & [E | Hin] & Hx).
        -- injection E as <- <-. apply set_add_str_In in Hx.
           destruct Hx as [Hx | ->]; [| right; split; reflexivity].
           left. exists ws0. split; [left; reflexivity | exact Hx].
        -- left. exists ws. split; [right; exact Hin | exact Hx].
      * intros [(ws & [E | Hin] & Hx) | [-> ->]].
        -- injection E as <- <-. exists (set_add_str ws0 well).
           split; [left; reflexivity |]. apply set_add_str_In. left; exact Hx.
        -- exists ws. split; [right; exact Hin | exact Hx].
        -- exists (set_add_str ws0 well). split; [left; reflexivity |].
           apply set_add_str_In. right; reflexivity.
    + split.
      * intros (ws & [E | Hin] & Hx).
        -- injection E as <- <-. left. exists ws0. split; [left; reflexivity | exact Hx].
        -- destruct (proj1 IH (ex_intro _ ws (conj Hin Hx))) as [(ws' & Hin' & Hx') | E].
           ++ left. exists ws'. split; [right; exact Hin' | exact Hx'].
           ++ right. exact E.
      * intros [(ws & [E | Hin] & Hx) | E].
        -- injection E as <- <-. exists ws0. split; [left; reflexivity | exact Hx].
        -- destruct (proj2 IH (or_introl (ex_intro _ ws (conj Hin Hx)))) as (ws' & Hin' & Hx').
           exists ws'. split; [right; exact Hin' | exact Hx'].
        -- destruct (proj2 IH (or_intror E)) as (ws' & Hin' & Hx').
           exists ws'. split; [right; exact Hin' | exact Hx'].
Qed.

Lemma add_well_values (name well : String.string) (d : list (String.string * list String.string)) :
  (forall k ws, In (k, ws) d -> NoDup ws /\ ws <> []) ->
  forall k ws, In (k, ws) (add_well name well d) -> NoDup ws /\ ws <> [].
Proof.
  induction d as [| [k0 ws0] r IH]; intros H k ws; cbn [add_well].
  - intros [E | []]. injection E as <- <-.
    split; [constructor; [intros [] | constructor] | discriminate].
  - destruct (String.eqb_spec k0 name) as [-> | Hne].
    + intros [E | Hin].
      * injection E as <- <-. destruct (H name ws0 (or_introl eq_refl)) as [Hnd _].
        split; [apply set_add_str_NoDup; exact Hnd | apply set_add_str_nonempty].
      * apply (H k ws). right. exact Hin.
    + intros [E | Hin].
      * injection E as <- <-. apply (H k0 ws0). left. reflexivity.
      * apply (IH (fun k' ws' Hin' => H k' ws' (or_intror Hin')) k ws Hin).
Qed.

Lemma listing_ok_add (P : String.string -> String.string -> Prop)
  (d : list (String.string * list String.string)) (name well : String.string) :
  listing_ok P d ->
  listing_ok (fun k x => P k x \/ (k = name /\ x = well)) (add_well name well d).
Proof.
  intros (Hk & Hv & Hp). split; [apply add_well_NoDup; exact Hk |].
  split; [apply add_well_values; exact Hv |].
  intros k x. rewrite add_well_In, Hp. reflexivity.
Qed.

Lemma listing_ok_ext (P Q : String.string -> String.string -> Prop)
  (d : list (String.string * list String.string)) :
  (forall k x, P k x <-> Q k x) -> listing_ok P d -> listing_ok Q d.
Proof.
  intros HPQ (Hk & Hv & Hp). split; [exact Hk |]. split; [exact Hv |].
  intros k x. rewrite Hp. apply HPQ.
Qed.

Lemma add_rows_ok (rows : list row) (P : String.string -> String.string -> Prop)
  (d : list (String.string * list String.string)) :
  listing_ok P d ->
  listing_ok (fun k x => P k x \/
                (k <> "" /\ x <> "" /\
                 exists r, In r rows /\ row_sample r = Some k /\ row_well r = Some x))
             (fold_left add_row rows d).
Proof.
  revert P d. induction rows as [| r rows IH]; intros P d Hd; cbn [fold_left].
  - apply (listing_ok_ext P); [| exact Hd].
    intros k x. split; [auto |]. intros [H | (_ & _ & r & [] & _)]. exact H.
  - set (P' := fun k x => P k x \/
                 (k <> "" /\ x <> "" /\ row_sample r = Some k /\ row_well r = Some x)).
    assert (Hstep : listing_ok P' (add_row d r)).
    { unfold add_row, P'.
      destruct (row_sample r) as [sample |] eqn:Es;
        [| apply (listing_ok_ext P); [| exact Hd]; intros k x; split; [auto |];
           intros [H | (_ & _ & E & _)]; [exact H | discriminate]].
      destruct (row_well r) as [well |] eqn:Ew;
        [| apply (listing_ok_ext P); [| exact Hd]; intros k x; split; [auto |];
           intros [H | (_ & _ & _ & E)]; [exact H | discriminate]].
      destruct (truthy (Some sample)) eqn:Ts; cbn [andb].
      - destruct (truthy (Some well)) eqn:Tw.
        + apply truthy_some in Ts, Tw.
          apply (listing_ok_ext (fun k x => P k x \/ (k = sample /\ x = well)));
            [| apply listing_ok_add; exact Hd].
          intros k x. split.
          * intros [H | [-> ->]]; [left; exact H |]. right. tauto.
          * intros [H | (_ & _ & E1 & E2)]; [left; exact H |].
            right. split; congruence.
        + apply (listing_ok_ext P); [| exact Hd]. intros k x. split; [auto |].
          intros [H | (_ & Hx & _ & E)]; [exact H |].
          injection E as <-. apply truthy_some in Hx. congruence.
      - apply (listing_ok_ext P); [| exact Hd]. intros k x. split; [auto |].
        intros [H | (Hk & _ & E & _)]; [exact H |].
        injection E as <-. apply truthy_some in Hk. congruence. }
    apply (listing_ok_ext _ _ _ ) with (2 := IH _ _ Hstep).
    intros k x. unfold P'. split.
    + intros [[H | (Hk & Hx & E1 & E2)] | (Hk & Hx & r' & Hr' & E1 & E2)].
      * left; exact H.
      * right. split; [exact Hk |]. split; [exact Hx |]. exists r. split; [left; reflexivity | tauto].
      * right. split; [exact Hk |]. split; [exact Hx |]. exists r'. split; [right; exact Hr' | tauto].
    + intros [H | (Hk & Hx & r' & [<- | Hr'] & E1 & E2)].
      * left; left; exact H.
      * left; right. tauto.
      * right. split; [exact Hk |]. split; [exact Hx |]. exists r'. tauto.
Qed.

Lemma add_wells_ok (name : String.string) (wells : list String.string)
  (P : String.string -> String.string -> Prop) (d : list (String.string * list String.string)) :
  listing_ok P d ->
  listing_ok (fun k x => P k x \/ (k = name /\ In x wells))
             (fold_left (fun d well => add_well name well d) wells d).
Proof.
  revert P d. induction wells as [| w wells IH]; intros P d Hd; cbn [fold_left].
  - apply (listing_ok_ext P); [| exact Hd]. intros k x. split; [auto |].
    intros [H | [_ []]]. exact H.
  - apply (listing_ok_ext _ _ _) with (2 := IH _ _ (listing_ok_add P d name w Hd)).
    intros k x. cbn [In]. split.
    + intros [[H | [-> ->]] | [-> H]]; [left; exact H | right; auto | right; auto].
    + intros [H | [-> [<- | H]]]; [left; left; exact H | left; right; auto | right; auto].
Qed.

Lemma add_mapping_samples_ok (samples : list mapping_sample)
  (P : String.string -> String.string -> Prop) (d : list (String.string * list String.string)) :
  listing_ok P d ->
  listing_ok (fun k x => P k x \/
                (k <> "" /\
                 exists s, In s samples /\ sample_name s = Some k /\
                           In x (items (sample_wells s))))
             (fold_left add_mapping_sample samples d).
Proof.
  revert P d. induction samples as [| s samples IH]; intros P d Hd; cbn [fold_left].
  - apply (listing_ok_ext P); [| exact Hd].
    intros k x. split; [auto |]. intros [H | (_ & s & [] & _)]. exact H.
  - set (P' := fun k x => P k x \/
                 (k <> "" /\ sample_name s = Some k /\ In x (items (sample_wells s)))).
    assert (Hstep : listing_ok P' (add_mapping_sample d s)).
    { unfold add_mapping_sample, P'.
      destruct (sample_name s) as [n |] eqn:En;
        [| apply (listing_ok_ext P); [| exact Hd]; intros k x; split; [auto |];
           intros [H | (_ & E & _)]; [exact H | discriminate]].
      destruct (truthy (Some n)) eqn:Tn.
      - apply truthy_some in Tn.
        apply (listing_ok_ext _ _ _) with (2 := add_wells_ok n _ P d Hd).
        intros k x. split.
        + intros [H | [-> H]]; [left; exact H | right; tauto].
        + intros [H | (_ & E & H)]; [left; exact H |]. injection E as <-. right; tauto.
      - apply (listing_ok_ext P); [| exact Hd]. intros k x. split; [auto |].
        intros [H | (Hk & E & _)]; [exact H |].
        injection E as <-. apply truthy_some in Hk. congruence. }
    apply (listing_ok_ext _ _ _ ) with (2 := IH _ _ Hstep).
    intros k x. unfold P'. split.
    + intros [[H | (Hk & E1 & E2)] | (Hk & s' & Hs' & E1 & E2)].
      * left; exact H.
      * right. split; [exact Hk |]. exists s. split; [left; reflexivity | tauto].
      * right. split; [exact Hk |]. exists s'. split; [right; exact Hs' | tauto].
    + intros [H | (Hk & s' & [<- | Hs'] & E1 & E2)].
      * left; left; exact H.
      * left; right. tauto.
      * right. split; [exact Hk |]. exists s'. tauto.
Qed.

Lemma listing_ok_nil : listing_ok (fun _ _ => False) [].
Proof.
  split; [constructor |]. split; [intros k ws [] |].
  intros k x. split; [intros (ws & [] & _) | intros []].
Qed.

Lemma sorted_listing (P : String.string -> String.string -> Prop)
  (d : list (String.string * list String.string)) :
  listing_ok P d ->
  listing_ok P (map (fun kv : String.string * list String.string =>
                       (fst kv, sorted_str (snd kv))) d) /\
  forall k ws,
    In (k, ws) (map (fun kv : String.string * list String.string =>
                       (fst kv, sorted_str (snd kv))) d) ->
    Sorted (fun a b => String.leb a b = true) ws.
Proof.
  intros (Hk & Hv & Hp). split; [split; [| split] |].
  - rewrite map_map. cbn [fst]. exact Hk.
  - intros k ws Hin. apply in_map_iff in Hin. destruct Hin as ([k0 ws0] & E & Hin).
    cbn [fst snd] in E. injection E as <- <-. destruct (Hv _ _ Hin) as [Hnd Hne].
    split; [apply sorted_str_NoDup; exact Hnd |].
    intros E. apply Hne. destruct ws0 as [| a r]; [reflexivity |].
    exfalso. assert (Hin' : In a (sorted_str (a :: r))) by (apply sorted_str_In; left; reflexivity).
    rewrite E in Hin'. destruct Hin'.
  - intros k x. rewrite <- Hp. split.
    + intros (ws & Hin & Hx). apply in_map_iff in Hin. destruct Hin as ([k0 ws0] & E & Hin).
      cbn [fst snd] in E. injection E as <- <-. rewrite sorted_str_In in Hx.
      exists ws0. split; assumption.
    + intros (ws & Hin & Hx). exists (sorted_str ws). split; [| apply sorted_str_In; exact Hx].
      apply in_map_iff. exists (k, ws). split; [reflexivity | exact Hin].
  - intros k ws Hin. apply in_map_iff in Hin. destruct Hin as ([k0 ws0] & E & Hin).
    cbn [fst snd] in E. injection E as <- <-. apply sorted_str_sorted.
Qed.

(** X17.  The listing that [list_samples_and_wells_from_mapping] hands back has
    each sample name once, with its wells in ascending order, each once and
    at least one.  When it is built from [dataset.rows] it lists a well under
    a name exactly when some row carries both, neither being empty, and
    [get_time_series_for_well] then finds rows for every listed well. *)
Theorem listing_is_sorted_and_backed_by_rows (data : assignment_file)
  (d : list (String.string * list String.string)) :
  list_samples_and_wells_from_mapping data = Returns d ->
  NoDup (map fst d) /\
  (forall name wells, In (name, wells) d ->
     NoDup wells /\ wells <> [] /\ Sorted (fun a b => String.leb a b = true) wells) /\
  (items (first_mapping_samples data) <> [] ->
   forall name well,
     (exists wells, In (name, wells) d /\ In well wells) <->
     name <> "" /\
     exists s, In s (items (first_mapping_samples data)) /\ sample_name s = Some name /\
               In well (items (sample_wells s))) /\
  (items (first_mapping_samples data) = [] ->
   exists rows,
     get_dataset_rows data = Returns rows /\
     (forall name well,
        (exists wells, In (name, wells) d /\ In well wells) <->
        name <> "" /\ well <> "" /\
        exists r, In r rows /\ row_sample r = Some name /\ row_well r = Some well) /\
     (forall name wells well, In (name, wells) d -> In well wells ->
        (exists s, get_time_series_for_well data well = Returns s) \/
        get_time_series_for_well data well = Raises (KeyError "time_min") \/
        get_time_series_for_well data well = Raises (KeyError "val_od600"))).
Proof.
  unfold list_samples_and_wells_from_mapping. intros H.
  apply bind_returns in H. destruct H as (d0 & Hd0 & H). injection H as <-.
  destruct (is_nil (items (first_mapping_samples data))) eqn:Enil; cbn [negb] in Hd0.
  - apply is_nil_true in Enil.
    apply bind_returns in Hd0. destruct Hd0 as (rows & Hrows & Hd0). injection Hd0 as <-.
    pose proof (add_rows_ok rows _ _ listing_ok_nil) as Hok.
    apply sorted_listing in Hok. destruct Hok as [(Hk & Hv & Hp) Hs].
    split; [exact Hk |]. split.
    { intros name wells Hin. destruct (Hv _ _ Hin) as [Hnd Hne].
      split; [exact Hnd |]. split; [exact Hne | apply (Hs _ _ Hin)]. }
    split; [intros Hne; contradiction |].
    intros _. exists rows. split; [exact Hrows |].
    assert (Hlist : forall name well,
              (exists wells,
                 In (name, wells)
                    (map (fun kv : String.string * list String.string =>
                            (fst kv, sorted_str (snd kv))) (fold_left add_row rows [])) /\
                 In well wells) <->
              name <> "" /\ well <> "" /\
              exists r, In r rows /\ row_sample r = Some name /\ row_well r = Some well).
    { intros name well. rewrite Hp. tauto. }
    split; [exact Hlist |].
    intros name wells well Hin Hw.
    destruct (proj1 (Hlist name well) (ex_intro _ wells (conj Hin Hw)))
      as (_ & _ & r & Hr & _ & Ewell).
    assert (Hwr : well_rows rows well <> []).
    { intros E. assert (Hin' : In r (well_rows rows well)).
      { unfold well_rows. apply filter_In. split; [exact Hr |].
        rewrite Ewell. cbn [field_is]. apply String.eqb_refl. }
      rewrite E in Hin'. destruct Hin'. }
    unfold get_time_series_for_well. rewrite Hrows. cbn [Payload.bind].
    destruct (forallb complete (well_rows rows well)) eqn:Hall.
    + left.
      destruct (series_loop_total well rows ([], [], None, []) Hall) as [st Hst].
      rewrite Hst. cbn [Payload.bind]. destruct st as [[[t y] sn] reps].
      destruct (series_loop _ _ _ _ Hst eq_refl) as (T & Y & HT & HY & Hlen & Hmap).
      cbn [fst snd app] in HT, HY. subst t y.
      destruct T as [| a T]; [| eexists; reflexivity].
      exfalso. cbn [combine map] in Hmap. apply map_eq_nil in Hmap. contradiction.
    + right.
      destruct (series_loop_fails well rows ([], [], None, []) Hall) as [-> | ->];
        [left | right]; reflexivity.
  - apply is_nil_false in Enil. injection Hd0 as <-.
    pose proof (add_mapping_samples_ok (items (first_mapping_samples data)) _ _ listing_ok_nil)
      as Hok.
    apply sorted_listing in Hok. destruct Hok as [(Hk & Hv & Hp) Hs].
    split; [exact Hk |]. split.
    { intros name wells Hin. destruct (Hv _ _ Hin) as [Hnd Hne].
      split; [exact Hnd |]. split; [exact Hne | apply (Hs _ _ Hin)]. }
    split; [| intros E; contradiction].
    intros _ name well. rewrite Hp. tauto.
Qed.

End LoadingFacts.

(** * The smoothed-curves file *)

Module SmoothedFacts.

Import String.StringSyntax.
Import PyFacts.
Import Payload Smoothed PayloadFacts.
Local Open Scope string_scope.

Lemma list_samples_In (smoothed_payload : payload_object) (name : String.string) :
  In name (list_samples smoothed_payload) <->
  name <> "" /\
  exists s, In s (items (payload_samples smoothed_payload)) /\ s_sample s = Some name.
Proof.
  unfold list_samples. rewrite sorted_str_In. unfold set_of_str.
  rewrite fold_set_add_str_In, (append_truthy_In s_sample). simpl. tauto.
Qed.

(** X19.  [list_samples] lists each non-empty sample name of the file once, in
    ascending order. *)
Theorem list_samples_sorted_distinct (smoothed_payload : payload_object) :
  NoDup (list_samples smoothed_payload) /\
  Sorted (fun a b => String.leb a b = true) (list_samples smoothed_payload) /\
  (forall name,
     In name (list_samples smoothed_payload) <->
     name <> "" /\
     exists s, In s (items (payload_samples smoothed_payload)) /\ s_sample s = Some name).
Proof.
  unfold list_samples. split; [| split].
  - apply sorted_str_NoDup. apply fold_set_add_str_NoDup. constructor.
  - apply sorted_str_sorted.
  - intros name. fold (list_samples smoothed_payload). apply list_samples_In.
Qed.

Lemma field_is_true (field : option String.string) (s : String.string) :
  field_is field s = true <-> field = Some s.
Proof.
  unfold field_is. destruct field as [v |]; [| split; discriminate].
  rewrite String.eqb_eq. split; [intros ->; reflexivity | intros E; injection E as ->; reflexivity].
Qed.

(** X20.  Every name that [list_samples] lists is found by [get_sample_entry],
    which hands back the first sample with that name; a name that no sample
    has gives [ValueError]. *)
Theorem listed_sample_is_found (smoothed_payload : payload_object) :
  (forall name, In name (list_samples smoothed_payload) ->
     exists s before after,
       get_sample_entry smoothed_payload name = Returns s /\
       items (payload_samples smoothed_payload) = before ++ s :: after /\
       s_sample s = Some name /\
       forall s', In s' before -> s_sample s' <> Some name) /\
  (forall name,
     (forall s, In s (items (payload_samples smoothed_payload)) -> s_sample s <> Some name) ->
     get_sample_entry smoothed_payload name
     = Raises (ValueError (String.append "Brak sample='"
                             (String.append name "' w pliku smoothed.")))).
Proof.
  unfold get_sample_entry. split.
  - intros name Hin. apply list_samples_In in Hin.
    destruct Hin as (_ & s0 & Hs0 & E0).
    induction (items (payload_samples smoothed_payload)) as [| x l IH]; [destruct Hs0 |].
    cbn [find]. destruct (field_is (s_sample x) name) eqn:Ex.
    + apply field_is_true in Ex. exists x, [], l.
      split; [reflexivity |]. split; [reflexivity |]. split; [exact Ex |]. intros s' [].
    + destruct Hs0 as [-> | Hs0].
      { apply field_is_true in E0. congruence. }
      destruct (IH Hs0) as (s & before & after & Hf & Hl & Hs & Hb).
      exists s, (x :: before), after. split; [exact Hf |].
      split; [rewrite Hl; reflexivity |]. split; [exact Hs |].
      intros s' [<- | Hs']; [| apply Hb; exact Hs'].
      intros E. apply field_is_true in E. congruence.
  - intros name Hnone.
    destruct (find _ _) as [s |] eqn:E; [| reflexivity].
    apply find_some in E. destruct E as [Hs E]. apply field_is_true in E.
    exfalso. apply (Hnone s Hs E).
Qed.

(** *** The curve *)


Lemma curve_of_outcomes (sample_entry : sample_object) (h : history_object) :
  (exists t y info,
     curve_of sample_entry h
     = Returns (t, y, match h_label h with Some l => l | None => "" end, info)) \/
  curve_of sample_entry h = Raises (ValueError "Wybrany wariant history nie zawiera punktów.") \/
  curve_of sample_entry h = Raises (KeyError "x") \/
  curve_of sample_entry h = Raises (KeyError "y").
Proof.
  unfold curve_of.
  destruct (is_nil (items (h_points h))); [right; left; reflexivity |].
  destruct (mapM_require_total "x" p_x (items (h_points h))) as [(t & ->) | ->];
    cbn [Payload.bind]; [| right; right; left; reflexivity].
  destruct (mapM_require_total "y" p_y (items (h_points h))) as [(y & ->) | ->];
    cbn [Payload.bind]; [| right; right; right; reflexivity].
  left. eexists _, _, _. reflexivity.
Qed.

Lemma last_item_In {A} (l : list A) (a : A) : last_item l = Some a -> In a l.
Proof.
  induction l as [| x r IH]; [discriminate |]. cbn [last_item]. destruct r as [| y r'].
  - intros E. injection E as <-. left; reflexivity.
  - intros E. right. apply IH. exact E.
Qed.

Lemma selected_history (sample_entry : sample_object) (history_label : option String.string)
  (c : curve) :
  get_curve_for_sample_history sample_entry history_label = Returns c ->
  exists h,
    In h (items (s_history sample_entry)) /\
    curve_of sample_entry h = Returns c /\
    (forall l, history_label = Some l -> h_label h = Some l) /\
    (history_label = None -> last_item (items (s_history sample_entry)) = Some h).
Proof.
  unfold get_curve_for_sample_history. intros H.
  destruct (is_nil (items (s_history sample_entry))); [discriminate |].
  destruct history_label as [label |].
  - destruct (find _ _) as [h |] eqn:E; [| discriminate].
    apply find_some in E. destruct E as [Hin E]. apply field_is_true in E.
    exists h. split; [exact Hin |]. split; [exact H |].
    split; [intros l El; injection El as <-; exact E | discriminate].
  - destruct (last_item (items (s_history sample_entry))) as [h |] eqn:E; [| discriminate].
    exists h. split; [apply last_item_In; exact E |]. split; [exact H |].
    split; [discriminate | reflexivity].
Qed.

(** X21.  Every label that [list_history_labels] lists selects a curve: the call
    hands back a curve that carries that label, or fails only because the
    selected entry has no points or a point without [x] or [y]. *)
Theorem listed_label_selects_curve (sample_entry : sample_object) (label : String.string) :
  In label (list_history_labels sample_entry) ->
  (exists t y info,
     get_curve_for_sample_history sample_entry (Some label) = Returns (t, y, label, info)) \/
  get_curve_for_sample_history sample_entry (Some label)
    = Raises (ValueError "Wybrany wariant history nie zawiera punktów.") \/
  get_curve_for_sample_history sample_entry (Some label) = Raises (KeyError "x") \/
  get_curve_for_sample_history sample_entry (Some label) = Raises (KeyError "y").
Proof.
  unfold list_history_labels. rewrite (append_truthy_In h_label).
  intros [[] | (_ & h0 & Hh0 & E0)].
  unfold get_curve_for_sample_history.
  destruct (items (s_history sample_entry)) as [| a r] eqn:Eh; [destruct Hh0 |].
  cbn [is_nil].
  destruct (find (fun h => field_is (h_label h) label) (a :: r)) as [h |] eqn:Ef.
  - apply find_some in Ef. destruct Ef as [_ Ef]. apply field_is_true in Ef.
    pose proof (curve_of_outcomes sample_entry h) as Hc. rewrite Ef in Hc. exact Hc.
  - exfalso. apply (find_none _ _ Ef) in Hh0. apply field_is_true in E0. congruence.
Qed.

End SmoothedFacts.

(** * From the loaders to the engines *)

Module Pipelines.

Import PyFacts BaselineFacts LogPhaseFacts BaselineExtras LogPhaseExtras.
Import Baseline LogPhase.
Import String.StringSyntax.
Import Payload Loading Smoothed PayloadFacts LoadingFacts SmoothedFacts.
Local Open Scope string_scope.




End Pipelines.

(** * The loaders on sample payloads *)

Module PayloadWitnesses.

Import PyFacts.
Import Baseline LogPhase.
Import String.StringSyntax.
Import Payload Loading Smoothed PayloadFacts LoadingFacts SmoothedFacts Pipelines.
Import PayloadSamples.
Local Open Scope string_scope.

Lemma rows_come_from_first_truthy_dataset_witness :
  get_dataset_rows
    {| data_dataset := Some {| dataset_rows := None; dataset_other_keys := true |};
       data_assignments := data_assignments demo_file |}
  = Raises (KeyError NO_ROWS).
Proof.
  apply (proj2 (proj2 (rows_come_from_first_truthy_dataset
                         {| data_dataset :=
                              Some {| dataset_rows := None; dataset_other_keys := true |};
                            data_assignments := data_assignments demo_file |}))
               {| dataset_rows := None; dataset_other_keys := true |});
    reflexivity.
Defined.

Lemma well_series_is_sorted_witness :
  exists t y sample_name replicates,
    get_time_series_for_well demo_file "B02" = Returns (t, y, sample_name, replicates) /\
    exists rows,
      get_dataset_rows demo_file = Returns rows /\
      well_rows rows "B02" <> [] /\
      length t = length (well_rows rows "B02") /\
      length y = length t /\
      StronglySorted Qle t /\
      Permutation (map (fun ty : Q * Q => (Some (fst ty), Some (snd ty))) (combine t y))
                  (map reading (well_rows rows "B02")).
Proof.
  eexists _, _, _, _. split; [vm_compute; reflexivity |].
  eapply (well_series_is_sorted demo_file "B02").
  vm_compute. reflexivity.
Defined.

Lemma well_series_outcomes_witness :
  get_time_series_for_well demo_file "Z99"
    = Raises (ValueError (String.append "Brak danych dla wella " "Z99")) /\
  (get_time_series_for_well demo_file "B03" = Raises (KeyError "time_min") \/
   get_time_series_for_well demo_file "B03" = Raises (KeyError "val_od600")).
Proof.
  split.
  - apply (proj1 (proj2 (well_series_outcomes demo_file "Z99") demo_rows eq_refl)).
    reflexivity.
  - apply (proj1 (proj2 (proj2 (well_series_outcomes demo_file "B03") demo_rows eq_refl))).
    reflexivity.
Defined.

Lemma listing_is_sorted_and_backed_by_rows_witness :
  exists d,
    list_samples_and_wells_from_mapping demo_file = Returns d /\
    NoDup (map fst d) /\
    (forall name wells, In (name, wells) d ->
       NoDup wells /\ wells <> [] /\ Sorted (fun a b => String.leb a b = true) wells).
Proof.
  eexists. split; [vm_compute; reflexivity |].
  destruct (listing_is_sorted_and_backed_by_rows demo_file _ eq_refl) as (H1 & H2 & _).
  split; [exact H1 | exact H2].
Defined.


Lemma listed_sample_is_found_witness :
  exists s before after,
    get_sample_entry demo_payload "SGL800" = Returns s /\
    items (payload_samples demo_payload) = before ++ s :: after /\
    s_sample s = Some "SGL800" /\
    forall s', In s' before -> s_sample s' <> Some "SGL800".
Proof.
  apply (proj1 (listed_sample_is_found demo_payload) "SGL800").
  vm_compute. left. reflexivity.
Defined.

Lemma listed_label_selects_curve_witness :
  (exists t y info,
     get_curve_for_sample_history demo_entry (Some "smoothed")
     = Returns (t, y, "smoothed", info)) \/
  get_curve_for_sample_history demo_entry (Some "smoothed")
    = Raises (ValueError "Wybrany wariant history nie zawiera punktów.") \/
  get_curve_for_sample_history demo_entry (Some "smoothed") = Raises (KeyError "x") \/
  get_curve_for_sample_history demo_entry (Some "smoothed") = Raises (KeyError "y").
Proof.
  apply (listed_label_selects_curve demo_entry "smoothed").
  vm_compute. right. left. reflexivity.
Defined.


End PayloadWitnesses.
